(** * md2mdocx: the Markdown-to-document-model pipeline of [md2mdocx.js]

    A shallow embedding of the command line ([parseArgs]) and the themes
    ([getThemeColors]), the block parser ([MarkdownParser]), the inline
    markup resolver ([parseInlineMarkup]), the changelog extractor
    ([extractChangelog]) and the cut that [main] makes for it, the Mermaid
    prerender pass ([renderMermaidToPng], [prerenderMermaidDiagrams]) and
    the assembly pass ([convertElements]), followed by the properties of
    the specification that concern them and by further properties of the
    code.

    JavaScript strings are sequences of UTF-16 code units; they are
    modelled as lists of code units ([N]).  The regular expressions of the
    source are written as syntax trees and run by a backtracking matcher
    with the priorities of the ECMAScript one (leftmost start, greedy and
    lazy quantifiers tried in order).  Loops that the source does not
    bound run on fuel.  Doubles are rationals rounded to binary64 at every
    operation.  The file system and the rendering service are parameters:
    a record of the Node functions used, and the events that a request
    delivers to its handlers. *)

From Stdlib Require Import ZArith NArith QArith Qround Qpower Lia Lqa.
From Stdlib Require Import String Ascii DecimalString DecimalZ Floats.
From stdpp Require Import base option list gmap.

Local Open Scope nat_scope.

(** ** Strings as lists of UTF-16 code units *)

Abbreviation cu := N (only parsing).
Abbreviation str := (list N) (only parsing).

(** An ASCII literal of the source as a list of code units. *)
Definition u (s : string) : str :=
  List.map N_of_ascii (list_ascii_of_string s).

Definition cueq (a b : cu) : bool := N.eqb a b.

Local Open Scope N_scope.

(** [WhiteSpace] and [LineTerminator] of ECMAScript: what [\s] matches and
    what [String.prototype.trim] strips. *)
Definition is_space (c : cu) : bool :=
  (N.leb 9 c && N.leb c 13) || cueq c 32 || cueq c 160 || cueq c 5760
  || (N.leb 8192 c && N.leb c 8202) || cueq c 8232 || cueq c 8233
  || cueq c 8239 || cueq c 8287 || cueq c 12288 || cueq c 65279.

(** [.] without the [s] flag: anything but a line terminator. *)
Definition is_dot (c : cu) : bool :=
  negb (cueq c 10 || cueq c 13 || cueq c 8232 || cueq c 8233).

Definition is_digit (c : cu) : bool := N.leb 48 c && N.leb c 57.

(** Canonicalisation of the [i] flag (no [u] flag): a code unit is upper-cased,
    and a code unit outside ASCII never becomes an ASCII one, so against the
    ASCII literals of the source only the ASCII letters fold. *)
Definition canon (c : cu) : cu :=
  if N.leb 97 c && N.leb c 122 then c - 32 else c.

Local Close Scope N_scope.

Definition one_of (s : string) (c : cu) : bool := existsb (cueq c) (u s).
Definition none_of (s : string) (c : cu) : bool := negb (one_of s c).

Fixpoint drop_while (p : cu -> bool) (s : str) : str :=
  match s with
  | c :: s' => if p c then drop_while p s' else s
  | [] => []
  end.

Fixpoint take_while (p : cu -> bool) (s : str) : str :=
  match s with
  | c :: s' => if p c then c :: take_while p s' else []
  | [] => []
  end.

(** [String.prototype.trim] *)
Definition trim (s : str) : str :=
  rev (drop_while is_space (rev (drop_while is_space s))).

Fixpoint startsWith (pre s : str) : bool :=
  match pre, s with
  | [], _ => true
  | _ :: _, [] => false
  | a :: pre', b :: s' => cueq a b && startsWith pre' s'
  end.

(** [String.prototype.includes] *)
Fixpoint includes (pat s : str) : bool :=
  startsWith pat s ||
  match s with
  | [] => false
  | _ :: s' => includes pat s'
  end.

(** [String.prototype.split] on a separator of one code unit. *)
Fixpoint split (sep : cu) (s : str) : list str :=
  match s with
  | [] => [[]]
  | c :: s' =>
      if cueq c sep then [] :: split sep s'
      else match split sep s' with
           | h :: t => (c :: h) :: t
           | [] => [[c]]
           end
  end.

(** [Array.prototype.join] *)
Fixpoint join (sep : str) (l : list str) : str :=
  match l with
  | [] => []
  | [x] => x
  | x :: l' => x ++ sep ++ join sep l'
  end.

Definition eq_str (a b : str) : bool := bool_decide (a = b).

(** [parseInt] on a run of decimal digits. *)
Definition parseInt (s : str) : N :=
  fold_left (fun acc c => (10 * acc + (c - 48))%N) s 0%N.

(** ** Regular expressions

    Every quantifier of the source applies to a single character class, and
    no capture group is nested in another: the syntax below covers the
    regular expressions of [md2mdocx.js]. *)

Inductive regex : Type :=
| Lit (ci : bool) (l : str)
| Chr (p : cu -> bool)
| Rep (greedy : bool) (lo : nat) (hi : option nat) (p : cu -> bool)
| Cat (r1 r2 : regex)
| Grp (r : regex)
| Bol
| Eol.

(** A literal at the head of [s]: what follows it.  With the [i] flag both
    sides are canonicalised. *)
Fixpoint lit_match (ci : bool) (l s : str) : option str :=
  match l, s with
  | [], _ => Some s
  | _ :: _, [] => None
  | a :: l', b :: s' =>
      if (if ci then cueq (canon a) (canon b) else cueq a b)
      then lit_match ci l' s' else None
  end.

Definition hi_ok (hi : option nat) : bool :=
  match hi with Some 0 => false | _ => true end.

Definition hi_pred (hi : option nat) : option nat :=
  match hi with Some n => Some (pred n) | None => None end.

(** A quantified class at position [i] of the input, [s] being what is left
    of it.  The greedy one tries one more repetition before it tries the
    continuation, the lazy one the other way round. *)
Fixpoint rep_run {R} (greedy : bool) (p : cu -> bool) (lo : nat)
    (hi : option nat) (i : nat) (s : str) (k : nat -> str -> option R)
    {struct s} : option R :=
  let stop := match lo with O => k i s | S _ => None end in
  let more :=
    match s with
    | c :: s' =>
        if p c && hi_ok hi
        then rep_run greedy p (pred lo) (hi_pred hi) (S i) s' k
        else None
    | [] => None
    end in
  if greedy
  then match more with Some r => Some r | None => stop end
  else match stop with Some r => Some r | None => more end.

(** The backtracking matcher, in continuation-passing style: [caps] holds the
    captures closed so far, in the order of their groups. *)
Fixpoint rmatch {R} (r : regex) (i : nat) (s : str) (caps : list str)
    (k : nat -> str -> list str -> option R) : option R :=
  match r with
  | Lit ci l =>
      match lit_match ci l s with
      | Some s' => k (i + length l) s' caps
      | None => None
      end
  | Chr p =>
      match s with
      | c :: s' => if p c then k (S i) s' caps else None
      | [] => None
      end
  | Rep g lo hi p => rep_run g p lo hi i s (fun i' s' => k i' s' caps)
  | Cat r1 r2 =>
      rmatch r1 i s caps (fun i' s' caps' => rmatch r2 i' s' caps' k)
  | Grp r1 =>
      rmatch r1 i s caps
        (fun i' s' caps' => k i' s' (caps' ++ [take (i' - i) s]))
  | Bol => match i with O => k i s caps | S _ => None end
  | Eol => match s with [] => k i s caps | _ :: _ => None end
  end.

(** The result of [RegExp.prototype.exec] / [String.prototype.match]:
    [index], [m[0]] and the captures [m[1]], [m[2]], ... *)
Record rmatch_result := MatchResult {
  m_index : nat;
  m_0 : str;
  m_groups : list str
}.

(** A match that starts at position [i], [s] being the input from there. *)
Definition match_at (r : regex) (i : nat) (s : str) : option rmatch_result :=
  rmatch r i s [] (fun e _ caps => Some (MatchResult i (take (e - i) s) caps)).

(** The leftmost match at or after position [i]. *)
Fixpoint search (r : regex) (i : nat) (s : str) : option rmatch_result :=
  match match_at r i s with
  | Some m => Some m
  | None =>
      match s with
      | [] => None
      | _ :: s' => search r (S i) s'
      end
  end.

Definition exec (r : regex) (s : str) : option rmatch_result := search r 0 s.

(** [m[n]] for [n >= 1]. *)
Definition group (n : nat) (m : rmatch_result) : str :=
  nth (pred n) (m_groups m) [].

(** [line.match(re)] used as a condition. *)
Definition test (r : regex) (s : str) : bool :=
  match exec r s with Some _ => true | None => false end.

(** [s.replace(re, '')] for a regular expression without the [g] flag. *)
Definition replace_empty (r : regex) (s : str) : str :=
  match exec r s with
  | Some m => take (m_index m) s ++ drop (m_index m + length (m_0 m)) s
  | None => s
  end.

Declare Scope re_scope.
Delimit Scope re_scope with re.
Bind Scope re_scope with regex.
Infix "··" := Cat (at level 60, right associativity) : re_scope.

Definition lit (c : string) : regex := Lit false (u c).
Definition lit_i (c : string) : regex := Lit true (u c).
Definition star (p : cu -> bool) : regex := Rep true 0 None p.
Definition plus (p : cu -> bool) : regex := Rep true 1 None p.
Definition opt (p : cu -> bool) : regex := Rep true 0 (Some 1) p.
Definition plus_lazy (p : cu -> bool) : regex := Rep false 1 None p.
Definition star_lazy (p : cu -> bool) : regex := Rep false 0 None p.
Definition at_least (n : nat) (p : cu -> bool) : regex := Rep true n None p.
Definition between (n m : nat) (p : cu -> bool) : regex := Rep true n (Some m) p.

(** The class of the double and the single quote. *)
Definition is_quote (c : cu) : bool := cueq c 34%N || cueq c 39%N.
Definition not_quote (c : cu) : bool := negb (is_quote c).
Definition any (c : cu) : bool := true.

(** ** The block parser, [class MarkdownParser] *)

Inductive listType := bullet | number.

Record item := Item { item_text : str; item_level : nat }.

Inductive element :=
| pagebreak
| heading (level : nat) (text : str)
| image (alt src : str) (width height : option N)
| table (rows : list (list str))
| list_ (lt : listType) (items : list item)
| blockquote (text : str)
| hr
| paragraph (text : str)
| code (language content : str).

Record parser := Parser {
  lines : list str;
  pos : nat;
  elements : list element
}.

(** [constructor(markdown)] *)
Definition new_parser (markdown : str) : parser :=
  Parser (split 10%N markdown) 0 [].

Definition push (el : element) (ps : parser) : parser :=
  Parser (lines ps) (pos ps) (elements ps ++ [el]).

Definition advance (n : nat) (ps : parser) : parser :=
  Parser (lines ps) (pos ps + n) (elements ps).

(** The lines from the cursor on. *)
Definition rest (ps : parser) : list str := drop (pos ps) (lines ps).

Definition fence : str := u "```".

(** The regular expressions of [parse], in the order of its tests. *)
Definition re_pagebreak : regex :=
  (Bol ·· lit_i "<pagebreak" ·· star is_space ·· opt (one_of "/") ·· lit ">" ·· Eol)%re.

Definition re_heading : regex :=
  (Bol ·· Grp (between 1 6 (one_of "#")) ·· plus is_space ·· Grp (plus is_dot) ·· Eol)%re.

Definition re_image : regex :=
  (Bol ·· lit "![" ·· Grp (star (none_of "]")) ·· lit "](" ··
   Grp (plus (none_of ")")) ·· lit ")" ·· Eol)%re.

Definition imgPattern : regex :=
  (lit_i "<img" ·· plus is_space ·· star (none_of ">") ·· lit_i "src=" ··
   Chr is_quote ·· Grp (plus not_quote) ·· Chr is_quote ··
   star (none_of ">") ·· lit ">")%re.

Definition re_alt : regex :=
  (lit_i "alt=" ·· Chr is_quote ·· Grp (star not_quote) ·· Chr is_quote)%re.

Definition re_width : regex :=
  (lit_i "width=" ·· opt is_quote ·· Grp (plus is_digit) ·· opt is_quote)%re.

Definition re_height : regex :=
  (lit_i "height=" ·· opt is_quote ·· Grp (plus is_digit) ·· opt is_quote)%re.

Definition sep_char (c : cu) : bool := is_space c || one_of "-:|" c.

Definition re_separator : regex :=
  (Bol ·· opt (one_of "|") ·· plus sep_char ·· opt (one_of "|") ·· Eol)%re.

Definition re_bullet : regex :=
  (Bol ·· star is_space ·· Chr (one_of "-*+") ·· plus is_space)%re.

Definition re_number : regex :=
  (Bol ·· star is_space ·· plus is_digit ·· lit "." ·· plus is_space)%re.

Definition re_hr : regex := (Bol ·· at_least 3 (one_of "-*_") ·· Eol)%re.

(** The regular expressions of [parseList]. *)
Definition topPattern (lt : listType) : regex :=
  match lt with
  | bullet => (Bol ·· Chr (one_of "-*+") ·· plus is_space ·· Grp (plus is_dot) ·· Eol)%re
  | number => (Bol ·· plus is_digit ·· lit "." ·· plus is_space ·· Grp (plus is_dot) ·· Eol)%re
  end.

Definition re_nested : regex :=
  (Bol ·· Grp (plus is_space) ·· Chr (one_of "-*+") ·· plus is_space ··
   Grp (plus is_dot) ·· Eol)%re.

(** The regular expressions of [parseBlockquote] and [parseParagraph]. *)
Definition re_quote_marker : regex := (Bol ·· lit ">" ·· opt is_space)%re.

Definition re_para_bullet : regex :=
  (Bol ·· Chr (one_of "-*+") ·· plus is_space)%re.

Definition re_para_number : regex :=
  (Bol ·· plus is_digit ·· lit "." ·· plus is_space)%re.

Definition is_blank (line : str) : bool :=
  match trim line with [] => true | _ :: _ => false end.

(** The loop of [parseCodeBlock]: the lines up to the closing fence. *)
Fixpoint codeLines_of (rest : list str) : list str :=
  match rest with
  | line :: rest' =>
      if startsWith fence line then [] else line :: codeLines_of rest'
  | [] => []
  end.

Definition parseCodeBlock (ps : parser) : parser :=
  let startLine := nth (pos ps) (lines ps) [] in
  let lang := trim (drop 3 startLine) in
  let ps := advance 1 ps in
  let codeLines := codeLines_of (rest ps) in
  let ps := advance (length codeLines) ps in
  let ps := advance 1 ps in
  push (code lang (join (u (String "010" EmptyString)) codeLines)) ps.

Definition parseTableRow (line : str) : list str :=
  let arr := List.map trim (split 124%N line) in
  List.map snd
    (List.filter
       (fun '(idx, cell) =>
          (Nat.ltb 0 idx && Nat.ltb idx (length arr - 1))
          || negb (Nat.eqb (length cell) 0))
       (imap pair arr)).

(** The loop of [parseTable] over the data rows. *)
Fixpoint dataRows_of (rest : list str) : list (list str) :=
  match rest with
  | line :: rest' =>
      if includes (u "|") line then parseTableRow line :: dataRows_of rest'
      else []
  | [] => []
  end.

Definition parseTable (ps : parser) : parser :=
  let headerLine := nth (pos ps) (lines ps) [] in
  let ps := advance 1 ps in
  let ps := advance 1 ps in
  let data := dataRows_of (rest ps) in
  let ps := advance (length data) ps in
  push (table (parseTableRow headerLine :: data)) ps.

(** The loop of [parseList]: the items and the number of lines consumed. *)
Fixpoint list_items (lt : listType) (rest : list str) : list item * nat :=
  match rest with
  | [] => ([], 0)
  | line :: rest' =>
      match exec (topPattern lt) line with
      | Some topMatch =>
          let '(items, n) := list_items lt rest' in
          (Item (group 1 topMatch) 0 :: items, S n)
      | None =>
          match exec re_nested line with
          | Some m =>
              let indent := length (group 1 m) in
              let level := Nat.min ((indent + 1) / 2) 3 in
              let '(items, n) := list_items lt rest' in
              (Item (group 2 m) level :: items, S n)
          | None =>
              if is_blank line then ([], 1) else ([], 0)
          end
      end
  end.

Definition parseList (lt : listType) (ps : parser) : parser :=
  let '(items, n) := list_items lt (rest ps) in
  push (list_ lt items) (advance n ps).

(** The loop of [parseBlockquote]. *)
Fixpoint quoteLines_of (rest : list str) : list str :=
  match rest with
  | line :: rest' =>
      if startsWith (u ">") line
      then replace_empty re_quote_marker line :: quoteLines_of rest'
      else []
  | [] => []
  end.

Definition parseBlockquote (ps : parser) : parser :=
  let qlines := quoteLines_of (rest ps) in
  push (blockquote (join (u (String "010" EmptyString)) qlines))
    (advance (length qlines) ps).

(** The condition under which the loop of [parseParagraph] breaks. *)
Definition para_break (line : str) : bool :=
  is_blank line || startsWith (u "#") line || startsWith fence line
  || test re_para_bullet line || test re_para_number line
  || startsWith (u ">") line.

Fixpoint paraLines_of (rest : list str) : list str :=
  match rest with
  | line :: rest' =>
      if para_break line then [] else line :: paraLines_of rest'
  | [] => []
  end.

Definition parseParagraph (ps : parser) : parser :=
  let plines := paraLines_of (rest ps) in
  let ps := advance (length plines) ps in
  if Nat.ltb 0 (length plines)
  then push (paragraph (join (u " ") plines)) ps
  else ps.

Definition digits_of (r : regex) (line : str) : option N :=
  match exec r line with
  | Some m => Some (parseInt (group 1 m))
  | None => None
  end.

(** The test of the table branch: a cell separator on this line and a
    separator row on the next one. *)
Definition table_start (ps : parser) (line : str) : bool :=
  includes (u "|") line && Nat.ltb (pos ps + 1) (length (lines ps))
  && test re_separator (nth (pos ps + 1) (lines ps) []).

(** One iteration of the [while] loop of [parse], the cursor being on
    [line]. *)
Definition parse_line (ps : parser) (line : str) : parser :=
  if is_blank line then advance 1 ps
  else if startsWith fence line then parseCodeBlock ps
  else if test re_pagebreak line then advance 1 (push pagebreak ps)
  else
    match exec re_heading line with
    | Some headingMatch =>
        advance 1
          (push (heading (length (group 1 headingMatch)) (group 2 headingMatch)) ps)
    | None =>
    match exec re_image line with
    | Some imageMatch =>
        advance 1
          (push (image (group 1 imageMatch) (group 2 imageMatch) None None) ps)
    | None =>
    match exec imgPattern line with
    | Some imgTagMatch =>
        let alt := match exec re_alt line with
                   | Some altMatch => group 1 altMatch
                   | None => []
                   end in
        advance 1
          (push (image alt (group 1 imgTagMatch)
                   (digits_of re_width line) (digits_of re_height line)) ps)
    | None =>
        if table_start ps line then parseTable ps
        else if test re_bullet line then parseList bullet ps
        else if test re_number line then parseList number ps
        else if startsWith (u ">") line then parseBlockquote ps
        else if test re_hr line then advance 1 (push hr ps)
        else parseParagraph ps
    end end end.

Definition parse_step (ps : parser) : parser :=
  match lines ps !! pos ps with
  | Some line => parse_line ps line
  | None => ps
  end.

(** [parse()]: the loop runs while the cursor is inside the document.  The
    fuel bounds the number of iterations: [None] is a loop that has not
    ended within it. *)
Fixpoint parse_loop (fuel : nat) (ps : parser) : option parser :=
  if Nat.ltb (pos ps) (length (lines ps))
  then match fuel with
       | O => None
       | S fuel' => parse_loop fuel' (parse_step ps)
       end
  else Some ps.

Definition parse (fuel : nat) (markdown : str) : option (list element) :=
  elements <$> parse_loop fuel (new_parser markdown).

(** ** Numbers

    The scaling code of [convertElements] computes on IEEE-754 doubles.  The
    quantities there are non-negative, so a double is modelled as a
    non-negative rational, [Infinity] or [NaN], and every operation rounds
    its exact result to the nearest double, ties to even ([rnd]). *)

Inductive num :=
| Fin (q : Q)
| Inf
| NaN.

Local Open Scope Q_scope.

Definition pow2 (e : Z) : Q := Qpower 2 e.

(** The [e] with [2^e <= q < 2^(e+1)], for [q > 0]: the difference of the
    binary logarithms of numerator and denominator, or one less. *)
Definition floor_log2 (q : Q) : Z :=
  let l := (Z.log2 (Qnum q) - Z.log2 (Zpos (Qden q)))%Z in
  if Qle_bool (pow2 l) q then l else (l - 1)%Z.

(** The nearest integer, ties to the even one. *)
Definition round_half_even (t : Q) : Z :=
  let f := Qfloor t in
  match Qcompare (t - inject_Z f) (1 # 2) with
  | Lt => f
  | Gt => (f + 1)%Z
  | Eq => if Z.even f then f else (f + 1)%Z
  end.

(** Rounding of an exact non-negative result to binary64: 53 significant
    bits, the least exponent of a unit in the last place is -1074, and a
    result that reaches [2^1024] overflows.  (Zero stays zero; the code
    produces no negative quantity.) *)
Definition rnd (q : Q) : num :=
  match Qnum q with
  | Zpos _ =>
      let e := Z.max (floor_log2 q - 52) (-1074)%Z in
      let m := round_half_even (q / pow2 e) in
      let r := Qred (inject_Z m * pow2 e) in
      if Qle_bool (pow2 1024) r then Inf else Fin r
  | _ => Fin 0
  end.

Definition is_zero (q : Q) : bool := Qeq_bool q 0.

(** [a / b] *)
Definition fdiv (a b : num) : num :=
  match a, b with
  | NaN, _ | _, NaN => NaN
  | Inf, Inf => NaN
  | Inf, Fin _ => Inf
  | Fin _, Inf => Fin 0
  | Fin x, Fin y =>
      if is_zero y then (if is_zero x then NaN else Inf) else rnd (x / y)
  end.

(** [a * b] *)
Definition fmul (a b : num) : num :=
  match a, b with
  | NaN, _ | _, NaN => NaN
  | Inf, Inf => Inf
  | Inf, Fin y => if is_zero y then NaN else Inf
  | Fin x, Inf => if is_zero x then NaN else Inf
  | Fin x, Fin y => rnd (x * y)
  end.

(** [a > b] *)
Definition fgt (a b : num) : bool :=
  match a, b with
  | NaN, _ | _, NaN => false
  | Inf, Inf => false
  | Inf, Fin _ => true
  | Fin _, Inf => false
  | Fin x, Fin y => negb (Qle_bool x y)
  end.

(** [Math.min(a, b)] *)
Definition fmin (a b : num) : num :=
  match a, b with
  | NaN, _ | _, NaN => NaN
  | Inf, y => y
  | x, Inf => x
  | Fin x, Fin y => if Qle_bool x y then Fin x else Fin y
  end.

(** [Math.floor(a)] *)
Definition ffloor (a : num) : num :=
  match a with
  | Fin x => Fin (inject_Z (Qfloor x))
  | other => other
  end.

(** [Math.round(a)]: the nearest integer, ties upwards. *)
Definition fround (a : num) : num :=
  match a with
  | Fin x => Fin (inject_Z (Qfloor (x + (1 # 2))))
  | other => other
  end.

Definition of_Z (z : Z) : num := Fin (inject_Z z).

Local Close Scope Q_scope.

Definition PAGE_WIDTH : Z := 11906.
Definition MARGIN : Z := 1440.
Definition CONTENT_WIDTH : Z := (PAGE_WIDTH - MARGIN * 2)%Z.
Definition MERMAID_IMAGE_WIDTH : Z := 600.

(** [(CONTENT_WIDTH - currentSectionIndent) / 1440 * 96] *)
Definition maxWidth (currentSectionIndent : Z) : num :=
  fmul (fdiv (of_Z (CONTENT_WIDTH - currentSectionIndent)%Z) (of_Z 1440))
    (of_Z 96).

Definition maxHeight : num := of_Z 600.

(** The scaling of a Mermaid image inside [convertElements]:
    [imgWidth], [imgHeight] on entry, the pair after the [if]. *)
Definition scale_image (currentSectionIndent : Z) (imgWidth imgHeight : num)
    : num * num :=
  let maxWidth := maxWidth currentSectionIndent in
  if fgt imgWidth maxWidth || fgt imgHeight maxHeight then
    let scaleW := fdiv maxWidth imgWidth in
    let scaleH := fdiv maxHeight imgHeight in
    let scale := fmin scaleW scaleH in
    (fround (fmul imgWidth scale), fround (fmul imgHeight scale))
  else (imgWidth, imgHeight).

(** ** The inline markup resolver, [parseInlineMarkup] *)

(** The style options spread into a [TextRun]. *)
Record style := Style {
  bold : bool;
  italics : bool;
  strike : bool;
  shading : bool
}.

Definition no_style : style := Style false false false false.

Record pattern := Pattern { p_regex : regex; p_style : style }.

(** [/D(.+?)D/] for a delimiter [D]. *)
Definition delimited (d : string) : regex :=
  (lit d ·· Grp (plus_lazy is_dot) ·· lit d)%re.

Definition patterns : list pattern :=
  [ Pattern (delimited "***") (Style true true false false);
    Pattern (delimited "**") (Style true false false false);
    Pattern (delimited "*") (Style false true false false);
    Pattern (delimited "__") (Style true false false false);
    Pattern (delimited "_") (Style false true false false);
    Pattern (delimited "~~") (Style false false true false);
    Pattern (delimited "`") (Style false false false true) ].

Definition brPattern : regex :=
  (lit_i "<br" ·· star is_space ·· opt (one_of "/") ·· lit ">")%re.

Inductive etype := t_text | t_break | t_image.

(** The object [earliest]; a field that an object literal of the source
    leaves out holds its empty value, [before] apart, whose absence is
    tested. *)
Record earliest := Earliest {
  e_index : nat;
  e_length : nat;
  e_text : str;
  e_style : style;
  e_before : option str;
  e_type : etype;
  e_src : str;
  e_width : option N;
  e_height : option N
}.

Definition earliest_init (remaining : str) : earliest :=
  Earliest (length remaining) 0 remaining no_style None t_text [] None None.

Definition br_candidate (remaining : str) (brMatch : rmatch_result) : earliest :=
  Earliest (m_index brMatch) (length (m_0 brMatch)) [] no_style
    (Some (take (m_index brMatch) remaining)) t_break [] None None.

Definition img_candidate (remaining : str) (imgMatch : rmatch_result) : earliest :=
  Earliest (m_index imgMatch) (length (m_0 imgMatch)) [] no_style
    (Some (take (m_index imgMatch) remaining)) t_image (group 1 imgMatch)
    (digits_of re_width (m_0 imgMatch)) (digits_of re_height (m_0 imgMatch)).

Definition text_candidate (remaining : str) (p : pattern) (m : rmatch_result)
    : earliest :=
  Earliest (m_index m) (length (m_0 m)) (group 1 m) (p_style p)
    (Some (take (m_index m) remaining)) t_text [] None None.

(** [if (match && match.index < earliest.index) earliest = candidate] *)
Definition improve (e : earliest) (m : option rmatch_result)
    (cand : rmatch_result -> earliest) : earliest :=
  match m with
  | Some m => if Nat.ltb (m_index m) (e_index e) then cand m else e
  | None => e
  end.

(** The part of the loop body that chooses [earliest]. *)
Definition find_earliest (remaining : str) : earliest :=
  let e := earliest_init remaining in
  let e := improve e (exec brPattern remaining) (br_candidate remaining) in
  let e := improve e (exec imgPattern remaining) (img_candidate remaining) in
  fold_left
    (fun e p => improve e (exec (p_regex p) remaining) (text_candidate remaining p))
    patterns e.

(** What the resolver uses of Node: [path.isAbsolute] and [path.join] (as
    [resolve_path]), [fs.existsSync], [fs.readFileSync] ([None] when it
    throws) and [path.extname]. *)
Record node_env := NodeEnv {
  resolve_path : str -> str -> str;
  existsSync : str -> bool;
  readFileSync : str -> option (list N);
  extname : str -> str
}.

Inductive run :=
| TextRun (text : str) (size : option Z) (st : style) (color : option string)
| BreakRun
| ImageRun (type : string) (data : list N) (width height : num)
    (altText : option str)
| PageBreakRun.

Definition plainRun (text : str) : run :=
  TextRun text (Some 22%Z) no_style None.

(** [String.prototype.toLowerCase] on the ASCII letters, which are all the
    keys of [typeMap] hold. *)
Definition toLowerCase (s : str) : str :=
  List.map (fun c => if N.leb 65 c && N.leb c 90 then (c + 32)%N else c) s.

(** [typeMap[ext] || 'png'] on the keys that [typeMap] declares. *)
Definition image_type (ext : str) : string :=
  if eq_str ext (u "jpg") then "jpg"
  else if eq_str ext (u "jpeg") then "jpg"
  else if eq_str ext (u "png") then "png"
  else if eq_str ext (u "gif") then "gif"
  else if eq_str ext (u "bmp") then "bmp"
  else "png".

(** [a || b] on a number that may be [null]: [null] and [0] are falsy. *)
Definition or_num (a : option N) (b : Z) : Z :=
  match a with
  | Some n => if N.eqb n 0 then b else Z.of_N n
  | None => b
  end.

Definition truthy_str (s : option str) : bool :=
  match s with Some (_ :: _) => true | _ => false end.

(** [[画像: ${src}]], [[画像エラー]] and [[画像]] *)
Definition missing_image_text (src : str) : str :=
  [91; 30011; 20687; 58; 32]%N ++ src ++ u "]".
Definition image_error_text : str := [91; 30011; 20687; 12456; 12521; 12540; 93]%N.
Definition image_text : str := [91; 30011; 20687; 93]%N.

Definition red : option string := Some "FF0000"%string.

(** The run pushed for a match of the [<img>] tag when [inputDir] is
    set. *)
Definition inline_image (env : node_env) (inputDir : str) (e : earliest) : run :=
  let imgPath := resolve_path env inputDir (e_src e) in
  if existsSync env imgPath then
    match readFileSync env imgPath with
    | Some imgData =>
        let ext := toLowerCase (drop 1 (extname env imgPath)) in
        let imgWidth := or_num (e_width e) 24 in
        let imgHeight := or_num (e_height e) (or_num (e_width e) 24) in
        ImageRun (image_type ext) imgData (of_Z imgWidth) (of_Z imgHeight) None
    | None => TextRun image_error_text (Some 22%Z) no_style red
    end
  else TextRun (missing_image_text (e_src e)) (Some 22%Z) no_style red.

(** The run pushed for the match held by [earliest]. *)
Definition match_run (env : node_env) (inputDir : option str) (e : earliest)
    : run :=
  match e_type e with
  | t_break => BreakRun
  | t_image =>
      match inputDir with
      | Some (c :: d) => inline_image env (c :: d) e
      | _ => plainRun image_text
      end
  | t_text => TextRun (e_text e) (Some 22%Z) (e_style e) None
  end.

Definition before_runs (e : earliest) : list run :=
  match e_before e with
  | Some (c :: b) => [plainRun (c :: b)]
  | _ => []
  end.

(** One iteration of the [while] loop: the runs pushed, and the text left
    for the next iteration ([None] after [break]). *)
Definition inline_step (env : node_env) (inputDir : option str)
    (remaining : str) : list run * option str :=
  let e := find_earliest remaining in
  if Nat.ltb (e_index e) (length remaining)
  then (before_runs e ++ [match_run env inputDir e],
        Some (drop (e_index e + e_length e) remaining))
  else (before_runs e ++
          (if Nat.ltb 0 (length remaining) then [plainRun remaining] else []),
        None).

(** The loop, bounded by fuel: [None] when it has not ended within it. *)
Fixpoint inline_loop (fuel : nat) (env : node_env) (inputDir : option str)
    (remaining : str) (runs : list run) : option (list run) :=
  if Nat.ltb 0 (length remaining)
  then match fuel with
       | O => None
       | S fuel' =>
           match inline_step env inputDir remaining with
           | (pushed, Some remaining') =>
               inline_loop fuel' env inputDir remaining' (runs ++ pushed)
           | (pushed, None) => Some (runs ++ pushed)
           end
       end
  else Some runs.

(** [parseInlineMarkup(text, inputDir)].  Every match consumes at least one
    code unit ([inline_loop_total] below), so the loop ends within
    [length text] iterations. *)
Definition parseInlineMarkup (env : node_env) (text : str)
    (inputDir : option str) : list run :=
  match inline_loop (length text) env inputDir text [] with
  | Some (r :: runs) => r :: runs
  | _ => [plainRun text]
  end.

(** ** PNG header, [getPngDimensions] *)

(** [buf.readUInt32BE(off)] *)
Definition readUInt32BE (off : nat) (buf : list N) : Z :=
  Z.of_N (fold_left (fun acc b => (256 * acc + b)%N) (take 4 (drop off buf)) 0%N).

Definition getPngDimensions (pngData : list N) : option (Z * Z) :=
  if Nat.ltb (length pngData) 24 then None
  else if negb (eq_str (take 4 pngData) [137; 80; 78; 71]%N) then None
  else Some (readUInt32BE 16 pngData, readUInt32BE 20 pngData).

(** ** The Mermaid renderer, [renderMermaidToPng] *)

(** What the request to the rendering service may deliver to the handlers
    that the function installs: the response callback with its status code,
    the [data] and [end] events of the response, and the [error] and
    [timeout] events of the request. *)
Inductive http_event :=
| ev_response (statusCode : Z)
| ev_data (chunk : list N)
| ev_end
| ev_error (message : str)
| ev_timeout.

(** The promise that the function returns.  [resolved None] is the promise
    resolved with [null]. *)
Inductive promise :=
| pending
| resolved (value : option (list N))
| rejected.

Record request := Request {
  r_promise : promise;
  r_chunks : list (list N);
  r_listening : bool;
  r_destroyed : bool
}.

(** [resolve(v)]: only the first settlement of a promise counts. *)
Definition resolve (v : option (list N)) (r : request) : request :=
  match r_promise r with
  | pending => Request (resolved v) (r_chunks r) (r_listening r) (r_destroyed r)
  | _ => r
  end.

Definition handle (r : request) (ev : http_event) : request :=
  match ev with
  | ev_response statusCode =>
      if negb (Z.eqb statusCode 200) then resolve None r
      else Request (r_promise r) (r_chunks r) true (r_destroyed r)
  | ev_data chunk =>
      if r_listening r
      then Request (r_promise r) (r_chunks r ++ [chunk]) true (r_destroyed r)
      else r
  | ev_end =>
      if r_listening r then resolve (Some (concat (r_chunks r))) r else r
  | ev_error _ => resolve None r
  | ev_timeout =>
      resolve None (Request (r_promise r) (r_chunks r) (r_listening r) true)
  end.

(** The body of the request: the theme directive is put first unless the
    source has one already. *)
Definition postData (diagramSource mermaidTheme : str) : str :=
  if negb (includes (u "%%{init:") diagramSource)
  then u "%%{init: {'theme': '" ++ mermaidTheme ++ u "'}}%%"
       ++ [10%N] ++ diagramSource
  else diagramSource.

(** The rendering service: the events that the request number [n] of a run,
    of body [body], delivers. *)
Definition service := nat -> str -> list http_event.

(** The request after the events that it delivers, and the promise then. *)
Definition request_after (events : list http_event) : request :=
  fold_left handle events (Request pending [] false false).

Definition settle (events : list http_event) : promise :=
  r_promise (request_after events).

(** [renderMermaidToPng(diagramSource, mermaidTheme)]: the promise returned,
    [deliver] giving the events that the request of a given body
    delivers. *)
Definition renderMermaidToPng (deliver : str -> list http_event)
    (diagramSource mermaidTheme : str) : promise :=
  settle (deliver (postData diagramSource mermaidTheme)).

(** ** The prerender pass, [prerenderMermaidDiagrams] *)

Definition is_mermaid (el : element) : bool :=
  match el with
  | code language _ => eq_str language (u "mermaid")
  | _ => false
  end.

Definition content_of (el : element) : str :=
  match el with
  | code _ content => content
  | _ => []
  end.

(** A request that was issued: the diagram source it renders and the body
    that was sent. *)
Record issued := Issued { i_source : str; i_body : str }.

Record prerender_state := PrerenderState {
  renderedMap : gmap str (option (list N));
  requests : list issued
}.

(** The loop over the Mermaid elements.  [await] of a promise that never
    settles does not return: [None]. *)
Fixpoint prerender_loop (svc : service) (mermaidTheme : str)
    (mermaidElements : list element) (st : prerender_state)
    : option prerender_state :=
  match mermaidElements with
  | [] => Some st
  | el :: els =>
      match renderedMap st !! content_of el with
      | Some _ => prerender_loop svc mermaidTheme els st
      | None =>
          match
            renderMermaidToPng (svc (length (requests st))) (content_of el)
              mermaidTheme
          with
          | resolved imageData =>
              prerender_loop svc mermaidTheme els
                (PrerenderState
                   (<[content_of el := imageData]> (renderedMap st))
                   (requests st
                    ++ [Issued (content_of el)
                          (postData (content_of el) mermaidTheme)]))
          | _ => None
          end
      end
  end.

Definition prerenderMermaidDiagrams (svc : service) (elements : list element)
    (mermaidTheme : str) : option prerender_state :=
  prerender_loop svc mermaidTheme (List.filter is_mermaid elements)
    (PrerenderState ∅ []).

(** ** The assembly pass, [convertElements] *)

Record border := Border { b_side : string; b_size : Z; b_color : string }.

(** The options of a [Paragraph] that the pass sets. *)
Record para := Para {
  pg_heading : option nat;
  pg_spacing : option (Z * Z);
  pg_indent_left : option Z;
  pg_indent_hanging : option Z;
  pg_numbering : option (str * Z);
  pg_shading : option string;
  pg_border : option border;
  pg_center : bool;
  pg_children : list run
}.

Record cell := Cell {
  c_width : num;
  c_shading : option string;
  c_children : list run
}.

Record trow := TRow { tr_header : bool; tr_cells : list cell }.

Inductive docx :=
| Paragraph (p : para)
| Table (columnWidths : list num) (rows : list trow) (width : Z) (indent : Z).

(** A paragraph with nothing but an indent and children. *)
Definition indented (left : Z) (children : list run) : para :=
  Para None None (Some left) None None None None false children.

(** Decimal digits of a number inside a template literal. *)
Definition dec (z : Z) : str :=
  u (NilEmpty.string_of_int (Z.to_int z)).

(** [`number-${numberListRef}-indent${currentSectionIndent}`] *)
Definition listRef_of (numberListRef currentSectionIndent : Z) : str :=
  u "number-" ++ dec numberListRef ++ u "-indent" ++ dec currentSectionIndent.

Definition sizeMap (headingLevel : nat) : option Z :=
  match headingLevel with
  | 1 => Some 28%Z | 2 => Some 24%Z | 3 => Some 22%Z | _ => None
  end.

Definition spacingMap (headingLevel : nat) : option (Z * Z) :=
  match headingLevel with
  | 1 => Some (360, 240)%Z | 2 => Some (240, 180)%Z | 3 => Some (180, 120)%Z
  | _ => None
  end.

Definition headingStyleMap (headingLevel : nat) : option nat :=
  match headingLevel with
  | 1 => Some 1 | 2 => Some 2 | 3 => Some 3 | _ => None
  end.

(** [[Mermaid図: レンダリング失敗 - API接続エラーまたはオフライン]] *)
Definition mermaid_warning_text : str :=
  [91; 77; 101; 114; 109; 97; 105; 100; 22259; 58; 32; 12524; 12531; 12480;
   12522; 12531; 12464; 22833; 25943; 32; 45; 32; 65; 80; 73; 25509; 32154;
   12456; 12521; 12540; 12414; 12383; 12399; 12458; 12501; 12521; 12452;
   12531; 93]%N.

(** The warning block that stands for a diagram that was not rendered. *)
Definition mermaid_warning (currentSectionIndent : Z) : docx :=
  Paragraph
    (Para None None (Some currentSectionIndent) None None (Some "FFF3CD"%string)
       (Some (Border "left" 12 "FFC107")) false
       [TextRun mermaid_warning_text (Some 20%Z) no_style (Some "856404"%string)]).

Definition mermaid_image (currentSectionIndent : Z) (imageData : list N)
    : docx :=
  let dimensions := getPngDimensions imageData in
  let imgWidth :=
    match dimensions with
    | Some (w, _) => of_Z w
    | None => of_Z MERMAID_IMAGE_WIDTH
    end in
  let imgHeight :=
    match dimensions with
    | Some (_, h) => of_Z h
    | None => fround (fmul (of_Z MERMAID_IMAGE_WIDTH) (rnd (6 # 10)))
    end in
  let '(imgWidth, imgHeight) :=
    scale_image currentSectionIndent imgWidth imgHeight in
  Paragraph
    (Para None None (Some currentSectionIndent) None None None None true
       [ImageRun "png" imageData imgWidth imgHeight
          (Some (u "Mermaid Diagram"))]).

(** The bullet sign [・] of a top-level item of a bullet list. *)
Definition bullet_sign (lt : listType) (itemLevel : nat) : str :=
  match lt, itemLevel with
  | bullet, O => [12539%N]
  | _, _ => u "-"
  end.

Definition tab : str := [9%N].

Section Assembly.

Variable env : node_env.
Variable inputDir : str.
Variable mermaidRenderedMap : gmap str (option (list N)).

Definition inline (text : str) : list run :=
  parseInlineMarkup env text (Some inputDir).

Definition convert_item (lt : listType) (listRef : str)
    (currentSectionIndent : Z) (it : item) : docx :=
  let itemText := item_text it in
  let itemLevel := item_level it in
  let baseIndent := (currentSectionIndent + 720)%Z in
  let itemIndent := (baseIndent + Z.of_nat itemLevel * 360)%Z in
  match lt, itemLevel with
  | number, O =>
      Paragraph (Para None None None None (Some (listRef, 0%Z)) None None
                   false (inline itemText))
  | _, _ =>
      Paragraph (Para None None (Some itemIndent) (Some 360%Z) None None None
                   false
                   (TextRun (bullet_sign lt itemLevel ++ tab) (Some 22%Z)
                      no_style None :: inline itemText))
  end.

Definition convert_code_line (currentSectionIndent : Z) (codeLine : str)
    : docx :=
  Paragraph
    (Para None None (Some (currentSectionIndent + 360)%Z) None None
       (Some "F5F5F5"%string) None false
       [TextRun (match codeLine with [] => u " " | _ => codeLine end)
          (Some 20%Z) no_style None]).

Definition convert_table (currentSectionIndent : Z) (rows : list (list str))
    : docx :=
  let colCount :=
    match rows with
    | row0 :: _ => match length row0 with O => 1 | n => n end
    | [] => 1
    end in
  let tableWidth := (CONTENT_WIDTH - currentSectionIndent)%Z in
  let colWidth := ffloor (fdiv (of_Z tableWidth) (of_Z (Z.of_nat colCount))) in
  let tableRows :=
    imap (fun rowIdx row =>
            TRow (Nat.eqb rowIdx 0)
              (List.map
                 (fun c =>
                    Cell colWidth
                      (if Nat.eqb rowIdx 0 then Some "D9D9D9"%string else None)
                      (inline c))
                 row))
      rows in
  Table (replicate colCount colWidth) tableRows tableWidth
    currentSectionIndent.

(** [[画像読み込みエラー: ${el.src}]] *)
Definition image_load_error_text (src : str) : str :=
  [91; 30011; 20687; 35501; 12415; 36796; 12415; 12456; 12521; 12540; 58;
   32]%N ++ src ++ u "]".

Definition alt_or_Image (alt : str) : str :=
  match alt with [] => u "Image" | _ => alt end.

Definition convert_image (currentSectionIndent : Z) (alt src : str)
    (width height : option N) : docx :=
  let imgPath := resolve_path env inputDir src in
  if existsSync env imgPath then
    match readFileSync env imgPath with
    | Some imgData =>
        let ext := toLowerCase (drop 1 (extname env imgPath)) in
        let imgWidth := of_Z (or_num width 400) in
        let imgHeight :=
          match height with
          | Some (Npos h) => of_Z (Zpos h)
          | _ =>
              match width with
              | Some (Npos w) => fround (fmul (of_Z (Zpos w)) (rnd (75 # 100)))
              | _ => of_Z 300
              end
          end in
        Paragraph
          (Para None None (Some currentSectionIndent) None None None None true
             [ImageRun (image_type ext) imgData imgWidth imgHeight
                (Some (alt_or_Image alt))])
    | None =>
        Paragraph
          (indented currentSectionIndent
             [TextRun (image_load_error_text src) (Some 22%Z) no_style red])
    end
  else
    Paragraph
      (indented currentSectionIndent
         [TextRun (missing_image_text src) (Some 22%Z) no_style red]).

(** The local state of [convertElements] next to [children]. *)
Record convert_state := ConvertState {
  numberListRef : Z;
  currentSectionIndent : Z
}.

(** The body of the [for] loop for one element: the blocks pushed to
    [children] and the state after it. *)
Definition convert_element (st : convert_state) (el : element)
    : list docx * convert_state :=
  match el with
  | heading level text =>
      let headingLevel := if Nat.leb level 3 then level else 3 in
      let indent := if Nat.eqb level 1 then 0%Z else 360%Z in
      ([Paragraph
          (Para (headingStyleMap headingLevel) (spacingMap headingLevel)
             (Some indent) None None None None false
             [TextRun text (sizeMap headingLevel)
                (Style true false false false) None])],
       ConvertState (numberListRef st) indent)
  | paragraph text =>
      ([Paragraph (indented (currentSectionIndent st) (inline text))], st)
  | list_ lt items =>
      let numberListRef' :=
        match lt with
        | number => (numberListRef st + 1)%Z
        | bullet => numberListRef st
        end in
      let listRef := listRef_of numberListRef' (currentSectionIndent st) in
      (List.map (convert_item lt listRef (currentSectionIndent st)) items,
       ConvertState numberListRef' (currentSectionIndent st))
  | code language content =>
      if eq_str language (u "mermaid") then
        match mermaidRenderedMap !! content with
        | Some (Some imageData) =>
            ([mermaid_image (currentSectionIndent st) imageData], st)
        | _ => ([mermaid_warning (currentSectionIndent st)], st)
        end
      else
        (List.map (convert_code_line (currentSectionIndent st))
           (split 10%N content), st)
  | table rows => ([convert_table (currentSectionIndent st) rows], st)
  | blockquote text =>
      ([Paragraph
          (Para None None (Some (currentSectionIndent st + 720)%Z) None None
             None (Some (Border "left" 24 "CCCCCC")) false
             [TextRun text (Some 22%Z) (Style false true false false) None])],
       st)
  | image alt src width height =>
      ([convert_image (currentSectionIndent st) alt src width height], st)
  | hr =>
      ([Paragraph
          (Para None None (Some (currentSectionIndent st)) None None None
             (Some (Border "bottom" 6 "CCCCCC")) false [])], st)
  | pagebreak =>
      ([Paragraph (Para None None None None None None None false
                     [PageBreakRun])], st)
  end.

(** The loop of [convertElements] from a state on. *)
Fixpoint convert_from (st : convert_state) (els : list element)
    : list docx :=
  match els with
  | [] => []
  | el :: els' =>
      let '(blocks, st') := convert_element st el in
      blocks ++ convert_from st' els'
  end.

Definition convertElements (els : list element) : list docx :=
  convert_from (ConvertState 0 0) els.

End Assembly.

(** The loop of [main] that declares one numbering per numbered list. *)
Record numberConfig := NumberConfig {
  nc_reference : str;
  nc_indent_left : Z;
  nc_indent_hanging : Z
}.

Fixpoint numberConfigs_from (listCount currentIndent : Z) (els : list element)
    : list numberConfig :=
  match els with
  | [] => []
  | el :: els' =>
      let currentIndent :=
        match el with
        | heading level _ => if Nat.eqb level 1 then 0%Z else 360%Z
        | _ => currentIndent
        end in
      match el with
      | list_ number _ =>
          let listCount := (listCount + 1)%Z in
          NumberConfig (listRef_of listCount currentIndent)
            (currentIndent + 720) 360
          :: numberConfigs_from listCount currentIndent els'
      | _ => numberConfigs_from listCount currentIndent els'
      end
  end.

Definition numberConfigs (els : list element) : list numberConfig :=
  numberConfigs_from 0 0 els.

(** ** The changelog extractor, [extractChangelog] *)

Definition re_changelog : regex :=
  (lit "<!--" ·· star is_space ·· lit "CHANGELOG" ·· star is_space ·· lit "-->"
   ·· Grp (star_lazy any) ··
   lit "<!--" ·· star is_space ·· lit "/CHANGELOG" ·· star is_space ·· lit "-->")%re.

Definition re_changelog_separator : regex :=
  (Bol ·· lit "|" ·· plus sep_char ·· lit "|" ·· Eol)%re.

(** The header label [バージョン]. *)
Definition header_label : str := [12496; 12540; 12472; 12519; 12531]%N.

Record changelog_record := ChangelogRecord {
  version : str;
  date : str;
  description : str
}.

(** The body of the [for] loop for the line of index [i]: the record pushed
    to [dataRows], if any. *)
Definition changelog_row (i : nat) (line_i : str) : option changelog_record :=
  let line := trim line_i in
  if test re_changelog_separator line then None
  else if Nat.eqb i 0 && includes header_label line then None
  else if includes (u "|") line then
    let cells := parseTableRow line in
    if Nat.leb 3 (length cells)
    then Some (ChangelogRecord (nth 0 cells []) (nth 1 cells []) (nth 2 cells []))
    else None
  else None.

Definition nonblank (line : str) : bool := negb (is_blank line).

(** The records of the region between the two markers. *)
Definition changelog_rows (region : str) : list changelog_record :=
  let changelogContent := trim region in
  let lines := List.filter nonblank (split 10%N changelogContent) in
  omap id (imap changelog_row lines).

Definition extractChangelog (markdown : str) : option (list changelog_record) :=
  match exec re_changelog markdown with
  | None => None
  | Some changelogMatch =>
      let dataRows := changelog_rows (group 1 changelogMatch) in
      if Nat.ltb 0 (length dataRows) then Some dataRows else None
  end.

(** The options that [createHistorySection] reads for its fallback. *)
Record options := Options { o_version : str; o_date : str }.


(** ** The markdown that [main] parses

    [main] cuts the changelog block out of the file before it parses it:
    [markdownRaw.replace(/<!--\s*CHANGELOG\s*-->[\s\S]*?<!--\s*\/CHANGELOG\s*-->\s*/, '')]. *)
Definition re_changelog_block : regex :=
  (lit "<!--" ·· star is_space ·· lit "CHANGELOG" ·· star is_space ·· lit "-->"
   ·· star_lazy any ··
   lit "<!--" ·· star is_space ·· lit "/CHANGELOG" ·· star is_space ·· lit "-->"
   ·· star is_space)%re.

Definition main_markdown (markdownRaw : str) : str :=
  replace_empty re_changelog_block markdownRaw.

(** ** The command line and the themes, [parseArgs] and [getThemeColors] *)

Record theme_colors := ThemeColors {
  headerBorder : string;
  tableHeader : string;
  mermaid : str
}.

Definition blue_colors : theme_colors :=
  ThemeColors "2F4F76" "538DD4" (u "default").
Definition orange_colors : theme_colors :=
  ThemeColors "B45F06" "F6B26B" (u "neutral").
Definition green_colors : theme_colors :=
  ThemeColors "38761D" "93C47D" (u "forest").

Definition THEME_COLORS : gmap str theme_colors :=
  <[u "blue" := blue_colors]>
    (<[u "orange" := orange_colors]> (<[u "green" := green_colors]> ∅)).

(** What [o[key]] finds on an object literal [o]: a property of its own, a
    property that it inherits from [Object.prototype], or nothing. *)
Inductive property (A : Type) :=
| own (a : A)
| inherited
| undefined.

Arguments own {A} a.
Arguments inherited {A}.
Arguments undefined {A}.

(** A property key made from a value that is [null] or a string. *)
Definition to_key (v : option (option str)) : str :=
  match v with
  | Some (Some s) => s
  | Some None => u "null"
  | None => u "undefined"
  end.

(** [!v] on a value that is [undefined], [null] or a string. *)
Definition falsy (v : option (option str)) : bool :=
  match v with
  | Some (Some (_ :: _)) => false
  | _ => true
  end.

(** [s.replace(re, newSubstr)] for a regular expression without the [g]
    flag and a replacement without [$]. *)
Definition replace_with (r : regex) (newSubstr s : str) : str :=
  match exec r s with
  | Some m =>
      take (m_index m) s ++ newSubstr ++ drop (m_index m + length (m_0 m)) s
  | None => s
  end.

Definition re_md : regex := (lit ".md" ·· Eol)%re.

(** The options of [parseArgs] before the arguments are read; [today] is
    the date of the day as [toLocaleDateString] prints it. *)
Definition default_options (today : str) : gmap str (option str) :=
  list_to_map
    [ (u "input", None);
      (u "output", None);
      (u "title", Some [35069; 21697; 21517]%N);
      (u "subtitle", Some [12510; 12491; 12517; 12450; 12523]%N);
      (u "doctype", Some [25805; 20316; 12510; 12491; 12517; 12450; 12523]%N);
      (u "version", Some (u "1.0.0"));
      (u "date", Some today);
      (u "dept", Some [25216; 34899; 38283; 30330; 37096]%N);
      (u "docnum", Some (u "DOC-001"));
      (u "logo", None);
      (u "company",
       Some [12469; 12531; 12503; 12523; 26666; 24335; 20250; 31038]%N);
      (u "theme", Some (u "blue")) ].

(** The loop of [parseArgs] over the arguments from the current one on. *)
Fixpoint parseArgs_loop (args : list str) (options : gmap str (option str))
    : gmap str (option str) :=
  match args with
  | [] => options
  | arg :: rest =>
      if startsWith (u "--") arg then
        let key := drop 2 arg in
        match options !! key, rest with
        | Some _, value :: rest' =>
            parseArgs_loop rest' (<[key := Some value]> options)
        | _, _ => parseArgs_loop rest options
        end
      else if falsy (options !! u "input")
      then parseArgs_loop rest (<[u "input" := Some arg]> options)
      else if falsy (options !! u "output")
      then parseArgs_loop rest (<[u "output" := Some arg]> options)
      else parseArgs_loop rest options
  end.

Section Runtime.

(** The names of the properties that an object literal inherits from
    [Object.prototype]; their values are functions or objects. *)
Variable on_prototype : str -> bool.

Definition get {A} (o : gmap str A) (key : str) : property A :=
  match o !! key with
  | Some a => own a
  | None => if on_prototype key then inherited else undefined
  end.

(** [THEME_COLORS[theme] || THEME_COLORS.blue] *)
Definition getThemeColors (theme : str) : property theme_colors :=
  match get THEME_COLORS theme with
  | undefined => get THEME_COLORS (u "blue")
  | found => found
  end.

(** [parseArgs()] on the arguments [args] of the command line; [None] is
    [process.exit(1)]. *)
Definition parseArgs (today : str) (args : list str)
    : option (gmap str (option str)) :=
  let options := parseArgs_loop args (default_options today) in
  match options !! u "input" with
  | Some (Some (c :: input')) =>
      let options :=
        match get THEME_COLORS (to_key (options !! u "theme")) with
        | undefined => <[u "theme" := Some (u "blue")]> options
        | _ => options
        end in
      let options :=
        if falsy (options !! u "output")
        then <[u "output" :=
                 Some (replace_with re_md (u ".docx") (c :: input'))]> options
        else options in
      Some options
  | _ => None
  end.

End Runtime.

(** ** Declarative reading of the regular expressions

    [Matches r i w s' caps]: at position [i] of the input, [r] can consume
    the word [w], [s'] being what follows it, and its groups then hold
    [caps].  The relation says what a match looks like; which of the
    possible matches the matcher returns is settled by its priorities. *)
Inductive Matches : regex -> nat -> str -> str -> list str -> Prop :=
| M_lit ci l i w s' :
    lit_match ci l (w ++ s') = Some s' -> length w = length l ->
    Matches (Lit ci l) i w s' []
| M_chr (p : cu -> bool) i c s' :
    p c = true -> Matches (Chr p) i [c] s' []
| M_rep g lo hi (p : cu -> bool) i w s' :
    Forall (fun c => p c = true) w -> lo <= length w ->
    (forall h, hi = Some h -> length w <= h) ->
    Matches (Rep g lo hi p) i w s' []
| M_cat r1 r2 i w1 w2 s' c1 c2 :
    Matches r1 i w1 (w2 ++ s') c1 ->
    Matches r2 (i + length w1) w2 s' c2 ->
    Matches (Cat r1 r2) i (w1 ++ w2) s' (c1 ++ c2)
| M_grp r i w s' c :
    Matches r i w s' c -> Matches (Grp r) i w s' (c ++ [w])
| M_bol s' : Matches Bol 0 [] s' []
| M_eol i : Matches Eol i [] [] [].

(** ** Notions of the specification *)

(** Every table among the elements stands on a line with a cell separator
    that a separator row follows. *)
Definition tables_justified (ps : parser) : Prop :=
  forall rows, In (table rows) (elements ps) ->
    exists p line next,
      lines ps !! p = Some line /\ includes (u "|") line = true /\
      lines ps !! (p + 1) = Some next /\ test re_separator next = true.

(** The least number of code units that a match consumes. *)
Fixpoint min_len (r : regex) : nat :=
  match r with
  | Lit _ l => length l
  | Chr _ => 1
  | Rep _ lo _ _ => lo
  | Cat r1 r2 => min_len r1 + min_len r2
  | Grp r1 => min_len r1
  | Bol | Eol => 0
  end.

(** The tests of one iteration of [parseInlineMarkup] in the order in which
    the source runs them, each with the object that it stores in
    [earliest]: the break tag, the image tag, then the text patterns in the
    order of their array. *)
Definition inline_tests (remaining : str)
    : list (regex * (rmatch_result -> earliest)) :=
  [(brPattern, br_candidate remaining); (imgPattern, img_candidate remaining)]
  ++ List.map (fun p => (p_regex p, text_candidate remaining p)) patterns.

(** One test of the iteration applied to [earliest]. *)
Definition improve_with (remaining : str) (e : earliest)
    (t : regex * (rmatch_result -> earliest)) : earliest :=
  improve e (exec t.1 remaining) t.2.

(** The invariant of the loop of [prerenderMermaidDiagrams]: no source was
    requested twice, the sources requested are the keys of the map, and
    the map holds under each source what its request resolved to. *)
Definition prerender_inv (svc : service) (theme : str) (st : prerender_state) : Prop :=
  NoDup (i_source <$> requests st) /\
  (forall src, src ∈ (i_source <$> requests st) <-> is_Some (renderedMap st !! src)) /\
  (forall n rq, requests st !! n = Some rq ->
     i_body rq = postData (i_source rq) theme /\
     exists v, renderMermaidToPng (svc n) (i_source rq) theme = resolved v /\
               renderedMap st !! i_source rq = Some v).


(** The state of [convertElements] after a list of elements. *)
Definition state_after (env : node_env) (inputDir : str)
    (m : gmap (list N) (option (list N))) (st : convert_state)
    (els : list element) : convert_state :=
  fold_left (fun st el => (convert_element env inputDir m st el).2) els st.

(** The structural indent that the specification describes: it derives from
    the last heading before a position, 0 after a level-1 heading or when
    there is none, 360 after a deeper one. *)
Fixpoint last_heading_level (els : list element) : option nat :=
  match els with
  | [] => None
  | el :: els' =>
      match last_heading_level els' with
      | Some level => Some level
      | None => match el with heading level _ => Some level | _ => None end
      end
  end.

Definition active_indent (before : list element) : Z :=
  match last_heading_level before with
  | Some 1 => 0
  | Some _ => 360
  | None => 0
  end.

(** The indent that a block pushed for the element [el] carries when the
    structural indent is [v]. *)
Definition annotated (v : Z) (el : element) (b : docx) : Prop :=
  match el, b with
  | heading level _, Paragraph p =>
      pg_indent_left p = Some (if Nat.eqb level 1 then 0 else 360)
  | (paragraph _ | image _ _ _ _ | hr), Paragraph p =>
      pg_indent_left p = Some v
  | code language _, Paragraph p =>
      pg_indent_left p
      = Some (if eq_str language (u "mermaid") then v else v + 360)
  | blockquote _, Paragraph p => pg_indent_left p = Some (v + 720)
  | table _, Table _ _ width indent =>
      indent = v /\ width = CONTENT_WIDTH - v
  | list_ lt items, Paragraph p =>
      exists it, In it items /\
        match lt, item_level it with
        | number, O =>
            pg_indent_left p = None /\
            exists k, pg_numbering p = Some (listRef_of k v, 0)
        | _, level =>
            pg_indent_left p = Some (v + 720 + Z.of_nat level * 360) /\
            pg_indent_hanging p = Some 360
        end
  | pagebreak, Paragraph p =>
      pg_indent_left p = None /\ pg_numbering p = None
  | _, _ => False
  end%Z.

(** The numbering declarations of [main], read off the states of
    [convertElements]. *)
Fixpoint configs_via_state (env : node_env) (inputDir : str)
    (m : gmap (list N) (option (list N))) (st : convert_state)
    (els : list element) : list numberConfig :=
  match els with
  | [] => []
  | el :: els' =>
      let st' := (convert_element env inputDir m st el).2 in
      match el with
      | list_ number _ =>
          NumberConfig
            (listRef_of (numberListRef st') (currentSectionIndent st))
            (currentSectionIndent st + 720) 360
          :: configs_via_state env inputDir m st' els'
      | _ => configs_via_state env inputDir m st' els'
      end
  end.

(** The value of a double of the primitive binary64 type of Rocq, and of a
    number of the model, for comparing the two on concrete inputs. *)
Definition float_value (f : float) : option Q :=
  match Prim2SF f with
  | S754_zero _ => Some 0%Q
  | S754_finite false m e => Some (Qred (inject_Z (Zpos m) * pow2 e))
  | _ => None
  end.

Definition num_value (x : num) : option Q :=
  match x with
  | Fin q => Some (Qred q)
  | _ => None
  end.

(** [w * Math.min(maxWidth / w, 600 / h)] on primitive doubles, [maxWidth]
    being that of indent 0, and in the model. *)
Definition scaled_width_float (w h : float) : float :=
  let maxWidth := (9026 / 1440 * 96)%float in
  let scaleW := (maxWidth / w)%float in
  let scaleH := (600 / h)%float in
  (w * (if PrimFloat.ltb scaleH scaleW then scaleH else scaleW))%float.

Definition scaled_width_model (w h : Z) : num :=
  fmul (of_Z w) (fmin (fdiv (maxWidth 0) (of_Z w)) (fdiv maxHeight (of_Z h))).






(** ** Notions of the further properties *)

(** [parseList] takes no item from a line that neither of its two patterns
    matches. *)
Definition no_item (lt : listType) (line : str) : bool :=
  negb (test (topPattern lt) line) && negb (test re_nested line).

(** The lines on which an iteration of [parse] leaves the cursor in place
    unless a table starts there: the line passes the tests of the blank
    line, the fence, the page break, the heading and the two images, and
    then either opens a list from which [parseList] takes no item, or goes
    to [parseParagraph], which breaks on it at once. *)
Definition stuck (line : str) : bool :=
  negb (is_blank line) && negb (startsWith fence line)
  && negb (test re_pagebreak line) && negb (test re_heading line)
  && negb (test re_image line) && negb (test imgPattern line)
  && (if test re_bullet line then no_item bullet line
      else if test re_number line then no_item number line
      else negb (startsWith (u ">") line) && negb (test re_hr line)
           && para_break line).

(** The filter of [parseTableRow]: a cell stays when it is an inner one or
    when it is not empty. *)
Definition keep_cell (n : nat) (c : nat * list N) : bool :=
  (Nat.ltb 0 c.1 && Nat.ltb c.1 (n - 1)) || negb (Nat.eqb (length c.2) 0).

Definition is_numbered (el : element) : bool :=
  match el with list_ number _ => true | _ => false end.

(** A regular expression without its capture groups. *)
Fixpoint ungroup (r : regex) : regex :=
  match r with
  | Cat r1 r2 => Cat (ungroup r1) (ungroup r2)
  | Grp r1 => ungroup r1
  | other => other
  end.

(** How a match of the pattern of [main] stands to the match of the pattern
    of [extractChangelog] at the position [i] of the input, [s] being the
    input from there: it starts at the same place and goes on over the
    whitespace that follows. *)
Definition extends_over_space (i : nat) (s : str) (m1 m2 : rmatch_result) : Prop :=
  m_index m2 = m_index m1 /\ i <= m_index m1 /\
  m_0 m2 = m_0 m1
           ++ take_while is_space (drop (m_index m1 - i + length (m_0 m1)) s).

(** The options that hold a string from the start. *)
Definition string_keys : list str :=
  [u "title"; u "subtitle"; u "doctype"; u "version"; u "date"; u "dept";
   u "docnum"; u "company"; u "theme"].

(** What the loop of [parseArgs] keeps: the keys of the options, and a
    string under each key that held one at the start. *)
Definition options_inv (today : str) (options : gmap str (option str)) : Prop :=
  dom options = dom (default_options today) /\
  Forall (fun key => exists s, options !! key = Some (Some s)) string_keys.

(** [el.rows[0]?.length || 1] *)
Definition colCount_of (rows : list (list str)) : nat :=
  match rows with
  | row0 :: _ => match length row0 with O => 1 | n => n end
  | [] => 1
  end.

(** A cell as [parseTableRow] leaves it: without whitespace at its ends and
    without cell separator. *)
Definition clean_cell (c : str) : Prop := trim c = c /\ 124%N ∉ c.

(** What the elements that [parse] returns have in common with the
    patterns that made them. *)
Definition well_formed (el : element) : Prop :=
  match el with
  | heading level text => 1 <= level <= 6 /\ text <> []
  | image _ src _ _ => src <> []
  | table rows => rows <> [] /\ Forall (Forall clean_cell) rows
  | list_ _ items =>
      items <> [] /\
      Forall (fun it => item_level it <= 3 /\ item_text it <> []) items
  | paragraph text => text <> []
  | _ => True
  end.

(** A quoted line behind its marker, without the whitespace that may follow
    the marker. *)
Definition unquote (body : str) : str :=
  match body with
  | c :: body' => if is_space c then body' else body
  | [] => []
  end.

(** The numbering reference of a block, if it has one. *)
Definition numbering_of (b : docx) : option str :=
  match b with
  | Paragraph p => fst <$> pg_numbering p
  | Table _ _ _ _ => None
  end.

(** The width in pixels that a diagram may take under a structural indent:
    the usable width, rounded. *)
Definition widest (currentSectionIndent : Z) : Z :=
  if Z.eqb currentSectionIndent 0 then 602 else 578.

(** A parser seen inside a longer document: [pre] stands before its lines
    and [e0] before its elements. *)
Definition lift (pre : list str) (e0 : list element) (ps : parser) : parser :=
  Parser (pre ++ lines ps) (length pre + pos ps) (e0 ++ elements ps).

(** A parser whose document goes on behind an empty line, the cursor being
    [d] lines further. *)
Definition extend (more : list str) (d : nat) (ps : parser) : parser :=
  Parser (lines ps ++ [] :: more) (pos ps + d) (elements ps).

(** * Properties *)

(** ** The matcher *)

Section matcher.

Context {R : Type}.
Implicit Types (k : nat -> str -> option R) (x : R).

Lemma lit_match_length ci l s s' :
  lit_match ci l s = Some s' -> s = take (length l) s ++ s' /\ length l <= length s.
Proof.
  revert s; induction l as [|a l IH]; intros [|b s]; simpl; try discriminate.
  - intros [= <-]; split; [done | lia].
  - intros [= <-]; split; [done | lia].
  - destruct (if ci then _ else _); [|discriminate].
    intros H; destruct (IH _ H) as [E L]; split; [by f_equal | lia].
Qed.

(** What a quantified class hands to its continuation. *)
Lemma rep_run_sound g p lo hi i s k x :
  rep_run g p lo hi i s k = Some x ->
  exists w s', s = w ++ s' /\ Forall (fun c => p c = true) w /\
    lo <= length w /\ (forall h, hi = Some h -> length w <= h) /\
    k (i + length w) s' = Some x.
Proof.
  revert lo hi i; induction s as [|c s IH]; intros lo hi i; simpl.
  - destruct lo; [|by destruct g].
    intros H; exists [], []; simpl; rewrite Nat.add_0_r.
    split_and!; [done | constructor | lia | intros; lia |].
    by destruct g, (k i []).
  - set (stop := match lo with O => k i (c :: s) | S _ => None end).
    set (more := if p c && hi_ok hi then _ else None).
    intros H.
    assert (Hcases : more = Some x \/ stop = Some x).
    { destruct g, more, stop; naive_solver. }
    destruct Hcases as [Hm | Hs].
    + subst more. destruct (p c) eqn:Hp; [|discriminate].
      destruct (hi_ok hi) eqn:Hh; [|discriminate]. simpl in Hm.
      destruct (IH _ _ _ Hm) as (w & s' & -> & Hw & Hlo & Hhi & Hk).
      exists (c :: w), s'; simpl. split_and!; auto.
      * lia.
      * intros h ->. simpl in *. destruct h; [discriminate|].
        specialize (Hhi h eq_refl). lia.
      * by replace (i + S (length w)) with (S i + length w) by lia.
    + subst stop. destruct lo; [|discriminate].
      exists [], (c :: s); simpl; rewrite Nat.add_0_r.
      split_and!; [done | constructor | lia | intros; lia | done].
Qed.

End matcher.

(** Soundness of the matcher: a result comes from a word that the regular
    expression matches in the declarative sense, handed to the
    continuation with the captures of that match. *)
Lemma rmatch_sound {R} r i s caps (k : nat -> str -> list str -> option R) x :
  rmatch r i s caps k = Some x ->
  exists w s' c, s = w ++ s' /\ Matches r i w s' c /\
    k (i + length w) s' (caps ++ c) = Some x.
Proof.
  revert i s caps k; induction r as [ci l|p|g lo hi p|r1 IH1 r2 IH2|r IH| |];
    intros i s caps k; simpl.
  - destruct (lit_match ci l s) as [s'|] eqn:E; [|discriminate].
    intros Hk. destruct (lit_match_length _ _ _ _ E) as [Es Hl].
    exists (take (length l) s), s', []. rewrite length_take_le by done.
    rewrite app_nil_r. split_and!; [done | | done].
    constructor; [by rewrite <- Es | by rewrite length_take_le].
  - destruct s as [|c s]; [discriminate|].
    destruct (p c) eqn:Hp; [|discriminate]. intros Hk.
    exists [c], s, []. rewrite app_nil_r, Nat.add_1_r.
    split_and!; [done | by constructor | done].
  - intros H. apply rep_run_sound in H as (w & s' & -> & Hw & Hlo & Hhi & Hk).
    exists w, s', []. rewrite app_nil_r. split_and!; [done | by constructor | done].
  - intros H. apply IH1 in H as (w1 & s1 & c1 & -> & M1 & H).
    apply IH2 in H as (w2 & s2 & c2 & -> & M2 & H).
    exists (w1 ++ w2), s2, (c1 ++ c2).
    rewrite length_app, !Nat.add_assoc, !app_assoc in *.
    split_and!; [done | by constructor | done].
  - intros H. apply IH in H as (w & s' & c & -> & M & H).
    exists w, s', (c ++ [w]).
    replace (i + length w - i) with (length w) in H by lia.
    rewrite take_app_length, <- app_assoc in H.
    split_and!; [done | by apply M_grp | done].
  - destruct i; [|discriminate]. intros H.
    exists [], s, []. simpl. rewrite app_nil_r.
    split_and!; [done | constructor | done].
  - destruct s; [|discriminate]. intros H.
    exists [], [], []. simpl. rewrite app_nil_r, Nat.add_0_r.
    split_and!; [done | constructor | done].
Qed.

(** A match of [exec]: where it sits in the input, and that no match starts
    before it. *)
Lemma search_sound r i s m :
  search r i s = Some m ->
  exists pre w s' c,
    s = pre ++ w ++ s' /\ m = MatchResult (i + length pre) w c /\
    Matches r (i + length pre) w s' c /\
    forall j, j < length pre -> match_at r (i + j) (drop j s) = None.
Proof.
  revert i; induction s as [|a s IH]; intros i; simpl.
  - destruct (match_at r i []) as [m'|] eqn:E; [|discriminate].
    intros [= <-]. unfold match_at in E.
    apply rmatch_sound in E as (w & s' & c & Hs & M & [= <-]).
    exists [], w, s', c. simpl. rewrite Nat.add_0_r.
    replace (i + length w - i) with (length w) by lia.
    rewrite Hs, take_app_length. split_and!; auto. intros; lia.
  - destruct (match_at r i (a :: s)) as [m'|] eqn:E.
    + intros [= <-]. unfold match_at in E.
      apply rmatch_sound in E as (w & s' & c & Hs & M & [= <-]).
      exists [], w, s', c. simpl. rewrite Nat.add_0_r.
      replace (i + length w - i) with (length w) by lia.
      rewrite Hs, take_app_length. split_and!; auto. intros; lia.
    + intros H. apply IH in H as (pre & w & s' & c & -> & -> & M & Hleft).
      exists (a :: pre), w, s', c. simpl.
      replace (i + S (length pre)) with (S i + length pre) by lia.
      split_and!; auto.
      intros [|j] Hj; simpl.
      * by rewrite Nat.add_0_r.
      * replace (i + S j) with (S i + j) by lia. apply Hleft. lia.
Qed.

Lemma search_none r i s :
  search r i s = None ->
  forall j, j <= length s -> match_at r (i + j) (drop j s) = None.
Proof.
  revert i; induction s as [|a s IH]; intros i; simpl.
  - destruct (match_at r i []) eqn:E; [discriminate|].
    intros _ j Hj. replace j with 0 by lia. by rewrite Nat.add_0_r.
  - destruct (match_at r i (a :: s)) eqn:E; [discriminate|].
    intros H [|j] Hj; simpl.
    + by rewrite Nat.add_0_r.
    + replace (i + S j) with (S i + j) by lia. apply IH; [done | lia].
Qed.

Lemma exec_sound r s m :
  exec r s = Some m ->
  exists pre w s' c,
    s = pre ++ w ++ s' /\ m = MatchResult (length pre) w c /\
    Matches r (length pre) w s' c /\
    forall j, j < length pre -> match_at r j (drop j s) = None.
Proof. intros H. by apply search_sound in H. Qed.

(** A regular expression that opens with [^] matches at the start or not
    at all. *)
Lemma Matches_bol r i w s' c : Matches (Bol ·· r) i w s' c -> i = 0.
Proof.
  intros H. inversion H as [| | |? ? ? ? ? ? ? ? M1 M2| | |]; subst.
  by inversion M1.
Qed.

Lemma exec_bol_sound r s m :
  exec (Bol ·· r) s = Some m ->
  exists w s' c,
    s = w ++ s' /\ m = MatchResult 0 w c /\ Matches r 0 w s' c.
Proof.
  intros H. apply exec_sound in H as (pre & w & s' & c & -> & -> & M & _).
  pose proof (Matches_bol _ _ _ _ _ M) as Hpre.
  destruct pre; [|discriminate]. simpl in *.
  inversion M as [| | |? ? ? w1 w2 ? c1 c2 M1 M2| | |]; subst.
  inversion M1; subst. simpl in *. by exists w2, s', c2.
Qed.

(** Inversion of [Matches] along the syntax of a given regular
    expression. *)
Ltac inv_matches :=
  repeat match goal with
  | H : Matches (Cat _ _) _ _ _ _ |- _ => inversion H; clear H; subst
  | H : Matches (Grp _) _ _ _ _ |- _ => inversion H; clear H; subst
  | H : Matches (Chr _) _ _ _ _ |- _ => inversion H; clear H; subst
  | H : Matches (Rep _ _ _ _) _ _ _ _ |- _ => inversion H; clear H; subst
  | H : Matches (Lit _ _) _ _ _ _ |- _ => inversion H; clear H; subst
  | H : Matches Bol _ _ _ _ |- _ => inversion H; clear H; subst
  | H : Matches Eol _ _ _ _ |- _ => inversion H; clear H; subst
  end.

(** ** Facts on the character classes *)

Lemma bullet_not_space c : one_of "-*+" c = true -> is_space c = false.
Proof.
  unfold one_of; simpl. unfold cueq.
  rewrite !orb_true_iff, !N.eqb_eq. intros [->|[->|[->|[=]]]]; reflexivity.
Qed.

Lemma digit_not_space c : is_digit c = true -> is_space c = false.
Proof.
  unfold is_digit, is_space, cueq.
  rewrite andb_true_iff, !N.leb_le. intros [H1 H2].
  repeat (apply orb_false_intro); rewrite ?andb_false_iff, ?N.leb_gt, ?N.eqb_neq; lia.
Qed.

Lemma take_while_app_stop (p : cu -> bool) w c s :
  Forall (fun c => p c = true) w -> p c = false ->
  take_while p (w ++ c :: s) = w.
Proof.
  induction 1 as [|a w Ha _ IH]; simpl; intros Hc.
  - by rewrite Hc.
  - rewrite Ha. f_equal. by apply IH.
Qed.

(** ** The block parser *)

(** A parser whose step leaves the cursor where it is never returns. *)
Lemma parse_loop_stuck l p :
  p < length l ->
  (forall els, exists els', parse_step (Parser l p els) = Parser l p els') ->
  forall fuel els, parse_loop fuel (Parser l p els) = None.
Proof.
  intros Hp Hstep fuel; induction fuel as [|fuel IH]; intros els; simpl;
    apply Nat.ltb_lt in Hp as Hp'; rewrite Hp'; [done|].
  destruct (Hstep els) as [els' ->]. apply IH.
Qed.

(** C10 (code defect): on the document whose only line is the indented
    numbered item [  1. foo], [parseList] consumes no line: every iteration
    of the loop of [parse] pushes an empty list and leaves the cursor on
    line 0, so [parse] returns for no amount of fuel.  The same happens on
    a line that starts with [#] without being a heading, where
    [parseParagraph] consumes nothing. *)
Theorem parse_indented_number_never_returns :
  let md := u "  1. foo" in
  list_items number [md] = ([], 0) /\
  (forall els,
     parse_step (Parser [md] 0 els) = Parser [md] 0 (els ++ [list_ number []])) /\
  (forall fuel, parse fuel md = None) /\
  (forall els, parse_step (Parser [u "#foo"] 0 els) = Parser [u "#foo"] 0 els) /\
  (forall fuel, parse fuel (u "#foo") = None).
Proof.
  assert (H1 : forall els,
    parse_step (Parser [u "  1. foo"] 0 els)
    = Parser [u "  1. foo"] 0 (els ++ [list_ number []])).
  { intros els. vm_compute. reflexivity. }
  assert (H2 : forall els,
    parse_step (Parser [u "#foo"] 0 els) = Parser [u "#foo"] 0 els).
  { intros els. vm_compute. reflexivity. }
  split_and!; [by vm_compute | done | | done |].
  - intros fuel. unfold parse.
    change (new_parser (u "  1. foo")) with (Parser [u "  1. foo"] 0 []).
    rewrite parse_loop_stuck; [done | simpl; lia | eauto].
  - intros fuel. unfold parse.
    change (new_parser (u "#foo")) with (Parser [u "#foo"] 0 []).
    rewrite parse_loop_stuck; [done | simpl; lia | eauto].
Qed.

(** A greedy quantifier whose class stops at the end of [w] hands [w] to its
    continuation first. *)
Lemma rep_run_greedy_max {R} (p : cu -> bool) lo i w s
    (k : nat -> str -> option R) x :
  Forall (fun c => p c = true) w -> lo <= length w ->
  match s with [] => True | c :: _ => p c = false end ->
  k (i + length w) s = Some x ->
  rep_run true p lo None i (w ++ s) k = Some x.
Proof.
  intros Hw; revert lo i; induction Hw as [|a w Ha Hw IH]; intros lo i Hlo Hs Hk.
  - simpl in *. rewrite Nat.add_0_r in Hk. destruct lo; [|lia].
    destruct s as [|c s]; simpl; [by rewrite Hk|]. by rewrite Hs, Hk.
  - simpl. rewrite Ha. simpl.
    rewrite (IH (pred lo) (S i)); [done | simpl in Hlo; lia | done |].
    by replace (S i + length w) with (i + length (a :: w)) by (simpl; lia).
Qed.

(** A top-level item has no leading whitespace. *)
Lemma topPattern_no_indent lt line m :
  exec (topPattern lt) line = Some m -> take_while is_space line = [].
Proof.
  destruct lt; unfold topPattern; intros H;
    apply exec_bol_sound in H as (w & s' & c & -> & -> & M);
    unfold plus, lit in M; inv_matches.
  - simpl. by rewrite bullet_not_space.
  - match goal with H : Forall _ ?w, H' : 1 <= length ?w |- context [?w ++ _] =>
      destruct w as [|d w]; [simpl in H'; lia|]; inversion H; subst
    end.
    simpl. by rewrite digit_not_space.
Qed.

(** The first group of the nested pattern is all the leading whitespace of
    the line, and a bullet sign follows it. *)
Lemma re_nested_indent line m :
  exec re_nested line = Some m ->
  group 1 m = take_while is_space line /\ 1 <= length (group 1 m) /\
  exists b, line !! length (group 1 m) = Some b /\ one_of "-*+" b = true.
Proof.
  unfold re_nested; intros H.
  apply exec_bol_sound in H as (w & s' & c & -> & -> & M).
  unfold plus in M; inv_matches. unfold group; simpl.
  rewrite <- !app_assoc; simpl.
  match goal with
  | Hb : one_of _ ?b = true |- context [take_while _ (?w ++ ?b :: _)] =>
      rewrite (take_while_app_stop is_space w b) by (auto using bullet_not_space);
      split_and!; [done | done | exists b; split; [|done]];
      by apply list_lookup_middle
  end.
Qed.

(** C2: the nesting level that [parseList] gives to an item.  An item
    comes from a line without leading whitespace at level 0, or from a
    bullet line whose leading whitespace has width [w >= 1] at level
    [min (floor ((w + 1) / 2)) 3]; every width occurs; and the widths
    0, 1, 2, 3, 4, 5, 6, 8 give the levels 0, 1, 1, 2, 2, 3, 3, 3 through
    [parse]. *)
Theorem parseList_nesting_level :
  (forall lt line rest it items n,
     list_items lt (line :: rest) = (it :: items, n) ->
     let w := length (take_while is_space line) in
     (w = 0 -> item_level it = 0) /\
     (1 <= w ->
        (exists b, line !! w = Some b /\ one_of "-*+" b = true) /\
        item_level it = Nat.min ((w + 1) / 2) 3)) /\
  (forall lt ws,
     Forall (fun c => is_space c = true) ws -> 1 <= length ws ->
     list_items lt [ws ++ u "- x"]
     = ([Item (u "x") (Nat.min ((length ws + 1) / 2) 3)], 1)) /\
  (forall lt, list_items lt [u "- x"; u "* y"; u "+ z"]
     = match lt with
       | bullet => ([Item (u "x") 0; Item (u "y") 0; Item (u "z") 0], 3)
       | number => ([], 0)
       end) /\
  List.map (fun w => parse 1 (replicate w 32%N ++ u "- x")) [0; 1; 2; 3; 4; 5; 6; 8]
  = List.map (fun l => Some [list_ bullet [Item (u "x") l]]) [0; 1; 1; 2; 2; 3; 3; 3].
Proof.
  split_and!.
  - intros lt line rest it items n; simpl.
    destruct (exec (topPattern lt) line) as [topMatch|] eqn:Etop.
    + destruct (list_items lt rest) as [items' n'].
      intros [= <- <- <-]; simpl.
      rewrite (topPattern_no_indent _ _ _ Etop); simpl. split; [done | lia].
    + destruct (exec re_nested line) as [m|] eqn:Enest.
      * destruct (list_items lt rest) as [items' n'].
        intros [= <- <- <-]; simpl.
        destruct (re_nested_indent _ _ Enest) as (Eg & Hlen & b & Hb1 & Hb2).
        rewrite <- Eg. split; [lia | intros _; eauto].
      * by destruct (is_blank line).
  - intros lt ws Hws Hlen.
    assert (Etop : exec (topPattern lt) (ws ++ u "- x") = None).
    { destruct (exec (topPattern lt) (ws ++ u "- x")) eqn:E; [|done].
      apply topPattern_no_indent in E.
      destruct Hws as [|c ws Hc Hws]; [simpl in Hlen; lia|].
      simpl in E. by rewrite Hc in E. }
    assert (Enest : exec re_nested (ws ++ u "- x")
                    = Some (MatchResult 0 (ws ++ u "- x") [ws; u "x"])).
    { destruct ws as [|c0 ws0] eqn:E; [simpl in Hlen; lia|]. rewrite <- E in *.
      unfold exec. assert (Es : exists a s, ws ++ u "- x" = a :: s)
        by (rewrite E; eauto).
      destruct Es as (a & s & Es).
      enough (M : match_at re_nested 0 (ws ++ u "- x")
                  = Some (MatchResult 0 (ws ++ u "- x") [ws; u "x"])).
      { rewrite Es in *. simpl. by rewrite M. }
      unfold match_at, re_nested, plus, lit. cbn [rmatch].
      erewrite rep_run_greedy_max; [reflexivity | done | done | reflexivity |].
      simpl. replace (length ws - 0) with (length ws) by lia.
      rewrite take_app_length.
      replace (S (length ws) - length ws) with 1 by lia.
      rewrite take_ge by (rewrite length_app; simpl; lia). done. }
    simpl. rewrite Etop, Enest. by unfold group; simpl.
  - by intros [].
  - by vm_compute.
Qed.

(** [parseList_nesting_level] on a bullet line indented by three spaces. *)
Lemma parseList_nesting_level_witness :
  list_items bullet [u "   - deep"] = ([Item (u "deep") 2], 1) /\
  item_level (Item (u "deep") 2) = Nat.min ((3 + 1) / 2) 3.
Proof.
  assert (H : list_items bullet [u "   - deep"] = ([Item (u "deep") 2], 1))
    by (vm_compute; reflexivity).
  split; [exact H|].
  destruct (proj1 parseList_nesting_level bullet (u "   - deep") [] _ _ _ H)
    as [_ Hw].
  apply Hw. vm_compute. lia.
Defined.

(** Completeness of the matcher: when the regular expression can consume a
    word after which the continuation succeeds, the matcher succeeds (on
    this word or on one of higher priority). *)
Lemma rep_run_complete {R} g (p : cu -> bool) lo hi i w s'
    (k : nat -> str -> option R) :
  Forall (fun c => p c = true) w -> lo <= length w ->
  (forall h, hi = Some h -> length w <= h) ->
  is_Some (k (i + length w) s') ->
  is_Some (rep_run g p lo hi i (w ++ s') k).
Proof.
  intros Hw; revert lo hi i; induction Hw as [|a w Ha Hw IH];
    intros lo hi i Hlo Hhi Hk.
  - simpl in *. rewrite Nat.add_0_r in Hk. destruct lo; [|lia].
    destruct Hk as [x Hk].
    destruct s' as [|b s']; simpl; rewrite Hk.
    + by destruct g.
    + destruct g; [|done]. by destruct (if _ && _ then _ else _).
  - simpl. rewrite Ha.
    assert (Hok : hi_ok hi = true).
    { destruct hi as [[|h]|]; try done. specialize (Hhi 0 eq_refl). simpl in Hhi. lia. }
    rewrite Hok. simpl.
    destruct (IH (pred lo) (hi_pred hi) (S i)) as [x Hx].
    + simpl in Hlo. lia.
    + intros h Hh. destruct hi as [h'|]; [|done]. injection Hh as <-.
      specialize (Hhi h' eq_refl). simpl in Hhi. lia.
    + by replace (S i + length w) with (i + length (a :: w)) by (simpl; lia).
    + rewrite Hx. destruct g; [done|]. by destruct (match lo with O => _ | _ => _ end).
Qed.

Lemma rmatch_complete {R} r i w s' c :
  Matches r i w s' c ->
  forall caps (k : nat -> str -> list str -> option R),
    is_Some (k (i + length w) s' (caps ++ c)) ->
    is_Some (rmatch r i (w ++ s') caps k).
Proof.
  induction 1 as [ci l i w s' Hl Hlen|p i a s' Hp|g lo hi p i w s' Hw Hlo Hhi
                 |r1 r2 i w1 w2 s' c1 c2 M1 IH1 M2 IH2|r i w s' c M IH|s'|i];
    intros caps k Hk; simpl.
  - rewrite Hl. by rewrite <- Hlen, <- (app_nil_r caps).
  - rewrite Hp. by rewrite <- Nat.add_1_r, <- (app_nil_r caps).
  - apply rep_run_complete; auto. by rewrite <- (app_nil_r caps).
  - rewrite <- app_assoc. apply IH1. apply IH2.
    by rewrite <- Nat.add_assoc, <- length_app, <- app_assoc.
  - apply IH.
    replace (i + length w - i) with (length w) by lia.
    by rewrite take_app_length, <- app_assoc.
  - by rewrite <- (app_nil_r caps).
  - by rewrite <- (Nat.add_0_r i), <- (app_nil_r caps).
Qed.

Lemma search_complete r i j s :
  j <= length s -> is_Some (match_at r (i + j) (drop j s)) ->
  is_Some (search r i s).
Proof.
  revert i j; induction s as [|a s IH]; intros i j Hj Hm; simpl.
  - simpl in Hj. replace j with 0 in Hm by lia.
    rewrite Nat.add_0_r in Hm. simpl in Hm. by destruct Hm as [m ->].
  - destruct (match_at r i (a :: s)) eqn:E; [done|].
    destruct j as [|j].
    + rewrite Nat.add_0_r in Hm. simpl in Hm. rewrite E in Hm. by destruct Hm.
    + apply (IH (S i) j); [simpl in Hj; lia|].
      by replace (S i + j) with (i + S j) by lia.
Qed.

Lemma exec_complete r pre w s' c :
  Matches r (length pre) w s' c -> is_Some (exec r (pre ++ w ++ s')).
Proof.
  intros M. apply (search_complete r 0 (length pre)).
  - rewrite length_app. lia.
  - rewrite drop_app_length. unfold match_at.
    by apply (rmatch_complete _ _ _ _ _ M).
Qed.

Lemma test_complete r w s' c : Matches r 0 w s' c -> test r (w ++ s') = true.
Proof.
  intros M. unfold test.
  destruct (exec_complete r [] w s' c M) as [m Hm].
  simpl in Hm. by rewrite Hm.
Qed.

(** The list tests of [parseParagraph] are those of [parse] without the
    leading whitespace, so they hold only where the latter hold. *)
Lemma para_bullet_bullet line :
  test re_para_bullet line = true -> test re_bullet line = true.
Proof.
  unfold test at 1. destruct (exec re_para_bullet line) as [m|] eqn:E; [|done].
  intros _. unfold re_para_bullet in E.
  apply exec_bol_sound in E as (w & s' & c & -> & -> & M).
  apply (test_complete _ _ _ ([] ++ [] ++ c)). unfold re_bullet.
  change w with ([] ++ [] ++ w).
  apply M_cat; [constructor|]. apply M_cat; [|done].
  constructor; [constructor | simpl; lia | done].
Qed.

Lemma para_number_number line :
  test re_para_number line = true -> test re_number line = true.
Proof.
  unfold test at 1. destruct (exec re_para_number line) as [m|] eqn:E; [|done].
  intros _. unfold re_para_number in E.
  apply exec_bol_sound in E as (w & s' & c & -> & -> & M).
  apply (test_complete _ _ _ ([] ++ [] ++ c)). unfold re_number.
  change w with ([] ++ [] ++ w).
  apply M_cat; [constructor|]. apply M_cat; [|done].
  constructor; [constructor | simpl; lia | done].
Qed.

(** What one step of [parse] pushes: at most one element, and a table only
    under the test of the table branch. *)
Lemma parse_line_pushes ps line :
  lines (parse_line ps line) = lines ps /\
  exists new, elements (parse_line ps line) = elements ps ++ new /\
    length new <= 1 /\
    (forall rows, In (table rows) new -> table_start ps line = true).
Proof.
  unfold parse_line, parseCodeBlock, parseTable, parseList, parseBlockquote,
    parseParagraph, push, advance.
  repeat case_match; simpl; split; try done;
    try (eexists; split; [reflexivity|]; split; [simpl; lia|];
         intros rows [Hin|[]]; (discriminate Hin || done));
    try (exists []; rewrite app_nil_r; split; [done|]; split; [simpl; lia|];
         by intros rows []).
Qed.

(** The test of the table branch, read on the lines. *)
Lemma table_start_spec ps line :
  table_start ps line = true <->
  includes (u "|") line = true /\
  exists next, lines ps !! (pos ps + 1) = Some next /\
               test re_separator next = true.
Proof.
  unfold table_start. rewrite !andb_true_iff, Nat.ltb_lt, nth_lookup. split.
  - intros [[Hp Hlt] Hsep]. split; [done|].
    destruct (lookup_lt_is_Some_2 _ _ Hlt) as [next Hnext].
    rewrite Hnext in Hsep. eauto.
  - intros [Hp (next & Hnext & Hsep)]. rewrite Hnext. split_and!; try done.
    by apply lookup_lt_Some in Hnext.
Qed.

Lemma parse_step_tables ps :
  tables_justified ps ->
  lines (parse_step ps) = lines ps /\ tables_justified (parse_step ps).
Proof.
  intros Hinv. unfold parse_step.
  destruct (lines ps !! pos ps) as [line|] eqn:Hline; [|done].
  destruct (parse_line_pushes ps line) as (Hl & new & Hnew & _ & Htab).
  split; [done|]. intros rows. rewrite Hnew, Hl, in_app_iff. intros [Hin|Hin].
  - by apply (Hinv rows).
  - apply Htab, table_start_spec in Hin as (Hp & next & Hnext & Hsep).
    by exists (pos ps), line, next.
Qed.

Lemma parse_loop_tables fuel ps ps' :
  parse_loop fuel ps = Some ps' -> tables_justified ps ->
  lines ps' = lines ps /\ tables_justified ps'.
Proof.
  revert ps; induction fuel as [|fuel IH]; intros ps; simpl;
    destruct (Nat.ltb _ _); try discriminate; try (by intros [= <-]).
  intros H Hinv. destruct (parse_step_tables ps Hinv) as [Hl Hinv'].
  destruct (IH _ H Hinv') as [Hl' Hinv'']. split; [congruence | done].
Qed.

(** The loop of [parseParagraph] on a line that does not break it. *)
Lemma paraLines_of_cons line rest :
  para_break line = false ->
  paraLines_of (line :: rest) = line :: paraLines_of rest.
Proof. intros H; simpl. by rewrite H. Qed.

Lemma paraLines_of_spec rest :
  let plines := paraLines_of rest in
  plines = take (length plines) rest /\
  Forall (fun l => para_break l = false) plines /\
  (forall l, rest !! length plines = Some l -> para_break l = true).
Proof.
  induction rest as [|line rest IH]; simpl.
  - split_and!; [done | constructor | by intros l].
  - destruct (para_break line) eqn:Hb; simpl.
    + split_and!; [done | constructor | by intros l [= <-]].
    + destruct IH as (IH1 & IH2 & IH3).
      split_and!; [by f_equal | by constructor | done].
Qed.

(** C3, counterexample: the one-line document [- a | b] holds a cell
    separator and no separator row follows it (it is the last line), yet
    the line is parsed as a list item, not as a paragraph.  Likewise the
    last line of [a|b], [-|-], [c|d] holds a cell separator that no
    separator row follows, and it is a row of the table. *)
Lemma pipe_line_parsed_as_list_item :
  let md := u "- a | b" in
  includes (u "|") md = true /\
  parse 1 md = Some [list_ bullet [Item (u "a | b") 0]] /\
  parse 1 (u "a|b" ++ [10%N] ++ u "-|-" ++ [10%N] ++ u "c|d")
  = Some [table [[u "a"; u "b"]; [u "c"; u "d"]]].
Proof. by vm_compute. Qed.

(** C3, amended: a step of [parse] pushes a table only when the line at the
    cursor holds a cell separator and the next line has the shape of a
    separator row, and so does every table that [parse] returns.  When the
    line at the cursor holds a cell separator and no separator row follows
    it, the step pushes no table; if moreover none of the other tests of
    [parse] holds of the line and it does not start with [#], the step
    pushes a paragraph that begins with this line. *)
Theorem table_needs_separator_row :
  (forall ps line rows,
     lines ps !! pos ps = Some line ->
     In (table rows) (drop (length (elements ps)) (elements (parse_step ps))) ->
     includes (u "|") line = true /\
     exists next, lines ps !! (pos ps + 1) = Some next /\
                  test re_separator next = true) /\
  (forall fuel md els rows,
     parse fuel md = Some els -> In (table rows) els ->
     exists p line next,
       split 10%N md !! p = Some line /\ includes (u "|") line = true /\
       split 10%N md !! (p + 1) = Some next /\ test re_separator next = true) /\
  (forall ps line,
     lines ps !! pos ps = Some line ->
     includes (u "|") line = true ->
     (forall next, lines ps !! (pos ps + 1) = Some next ->
                   test re_separator next = false) ->
     (forall rows,
        ~ In (table rows) (drop (length (elements ps)) (elements (parse_step ps)))) /\
     (is_blank line = false -> startsWith fence line = false ->
      test re_pagebreak line = false -> exec re_heading line = None ->
      startsWith (u "#") line = false -> exec re_image line = None ->
      exec imgPattern line = None -> test re_bullet line = false ->
      test re_number line = false -> startsWith (u ">") line = false ->
      test re_hr line = false ->
      exists more,
        parse_step ps
        = Parser (lines ps) (pos ps + S (length more))
            (elements ps ++ [paragraph (join (u " ") (line :: more))]))).
Proof.
  split_and!.
  - intros ps line rows Hline. unfold parse_step. rewrite Hline.
    destruct (parse_line_pushes ps line) as (_ & new & -> & _ & Htab).
    rewrite drop_app_length. intros Hin. by apply table_start_spec, (Htab rows).
  - intros fuel md els rows. unfold parse.
    destruct (parse_loop fuel (new_parser md)) as [ps'|] eqn:E; [|discriminate].
    intros [= <-] Hin.
    destruct (parse_loop_tables _ _ _ E) as [Hl Hinv]; [by intros ? []|].
    destruct (Hinv rows Hin) as (p & line & next & H1 & H2 & H3 & H4).
    rewrite Hl in H1, H3. by exists p, line, next.
  - intros ps line Hline Hpipe Hnext.
    assert (Hts : table_start ps line = false).
    { destruct (table_start ps line) eqn:E; [|done].
      apply table_start_spec in E as (_ & next & Hn & Hsep).
      by rewrite (Hnext _ Hn) in Hsep. }
    split.
    + intros rows. unfold parse_step. rewrite Hline.
      destruct (parse_line_pushes ps line) as (_ & new & -> & _ & Htab).
      rewrite drop_app_length. intros Hin. apply Htab in Hin. congruence.
    + intros Hblank Hfence Hpb Hhead Hhash Himg Htag Hbul Hnum Hquote Hhr.
      unfold parse_step. rewrite Hline. unfold parse_line.
      rewrite Hblank, Hfence, Hpb, Hhead, Himg, Htag, Hts, Hbul, Hnum, Hquote, Hhr.
      assert (Hbreak : para_break line = false).
      { unfold para_break. rewrite Hblank, Hhash, Hfence, Hquote. simpl.
        destruct (test re_para_bullet line) eqn:E1;
          [by rewrite (para_bullet_bullet _ E1) in Hbul|].
        destruct (test re_para_number line) eqn:E2;
          [by rewrite (para_number_number _ E2) in Hnum|]. done. }
      unfold parseParagraph, rest. rewrite (drop_S _ _ _ Hline).
      rewrite (paraLines_of_cons _ _ Hbreak). simpl.
      by exists (paraLines_of (drop (S (pos ps)) (lines ps))).
Qed.

(** [table_needs_separator_row] on a pipe line that a plain line follows. *)
Lemma table_needs_separator_row_witness :
  let ps := Parser [u "a | b"; u "c"] 0 [] in
  exists more,
    parse_step ps
    = Parser (lines ps) (pos ps + S (length more))
        (elements ps ++ [paragraph (join (u " ") (u "a | b" :: more))]).
Proof.
  intros ps.
  refine (proj2 (proj2 (proj2 table_needs_separator_row) ps (u "a | b")
                   eq_refl eq_refl _) _ _ _ _ _ _ _ _ _ _ _);
    try reflexivity.
  intros next. intros [= <-]. reflexivity.
Defined.

(** C8, counterexample: the loop of [parseParagraph] does not stop at a
    horizontal rule.  On the lines [foo] and [---] the parser returns one
    paragraph made of both, although [---] at the cursor is a horizontal
    rule. *)
Lemma paragraph_runs_over_horizontal_rule :
  parse 1 (u "foo" ++ [10%N] ++ u "---") = Some [paragraph (u "foo ---")] /\
  parse 1 (u "---") = Some [hr].
Proof. by vm_compute. Qed.

(** C8, amended: [parseParagraph] accumulates the lines from the cursor up
    to the first line that is blank, starts with [#], starts with the
    fence, is an unindented bullet or numbered item, or starts with [>]
    (or up to the end of the document), and pushes them joined with a
    single space, if there is one at least.  Image, table, pagebreak,
    horizontal-rule and indented list lines do not end a paragraph. *)
Theorem parseParagraph_accumulates ps :
  let plines := paraLines_of (rest ps) in
  let ps' := parseParagraph ps in
  lines ps' = lines ps /\
  pos ps' = pos ps + length plines /\
  plines = take (length plines) (drop (pos ps) (lines ps)) /\
  Forall (fun l => para_break l = false) plines /\
  (forall l, lines ps !! pos ps' = Some l -> para_break l = true) /\
  elements ps'
  = elements ps ++
    match plines with
    | [] => []
    | _ :: _ => [paragraph (join (u " ") plines)]
    end /\
  (forall a b l, join (u " ") (a :: b :: l) = a ++ u " " ++ join (u " ") (b :: l)) /\
  (forall line,
     para_break line
     = (is_blank line || startsWith (u "#") line || startsWith (u "```") line
        || test re_para_bullet line || test re_para_number line
        || startsWith (u ">") line)) /\
  paraLines_of
    [u "foo"; u "<pagebreak>"; u "![a](b.png)"; u "<img src='c.png'>";
     u "  - x"; u "  1. y"; u "| a | b |"; u "|---|---|"; u "---"; u ""; u "bar"]
  = [u "foo"; u "<pagebreak>"; u "![a](b.png)"; u "<img src='c.png'>";
     u "  - x"; u "  1. y"; u "| a | b |"; u "|---|---|"; u "---"].
Proof.
  intros plines ps'.
  destruct (paraLines_of_spec (rest ps)) as (H1 & H2 & H3). fold plines in H1, H2, H3.
  assert (Hps' : ps' = if Nat.ltb 0 (length plines)
                       then push (paragraph (join (u " ") plines))
                              (advance (length plines) ps)
                       else advance (length plines) ps) by done.
  split_and!; try done.
  - rewrite Hps'. by destruct (Nat.ltb _ _).
  - rewrite Hps'. by destruct (Nat.ltb _ _).
  - intros l. replace (pos ps') with (pos ps + length plines)
      by (rewrite Hps'; by destruct (Nat.ltb _ _)).
    intros Hl. apply H3. unfold rest. by rewrite lookup_drop.
  - rewrite Hps'. destruct plines; simpl; [by rewrite app_nil_r | done].
Qed.

(** [parseParagraph_accumulates] on two lines that a blank line ends. *)
Lemma parseParagraph_accumulates_witness :
  let ps := Parser [u "one"; u "two"; u ""; u "three"] 0 [] in
  lines ps !! pos (parseParagraph ps) = Some (u "") /\
  para_break (u "") = true /\
  elements (parseParagraph ps) = [paragraph (u "one two")].
Proof.
  intros ps.
  pose proof (parseParagraph_accumulates ps) as (_ & _ & _ & _ & H & _).
  assert (Hl : lines ps !! pos (parseParagraph ps) = Some (u ""))
    by (vm_compute; reflexivity).
  split_and!; [exact Hl | exact (H _ Hl) | vm_compute; reflexivity].
Defined.

(** ** The inline markup resolver *)

Lemma Matches_min_len r i w s' c : Matches r i w s' c -> min_len r <= length w.
Proof.
  induction 1; simpl; rewrite ?length_app; lia.
Qed.

Lemma exec_bounds r s m :
  exec r s = Some m ->
  m_index m + length (m_0 m) <= length s /\ min_len r <= length (m_0 m).
Proof.
  intros H. apply exec_sound in H as (pre & w & s' & c & -> & -> & M & _).
  simpl. rewrite !length_app. split; [lia|]. by eapply Matches_min_len.
Qed.

Lemma find_earliest_fold remaining :
  find_earliest remaining
  = fold_left (improve_with remaining) (inline_tests remaining)
      (earliest_init remaining).
Proof. reflexivity. Qed.

(** The loop of the tests keeps a candidate unless a later test has a match
    that starts strictly before it. *)
Lemma improve_fold s ts :
  Forall (fun t => forall m, e_index (t.2 m) = m_index m) ts ->
  forall e0 e, e = fold_left (improve_with s) ts e0 ->
    (e = e0 /\
     forall n t m, ts !! n = Some t -> exec t.1 s = Some m ->
       e_index e0 <= m_index m) \/
    (exists n t m,
       ts !! n = Some t /\ exec t.1 s = Some m /\ e = t.2 m /\
       m_index m < e_index e0 /\
       forall n' t' m', ts !! n' = Some t' -> exec t'.1 s = Some m' ->
         m_index m <= m_index m' /\ (n' < n -> m_index m < m_index m')).
Proof.
  induction 1 as [|t ts Ht Hts IH]; intros e0 e ->; simpl.
  - left. split; [done|]. by intros n t m.
  - change (improve_with s e0 t) with (improve e0 (exec t.1 s) t.2).
    unfold improve.
    destruct (exec t.1 s) as [m|] eqn:Em.
    + destruct (Nat.ltb (m_index m) (e_index e0)) eqn:Hlt.
      * apply Nat.ltb_lt in Hlt.
        destruct (IH (t.2 m) _ eq_refl) as [[He Hall]|(n & t2 & m2 & Hn & Em2 & He & Hlt2 & Hall)].
        -- right. exists 0, t, m. split_and!; try done.
           intros [|n'] t' m' Hn' Em'; simpl in Hn'.
           ++ injection Hn' as <-. rewrite Em in Em'. injection Em' as <-. lia.
           ++ specialize (Hall _ _ _ Hn' Em'). rewrite Ht in Hall. lia.
        -- right. exists (S n), t2, m2. rewrite Ht in Hlt2.
           split_and!; try done; [lia|].
           intros [|n'] t' m' Hn' Em'; simpl in Hn'.
           ++ injection Hn' as <-. rewrite Em in Em'. injection Em' as <-. lia.
           ++ specialize (Hall _ _ _ Hn' Em'). lia.
      * apply Nat.ltb_ge in Hlt.
        destruct (IH e0 _ eq_refl) as [[He Hall]|(n & t2 & m2 & Hn & Em2 & He & Hlt2 & Hall)].
        -- left. split; [done|].
           intros [|n'] t' m' Hn' Em'; simpl in Hn'.
           ++ injection Hn' as <-. rewrite Em in Em'. by injection Em' as <-.
           ++ by eapply Hall.
        -- right. exists (S n), t2, m2. split_and!; try done.
           intros [|n'] t' m' Hn' Em'; simpl in Hn'.
           ++ injection Hn' as <-. rewrite Em in Em'. injection Em' as <-. lia.
           ++ specialize (Hall _ _ _ Hn' Em'). lia.
    + destruct (IH e0 _ eq_refl) as [[He Hall]|(n & t2 & m2 & Hn & Em2 & He & Hlt2 & Hall)].
      * left. split; [done|].
        intros [|n'] t' m' Hn' Em'; simpl in Hn'.
        -- injection Hn' as <-. congruence.
        -- by eapply Hall.
      * right. exists (S n), t2, m2. split_and!; try done.
        intros [|n'] t' m' Hn' Em'; simpl in Hn'.
        -- injection Hn' as <-. congruence.
        -- specialize (Hall _ _ _ Hn' Em'). lia.
Qed.


Lemma inline_tests_fields remaining :
  Forall (fun t => forall m,
            e_index (t.2 m) = m_index m /\ e_length (t.2 m) = length (m_0 m) /\
            e_before (t.2 m) = Some (take (m_index m) remaining))
    (inline_tests remaining).
Proof. repeat constructor. Qed.

Lemma inline_tests_min_len remaining :
  Forall (fun t => 1 <= min_len t.1) (inline_tests remaining).
Proof. repeat constructor; simpl; lia. Qed.

Lemma lit_match_startsWith l s :
  lit_match false l s = None <-> startsWith l s = false.
Proof.
  revert s; induction l as [|a l IH]; intros [|b s]; simpl; try done.
  unfold cueq. destruct (N.eqb a b); simpl; [apply IH | done].
Qed.

Lemma lit_match_Some ci l s s' :
  lit_match ci l s = Some s' -> s' = drop (length l) s.
Proof.
  revert s; induction l as [|a l IH]; intros [|b s]; simpl; try done.
  - by intros [= <-].
  - by intros [= <-].
  - destruct (if ci then _ else _); [apply IH | done].
Qed.

(** A lazy quantifier hands to its continuation the shortest run that the
    continuation accepts. *)
Lemma rep_run_lazy_min {R} (p : cu -> bool) lo hi i s (k : nat -> str -> option R) x :
  rep_run false p lo hi i s k = Some x ->
  exists n, n <= length s /\ lo <= n /\
    Forall (fun c => p c = true) (take n s) /\
    k (i + n) (drop n s) = Some x /\
    forall j, lo <= j -> j < n -> k (i + j) (drop j s) = None.
Proof.
  revert lo hi i; induction s as [|c s IH]; intros lo hi i; simpl.
  - destruct lo; [|done]. intros H.
    exists 0. simpl. rewrite Nat.add_0_r.
    split_and!; [done | done | constructor | by destruct (k i []) | intros; lia].
  - set (stop := match lo with O => k i (c :: s) | S _ => None end).
    destruct stop as [y|] eqn:Hstop.
    + intros [= ->]. subst stop. destruct lo; [|done].
      exists 0. simpl. rewrite Nat.add_0_r.
      split_and!; [lia | done | constructor | done | intros; lia].
    + destruct (p c) eqn:Hp; [|done]. destruct (hi_ok hi); [|done]. simpl.
      intros H. apply IH in H as (n & Hn & Hlo & Hall & Hk & Hmin).
      exists (S n). simpl.
      replace (i + S n) with (S i + n) by lia.
      split_and!; [lia | lia | by constructor | done |].
      intros [|j] Hj1 Hj2; simpl.
      * rewrite Nat.add_0_r. subst stop. by destruct lo; [|lia].
      * replace (i + S j) with (S i + j) by lia. apply Hmin; lia.
Qed.

Lemma search_at r i s m :
  search r i s = Some m ->
  exists j, j <= length s /\ m_index m = i + j /\
    match_at r (i + j) (drop j s) = Some m /\
    forall j', j' < j -> match_at r (i + j') (drop j' s) = None.
Proof.
  revert i; induction s as [|a s IH]; intros i; simpl.
  - destruct (match_at r i []) as [m'|] eqn:E; [|done]. intros [= <-].
    exists 0. simpl. rewrite Nat.add_0_r. split_and!; [done | | done | intros; lia].
    unfold match_at in E. by apply rmatch_sound in E as (? & ? & ? & _ & _ & [= <-]).
  - destruct (match_at r i (a :: s)) as [m'|] eqn:E.
    + intros [= <-]. exists 0. simpl. rewrite Nat.add_0_r.
      split_and!; [lia | | done | intros; lia].
      unfold match_at in E. by apply rmatch_sound in E as (? & ? & ? & _ & _ & [= <-]).
    + intros H. apply IH in H as (j & Hj & Hi & Hm & Hleft).
      exists (S j). simpl. replace (i + S j) with (S i + j) by lia.
      split_and!; [lia | done | done |].
      intros [|j'] Hj'; simpl; [by rewrite Nat.add_0_r|].
      replace (i + S j') with (S i + j') by lia. apply Hleft. lia.
Qed.

Lemma delimited_shortest d remaining m :
  exec (delimited d) remaining = Some m ->
  exists n,
    let after := drop (m_index m + length (u d)) remaining in
    startsWith (u d) (drop (m_index m) remaining) = true /\
    group 1 m = take n after /\ 1 <= n /\ n <= length after /\
    Forall (fun c => is_dot c = true) (take n after) /\
    startsWith (u d) (drop n after) = true /\
    length (m_0 m) = length (u d) + n + length (u d) /\
    forall j, 1 <= j -> j < n -> startsWith (u d) (drop j after) = false.
Proof.
  intros H. apply search_at in H as (j & Hj & Hi & Hm & _). simpl in Hi. subst j.
  unfold match_at, delimited, lit, plus_lazy in Hm. cbn [rmatch] in Hm.
  destruct (lit_match false (u d) (drop (m_index m) remaining)) as [s2|] eqn:E1;
    [|done].
  apply rep_run_lazy_min in Hm as (n & Hn & Hlo & Hall & Hk & Hmin).
  pose proof (lit_match_Some _ _ _ _ E1) as Hs2. rewrite drop_drop in Hs2.
  destruct (lit_match false (u d) (drop n s2)) as [s3|] eqn:E3; [|done].
  injection Hk as <-. exists n. simpl. unfold group. simpl.
  rewrite <- Hs2.
  replace (m_index m + length (u d) + n - (m_index m + length (u d))) with n by lia.
  split_and!; try done.
  - destruct (startsWith (u d) (drop (m_index m) remaining)) eqn:E; [done|].
    apply lit_match_startsWith in E. congruence.
  - destruct (startsWith (u d) (drop n s2)) eqn:E; [done|].
    apply lit_match_startsWith in E. congruence.
  - apply lit_match_length in E1 as [_ L1]. apply lit_match_length in E3 as [_ L3].
    clear Hmin Hall. subst s2.
    rewrite length_drop in L1, L3, Hn. rewrite length_drop in L3.
    rewrite length_take, length_drop. lia.
  - intros j Hj1 Hj2. specialize (Hmin j Hj1 Hj2). simpl in Hmin.
    apply lit_match_startsWith.
    by destruct (lit_match false (u d) (drop j s2)).
Qed.

(** The choice of [earliest] when some test matches: the match of the first
    test, in the order of the source, among those whose match starts
    first. *)
Lemma find_earliest_some remaining :
  (exists n t, inline_tests remaining !! n = Some t /\
               is_Some (exec t.1 remaining)) ->
  exists n t m,
    inline_tests remaining !! n = Some t /\ exec t.1 remaining = Some m /\
    find_earliest remaining = t.2 m /\
    m_index m < length remaining /\ 1 <= length (m_0 m) /\
    forall n' t' m',
      inline_tests remaining !! n' = Some t' -> exec t'.1 remaining = Some m' ->
      m_index m <= m_index m' /\ (n' < n -> m_index m < m_index m').
Proof.
  intros (n0 & t0 & Hn0 & [m0 Hm0]).
  pose proof (inline_tests_fields remaining) as Hf.
  pose proof (inline_tests_min_len remaining) as Hl.
  destruct (improve_fold remaining (inline_tests remaining)) with
    (e0 := earliest_init remaining) (e := find_earliest remaining)
    as [[He Hall]|(n & t & m & Hn & Em & He & Hlt & Hall)].
  - eapply Forall_impl; [exact Hf|]. intros t Ht m. apply Ht.
  - apply find_earliest_fold.
  - specialize (Hall _ _ _ Hn0 Hm0). simpl in Hall.
    apply exec_bounds in Hm0 as [Hb1 Hb2].
    rewrite Forall_lookup in Hl. specialize (Hl _ _ Hn0). simpl in Hl. lia.
  - exists n, t, m. simpl in Hlt. split_and!; try done.
    apply exec_bounds in Em as [_ Hb2].
    rewrite Forall_lookup in Hl. specialize (Hl _ _ Hn). simpl in Hl. lia.
Qed.

Lemma find_earliest_none remaining :
  (forall n t, inline_tests remaining !! n = Some t ->
               exec t.1 remaining = None) ->
  find_earliest remaining = earliest_init remaining.
Proof.
  intros Hnone.
  pose proof (inline_tests_fields remaining) as Hf.
  destruct (improve_fold remaining (inline_tests remaining)) with
    (e0 := earliest_init remaining) (e := find_earliest remaining)
    as [[He Hall]|(n & t & m & Hn & Em & _)].
  - eapply Forall_impl; [exact Hf|]. intros t Ht m. apply Ht.
  - apply find_earliest_fold.
  - done.
  - by rewrite (Hnone _ _ Hn) in Em.
Qed.

Lemma find_earliest_cases remaining :
  find_earliest remaining = earliest_init remaining \/
  exists n t m,
    inline_tests remaining !! n = Some t /\ exec t.1 remaining = Some m /\
    find_earliest remaining = t.2 m /\ 1 <= length (m_0 m).
Proof.
  destruct (decide (Exists (fun t => is_Some (exec t.1 remaining))
                      (inline_tests remaining))) as [He|Hne].
  - right. apply Exists_exists in He as (t & Ht & Hs).
    apply list_elem_of_lookup in Ht as [n Hn].
    destruct (find_earliest_some remaining) as (n' & t' & m & H1 & H2 & H3 & _ & H5 & _);
      [by exists n, t|]. by exists n', t', m.
  - left. apply find_earliest_none. intros n t Hn.
    destruct (exec t.1 remaining) eqn:E; [|done]. exfalso. apply Hne.
    apply Exists_exists. exists t. split; [by eapply list_elem_of_lookup_2|].
    by rewrite E.
Qed.

Lemma inline_step_progress env inputDir remaining pushed remaining' :
  inline_step env inputDir remaining = (pushed, Some remaining') ->
  length remaining' < length remaining.
Proof.
  unfold inline_step.
  destruct (Nat.ltb _ _) eqn:Hlt; [|done]. apply Nat.ltb_lt in Hlt.
  intros [= _ <-]. rewrite length_drop.
  destruct (find_earliest_cases remaining) as [He|(n & t & m & Hn & Em & He & Hlen)].
  - rewrite He in Hlt. simpl in Hlt. lia.
  - pose proof (inline_tests_fields remaining) as Hf.
    rewrite Forall_lookup in Hf. destruct (Hf _ _ Hn m) as (_ & Hl & _).
    rewrite He, Hl. lia.
Qed.

Lemma inline_loop_total env inputDir fuel remaining runs :
  length remaining <= fuel ->
  is_Some (inline_loop fuel env inputDir remaining runs).
Proof.
  revert remaining runs; induction fuel as [|fuel IH]; intros remaining runs Hf;
    simpl.
  - destruct remaining; [done | simpl in Hf; lia].
  - destruct (Nat.ltb 0 (length remaining)); [|done].
    destruct (inline_step env inputDir remaining) as [pushed [remaining'|]] eqn:E;
      [|done].
    apply IH. apply inline_step_progress in E. lia.
Qed.

(** C1: one iteration of [parseInlineMarkup].  When some pattern matches
    in the remaining text, the run pushed is that of the match that starts
    first among the leftmost matches of the break tag, the image tag and
    the seven text patterns; among matches that start at the same index
    the test that the source runs first wins (the tags before the text
    patterns, these in the order of their array); no pattern has a match
    that starts before it; the text before it is pushed as a plain run and
    the loop goes on after the match.  When no pattern matches, the whole
    remaining text is one plain run.  A text pattern closes at the first
    closing delimiter (shortest match).  The loop ends on every text. *)
Theorem earliest_match_wins env inputDir remaining :
  ((exists n t, inline_tests remaining !! n = Some t /\
                is_Some (exec t.1 remaining)) ->
   exists n t m,
     inline_tests remaining !! n = Some t /\ exec t.1 remaining = Some m /\
     find_earliest remaining = t.2 m /\
     (forall n' t' m',
        inline_tests remaining !! n' = Some t' ->
        exec t'.1 remaining = Some m' ->
        m_index m <= m_index m' /\ (n' < n -> m_index m < m_index m')) /\
     (forall n' t' j,
        inline_tests remaining !! n' = Some t' -> j < m_index m ->
        match_at t'.1 j (drop j remaining) = None) /\
     inline_step env inputDir remaining
     = (match take (m_index m) remaining with
        | [] => []
        | b => [plainRun b]
        end ++ [match_run env inputDir (t.2 m)],
        Some (drop (m_index m + length (m_0 m)) remaining))) /\
  ((forall n t, inline_tests remaining !! n = Some t ->
                exec t.1 remaining = None) ->
   inline_step env inputDir remaining
   = (match remaining with [] => [] | _ => [plainRun remaining] end, None)) /\
  (forall d m,
     exec (delimited d) remaining = Some m ->
     exists n,
       let after := drop (m_index m + length (u d)) remaining in
       startsWith (u d) (drop (m_index m) remaining) = true /\
       group 1 m = take n after /\ 1 <= n /\ n <= length after /\
       Forall (fun c => is_dot c = true) (take n after) /\
       startsWith (u d) (drop n after) = true /\
       length (m_0 m) = length (u d) + n + length (u d) /\
       forall j, 1 <= j -> j < n -> startsWith (u d) (drop j after) = false) /\
  List.map fst (inline_tests remaining)
  = [brPattern; imgPattern; delimited "***"; delimited "**"; delimited "*";
     delimited "__"; delimited "_"; delimited "~~"; delimited "`"] /\
  List.map p_style patterns
  = [Style true true false false; Style true false false false;
     Style false true false false; Style true false false false;
     Style false true false false; Style false false true false;
     Style false false false true] /\
  is_Some (inline_loop (length remaining) env inputDir remaining []) /\
  exec (delimited "**") (u "***a***") = Some (MatchResult 0 (u "***a**") [u "*a"]) /\
  parseInlineMarkup env (u "***a***") inputDir
  = [TextRun (u "a") (Some 22%Z) (Style true true false false) None].
Proof.
  split_and!; try done.
  - intros Hsome.
    destruct (find_earliest_some remaining Hsome)
      as (n & t & m & Hn & Em & He & Hlt & Hlen & Hmin).
    exists n, t, m. split_and!; try done.
    + intros n' t' j Hn' Hj.
      destruct (exec t'.1 remaining) as [m'|] eqn:Em'.
      * destruct (Hmin _ _ _ Hn' Em') as [Hle _].
        apply search_at in Em' as (j' & _ & Hi & _ & Hleft). simpl in Hi.
        apply (Hleft j). lia.
      * apply (search_none _ 0 _ Em' j). lia.
    + unfold inline_step. rewrite He.
      pose proof (inline_tests_fields remaining) as Hf.
      rewrite Forall_lookup in Hf. destruct (Hf _ _ Hn m) as (Hi & Hl & Hb).
      rewrite Hi, Hl. apply Nat.ltb_lt in Hlt. rewrite Hlt.
      unfold before_runs. rewrite Hb. by destruct (take _ _).
  - intros Hnone. unfold inline_step.
    rewrite (find_earliest_none _ Hnone). simpl.
    rewrite Nat.ltb_irrefl. by destruct remaining.
  - intros d m. apply delimited_shortest.
  - by apply inline_loop_total.
Qed.

(** [earliest_match_wins] on a text whose first match is a triple
    emphasis. *)
Lemma earliest_match_wins_witness :
  let env := NodeEnv (fun d s => d ++ s) (fun _ => false) (fun _ => None)
               (fun _ => []) in
  let remaining := u "a ***b*** c" in
  exists n t m,
    inline_tests remaining !! n = Some t /\ exec t.1 remaining = Some m /\
    find_earliest remaining = t.2 m /\
    (forall n' t' m',
       inline_tests remaining !! n' = Some t' ->
       exec t'.1 remaining = Some m' ->
       m_index m <= m_index m' /\ (n' < n -> m_index m < m_index m')) /\
    (forall n' t' j,
       inline_tests remaining !! n' = Some t' -> j < m_index m ->
       match_at t'.1 j (drop j remaining) = None) /\
    inline_step env None remaining
    = (match take (m_index m) remaining with
       | [] => []
       | b => [plainRun b]
       end ++ [match_run env None (t.2 m)],
       Some (drop (m_index m + length (m_0 m)) remaining)).
Proof.
  intros env remaining.
  apply (proj1 (earliest_match_wins env None remaining)).
  exists 2, (delimited "***",
             text_candidate remaining (Pattern (delimited "***")
                                         (Style true true false false))).
  split; [reflexivity | eexists; vm_compute; reflexivity].
Defined.

(** ** The Mermaid renderer and the prerender pass *)

Lemma prerender_loop_inv svc theme l st st' :
  prerender_loop svc theme l st = Some st' ->
  prerender_inv svc theme st ->
  prerender_inv svc theme st' /\
  (forall src, is_Some (renderedMap st' !! src) <->
               is_Some (renderedMap st !! src) \/ src ∈ (content_of <$> l)).
Proof.
  revert st; induction l as [|el l IH]; intros st; simpl.
  - intros [= <-] Hinv. split; [done|]. intros src. rewrite elem_of_nil. tauto.
  - destruct (renderedMap st !! content_of el) as [v|] eqn:Hget.
    + intros H Hinv. destruct (IH _ H Hinv) as [Hinv' Hdom]. split; [done|].
      intros src. rewrite Hdom, elem_of_cons.
      split; [tauto|]. intros [?|[->|?]]; [tauto | left; by rewrite Hget | tauto].
    + destruct (renderMermaidToPng _) as [|imageData|] eqn:Hr; try done.
      intros H (Hnd & Hmem & Hreq).
      destruct (IH _ H) as [Hinv' Hdom].
      * split_and!; simpl.
        -- rewrite fmap_app. simpl. apply NoDup_app. split_and!; [done | | apply NoDup_singleton].
           intros src Hin ->%list_elem_of_singleton.
           apply Hmem in Hin. rewrite Hget in Hin. by destruct Hin.
        -- intros src. rewrite fmap_app, elem_of_app, Hmem. simpl.
           rewrite list_elem_of_singleton, lookup_insert_is_Some. 
           destruct (decide (content_of el = src)) as [->|Hne]; intuition congruence.
        -- intros n rq. rewrite lookup_app_Some. intros [Hn|[Hlen Hn]].
           ++ destruct (Hreq _ _ Hn) as (Hb & v & Hv1 & Hv2).
              split; [done|]. exists v. split; [done|].
              rewrite lookup_insert_ne; [done|]. intros Heq.
              rewrite <- Heq, Hget in Hv2. done.
           ++ apply list_lookup_singleton_Some in Hn as [Hn <-]. simpl.
              split; [done|]. exists imageData.
              replace n with (length (requests st)) by lia.
              by rewrite lookup_insert_eq.
      * split; [done|]. intros src. rewrite Hdom. simpl.
        rewrite lookup_insert_is_Some, elem_of_cons.
        destruct (decide (content_of el = src)) as [->|Hne]; intuition congruence.
Qed.

(** A promise that is settled stays as it is. *)
Lemma handle_settled r ev v :
  r_promise r = resolved v -> r_promise (handle r ev) = resolved v.
Proof.
  intros Hr. destruct ev; simpl; unfold resolve; simpl;
    repeat case_match; simpl; congruence.
Qed.

Lemma fold_handle_settled events r v :
  r_promise r = resolved v ->
  r_promise (fold_left handle events r) = resolved v.
Proof.
  revert r; induction events as [|ev events IH]; intros r Hr; simpl; [done|].
  by apply IH, handle_settled.
Qed.

Lemma handle_not_rejected r ev :
  r_promise r <> rejected -> r_promise (handle r ev) <> rejected.
Proof.
  intros Hr. destruct ev; simpl; unfold resolve; simpl;
    repeat case_match; simpl; congruence.
Qed.

Lemma fold_handle_not_rejected events r :
  r_promise r <> rejected -> r_promise (fold_left handle events r) <> rejected.
Proof.
  revert r; induction events as [|ev events IH]; intros r Hr; simpl; [done|].
  by apply IH, handle_not_rejected.
Qed.

Lemma settle_not_rejected events :
  settle events <> rejected.
Proof. by apply fold_handle_not_rejected. Qed.


(** The loop of the prerender pass returns when every request settles. *)
Lemma prerender_loop_returns svc theme l st :
  (forall n src, renderMermaidToPng (svc n) src theme <> pending) ->
  is_Some (prerender_loop svc theme l st).
Proof.
  intros Hsettle. revert st; induction l as [|el l IH]; intros st; simpl; [done|].
  destruct (renderedMap st !! content_of el); [apply IH|].
  destruct (renderMermaidToPng _) eqn:E; [| apply IH |].
  - by apply Hsettle in E.
  - by apply settle_not_rejected in E.
Qed.

Lemma prerender_inv_init svc theme : prerender_inv svc theme (PrerenderState ∅ []).
Proof.
  split_and!; simpl.
  - constructor.
  - intros src. rewrite elem_of_nil, lookup_empty. split; [done | by intros [? ?]].
  - by intros n rq.
Qed.

(** C5: the prerender pass issues one request per distinct diagram source.
    When it returns, the sources of the requests issued are free of
    duplicates and are the contents of the Mermaid blocks of the document,
    so there are as many requests as distinct sources; the keys of the map
    are these same sources, as they stand in the document, while the body
    sent is the source with the theme directive put first; and under each
    source the map holds what the one request for it resolved to (bytes or
    [null]).  The pass returns whenever every request settles. *)
Theorem prerender_one_request_per_source svc els theme :
  let sources := content_of <$> List.filter is_mermaid els in
  (forall st,
     prerenderMermaidDiagrams svc els theme = Some st ->
     NoDup (i_source <$> requests st) /\
     (forall src, src ∈ (i_source <$> requests st) <-> src ∈ sources) /\
     length (requests st) = size (list_to_set sources : gset (list N)) /\
     (forall src, is_Some (renderedMap st !! src) <-> src ∈ sources) /\
     (forall n rq,
        requests st !! n = Some rq ->
        i_body rq = postData (i_source rq) theme /\
        exists v, renderMermaidToPng (svc n) (i_source rq) theme = resolved v /\
                  renderedMap st !! i_source rq = Some v)) /\
  ((forall n src, renderMermaidToPng (svc n) src theme <> pending) ->
   is_Some (prerenderMermaidDiagrams svc els theme)).
Proof.
  intros sources. split.
  - intros st H. unfold prerenderMermaidDiagrams in H.
    destruct (prerender_loop_inv _ _ _ _ _ H (prerender_inv_init svc theme))
      as [(Hnd & Hmem & Hreq) Hdom].
    assert (Hkeys : forall src, is_Some (renderedMap st !! src) <-> src ∈ sources).
    { intros src. rewrite Hdom. simpl. rewrite lookup_empty.
      split; [intros [[? ?]|?]; done | by right]. }
    assert (Hsrc : forall src, src ∈ (i_source <$> requests st) <-> src ∈ sources).
    { intros src. by rewrite Hmem. }
    split_and!; try done.
    rewrite <- (length_fmap i_source), <- (size_list_to_set (C := gset (list N))) by done.
    f_equal. apply set_eq. intros src. by rewrite !elem_of_list_to_set.
  - intros Hsettle. by apply prerender_loop_returns.
Qed.

(** [prerender_one_request_per_source] on a document in which two diagrams
    occur twice each; the service renders the first request and refuses the
    second. *)
Lemma prerender_one_request_per_source_witness :
  let svc : service :=
    fun n body =>
      match n with
      | O => [ev_response 200; ev_data [1; 2]%N; ev_data [3]%N; ev_end]
      | S _ => [ev_response 503]
      end in
  let els :=
    [code (u "mermaid") (u "A"); paragraph (u "p"); code (u "js") (u "A");
     code (u "mermaid") (u "B"); code (u "mermaid") (u "A");
     code (u "mermaid") (u "B")] in
  exists st,
    prerenderMermaidDiagrams svc els (u "default") = Some st /\
    requests st
    = [Issued (u "A") (u "%%{init: {'theme': 'default'}}%%" ++ [10%N] ++ u "A");
       Issued (u "B") (u "%%{init: {'theme': 'default'}}%%" ++ [10%N] ++ u "B")] /\
    renderedMap st !! u "A" = Some (Some [1; 2; 3]%N) /\
    renderedMap st !! u "B" = Some None /\
    length (requests st)
    = size (list_to_set (content_of <$> List.filter is_mermaid els) : gset (list N)).
Proof.
  intros svc els.
  destruct (proj2 (prerender_one_request_per_source svc els (u "default")))
    as [st Hst].
  { intros [|n] body; vm_compute; discriminate. }
  exists st. split; [exact Hst|].
  pose proof (proj1 (prerender_one_request_per_source svc els (u "default")) st Hst)
    as (_ & _ & Hlen & _ & _).
  assert (Hrun : prerenderMermaidDiagrams svc els (u "default")
                 = Some (PrerenderState
                           (<[u "B" := None]> (<[u "A" := Some [1; 2; 3]%N]> ∅))
                           [Issued (u "A") (postData (u "A") (u "default"));
                            Issued (u "B") (postData (u "B") (u "default"))])).
  { vm_compute. reflexivity. }
  rewrite Hrun in Hst. injection Hst as <-. cbn [requests renderedMap] in *.
  split_and!.
  - reflexivity.
  - rewrite lookup_insert_ne by (vm_compute; discriminate).
    by rewrite lookup_insert_eq.
  - by rewrite lookup_insert_eq.
  - exact Hlen.
Defined.

(** ** The assembly pass *)

Lemma convert_from_app env inputDir m st l1 l2 :
  convert_from env inputDir m st (l1 ++ l2)
  = convert_from env inputDir m st l1
    ++ convert_from env inputDir m (state_after env inputDir m st l1) l2.
Proof.
  revert st; induction l1 as [|el l1 IH]; intros st; simpl; [done|].
  destruct (convert_element env inputDir m st el) as [blocks st'] eqn:E.
  simpl. by rewrite IH, <- app_assoc.
Qed.



Lemma convert_element_indent env inputDir m st el :
  currentSectionIndent (convert_element env inputDir m st el).2
  = match el with
    | heading level _ => if Nat.eqb level 1 then 0%Z else 360%Z
    | _ => currentSectionIndent st
    end.
Proof. destruct el; simpl; repeat case_match; done. Qed.

Lemma last_heading_level_app l1 l2 :
  last_heading_level (l1 ++ l2)
  = match last_heading_level l2 with
    | Some level => Some level
    | None => last_heading_level l1
    end.
Proof.
  induction l1 as [|el l1 IH]; simpl; [by destruct (last_heading_level l2)|].
  rewrite IH. by destruct (last_heading_level l2).
Qed.

Lemma state_after_snoc env inputDir m st els el :
  state_after env inputDir m st (els ++ [el])
  = (convert_element env inputDir m (state_after env inputDir m st els) el).2.
Proof. unfold state_after. by rewrite fold_left_app. Qed.

Lemma state_after_indent env inputDir m n els :
  currentSectionIndent (state_after env inputDir m (ConvertState n 0) els)
  = active_indent els.
Proof.
  induction els as [|el els IH] using rev_ind; [done|].
  rewrite state_after_snoc, convert_element_indent, IH.
  unfold active_indent. rewrite last_heading_level_app. simpl.
  destruct el; try done. by destruct level as [|[|?]].
Qed.

Lemma convert_element_annotated env inputDir m st el b :
  In b (convert_element env inputDir m st el).1 ->
  annotated (currentSectionIndent st) el b.
Proof.
  destruct el; simpl.
  - intros [<-|[]]. done.
  - intros [<-|[]]. done.
  - intros [<-|[]]. unfold convert_image, indented.
    destruct (existsSync _ _); [destruct (readFileSync _ _)|]; done.
  - intros [<-|[]]. done.
  - rewrite in_map_iff. intros (it & <- & Hin).
    unfold convert_item.
    destruct lt; destruct (item_level it) eqn:E; simpl;
      exists it; rewrite E; eauto.
  - intros [<-|[]]. done.
  - intros [<-|[]]. done.
  - intros [<-|[]]. done.
  - unfold annotated. destruct (eq_str language (u "mermaid")) eqn:E.
    + destruct (m !! content) as [[imageData|]|]; intros [<-|[]]; try done.
      unfold mermaid_image. by destruct (scale_image _ _ _).
    + simpl. rewrite in_map_iff. by intros (l & <- & _).
Qed.

Lemma numberConfigs_from_state env inputDir m st els :
  numberConfigs_from (numberListRef st) (currentSectionIndent st) els
  = configs_via_state env inputDir m st els.
Proof.
  revert st; induction els as [|el els IH]; intros st; simpl; [done|].
  destruct el as [|level text|alt src w h|rows|[|] items|text| |text|language content];
    simpl; try (by rewrite <- IH).
  destruct (eq_str language (u "mermaid")); [|by rewrite <- IH].
  destruct (m !! content) as [[?|]|]; by rewrite <- IH.
Qed.

(** C4, counterexample: under a level-2 heading the structural indent is
    360, and the paragraph pushed for a pagebreak carries no indent. *)
Lemma pagebreak_carries_no_indent :
  let env := NodeEnv (fun d s => d ++ s) (fun _ => false) (fun _ => None)
               (fun _ => []) in
  let els := [heading 2 (u "h"); pagebreak] in
  currentSectionIndent (state_after env (u "dir") ∅ (ConvertState 0 0) (take 1 els))
  = 360%Z /\
  exists h p,
    convertElements env (u "dir") ∅ els = [h; Paragraph p] /\
    pg_indent_left p = None /\ pg_indent_hanging p = None /\
    pg_numbering p = None /\ pg_children p = [PageBreakRun].
Proof. split; [reflexivity|]. by eexists _, _. Qed.

(** C4, amended: the structural indent of [convertElements] changes at
    headings only, to 0 at a level-1 heading and to 360 at any other one,
    so at each position it is the value that the last heading before it
    gives.  The blocks pushed for an element are laid out from the value
    at its position: paragraphs, images, Mermaid diagrams, horizontal
    rules and tables at that value, code lines 360 further, block quotes
    720 further, list items 720 further plus 360 per level, top-level
    numbered items through a numbering reference that names that value;
    the block of a pagebreak carries no indent.  The loop of [main] that
    declares the numberings follows the same state. *)
Theorem indent_follows_headings env inputDir m :
  (forall st el,
     currentSectionIndent (convert_element env inputDir m st el).2
     = match el with
       | heading level _ => if Nat.eqb level 1 then 0%Z else 360%Z
       | _ => currentSectionIndent st
       end) /\
  (forall before,
     currentSectionIndent (state_after env inputDir m (ConvertState 0 0) before)
     = active_indent before) /\
  (forall before el after,
     convertElements env inputDir m (before ++ el :: after)
     = convertElements env inputDir m before
       ++ (convert_element env inputDir m
             (state_after env inputDir m (ConvertState 0 0) before) el).1
       ++ convert_from env inputDir m
            (state_after env inputDir m (ConvertState 0 0) (before ++ [el]))
            after) /\
  (forall before el b,
     In b (convert_element env inputDir m
             (state_after env inputDir m (ConvertState 0 0) before) el).1 ->
     annotated (active_indent before) el b) /\
  (forall els,
     numberConfigs els
     = configs_via_state env inputDir m (ConvertState 0 0) els).
Proof.
  split_and!.
  - apply convert_element_indent.
  - apply state_after_indent.
  - intros before el after. unfold convertElements.
    rewrite convert_from_app. f_equal. simpl.
    destruct (convert_element _ _ _ _ el) as [blocks st'] eqn:E.
    by rewrite state_after_snoc, E.
  - intros before el b Hin.
    rewrite <- (state_after_indent env inputDir m 0 before).
    by apply (convert_element_annotated env inputDir m).
  - intros els. apply (numberConfigs_from_state env inputDir m (ConvertState 0 0)).
Qed.

(** [indent_follows_headings] on a block quote under a level-3 heading. *)
Lemma indent_follows_headings_witness :
  let env := NodeEnv (fun d s => d ++ s) (fun _ => false) (fun _ => None)
               (fun _ => []) in
  let before := [heading 1 (u "a"); heading 3 (u "b"); paragraph (u "p")] in
  let b := Paragraph (Para None None (Some 1080%Z) None None None
                        (Some (Border "left" 24 "CCCCCC")) false
                        [TextRun (u "q") (Some 22%Z)
                           (Style false true false false) None]) in
  active_indent before = 360%Z /\
  annotated (active_indent before) (blockquote (u "q")) b.
Proof.
  intros env before b. split; [reflexivity|].
  apply (proj1 (proj2 (proj2 (proj2 (indent_follows_headings env (u "dir") ∅))))
           before (blockquote (u "q")) b).
  vm_compute. by left.
Defined.

(** ** The scaling of a Mermaid image *)

Local Open Scope Q_scope.

(** The model of the doubles agrees with the primitive binary64 numbers of
    Rocq on the constants and on sample images. *)
Lemma binary64_cross_check :
  float_value (9026 / 1440 * 96)%float = num_value (maxWidth 0) /\
  float_value (8666 / 1440 * 96)%float = num_value (maxWidth 360) /\
  float_value (600 * 0x1.3333333333333p-1)%float
  = num_value (fmul (of_Z 600) (rnd (6 # 10))) /\
  float_value (1 / 3)%float = num_value (fdiv (of_Z 1) (of_Z 3)) /\
  List.map float_value
    [scaled_width_float 1200 800; scaled_width_float 18052 15;
     scaled_width_float 602 1; scaled_width_float 5000 3000;
     scaled_width_float 4294967295 1; scaled_width_float 1 4294967295;
     scaled_width_float 700 601]
  = List.map num_value
      [scaled_width_model 1200 800; scaled_width_model 18052 15;
       scaled_width_model 602 1; scaled_width_model 5000 3000;
       scaled_width_model 4294967295 1; scaled_width_model 1 4294967295;
       scaled_width_model 700 601].
Proof. split_and!; vm_compute; reflexivity. Qed.

Lemma pow2_pos e : 0 < pow2 e.
Proof. apply Qpower_0_lt. reflexivity. Qed.

Lemma pow2_le n m : (n <= m)%Z -> pow2 n <= pow2 m.
Proof. intros H. apply Qpower_le_compat_l; [done | discriminate]. Qed.

Lemma pow2_inject n : (0 <= n)%Z -> pow2 n == inject_Z (2 ^ n).
Proof. intros H. unfold pow2. by rewrite Zpower_Qpower. Qed.

Lemma floor_log2_lower q : 0 < q -> pow2 (floor_log2 q) <= q.
Proof.
  intros Hq. unfold floor_log2.
  destruct (Qle_bool _ q) eqn:E; [by apply Qle_bool_iff|].
  destruct q as [a b]. cbn [Qnum Qden] in *.
  assert (Ha : (0 < a)%Z).
  { unfold Qlt in Hq. simpl in Hq. lia. }
  pose proof (Z.log2_spec a Ha) as [Ha1 _].
  pose proof (Z.log2_spec (Zpos b) ltac:(lia)) as [_ Hb2].
  set (la := Z.log2 a) in *. set (lb := Z.log2 (Z.pos b)) in *.
  assert (Hla : (0 <= la)%Z) by apply Z.log2_nonneg.
  assert (Hlb : (0 <= lb)%Z) by apply Z.log2_nonneg.
  replace (la - lb - 1)%Z with (la + - (lb + 1))%Z by lia.
  unfold pow2. rewrite Qpower_plus by discriminate. rewrite Qpower_opp.
  fold (pow2 la). fold (pow2 (lb + 1)).
  rewrite !pow2_inject by lia.
  apply Qle_shift_div_r.
  - change 0 with (inject_Z 0). rewrite <- Zlt_Qlt. lia.
  - unfold Qle, Qmult, inject_Z. cbn [Qnum Qden].
    rewrite Pos.mul_1_r, Z.mul_1_r. unfold Z.succ in Hb2.
    assert (0 < 2 ^ la)%Z by (apply Z.pow_pos_nonneg; lia).
    nia.
Qed.

Lemma round_half_even_le t N :
  t <= inject_Z N -> (round_half_even t <= N)%Z.
Proof.
  intros Ht. unfold round_half_even.
  pose proof (Qfloor_le t) as Hf. pose proof (Qlt_floor t) as Hf'.
  assert (Hle : (Qfloor t <= N)%Z).
  { rewrite Zle_Qle. lra. }
  destruct (Qcompare_spec (t - inject_Z (Qfloor t)) (1 # 2)) as [He|Hl|Hg].
  - destruct (Z.even _); [done|].
    assert (inject_Z (Qfloor t) < inject_Z N) by lra.
    rewrite <- Zlt_Qlt in H. lia.
  - done.
  - assert (inject_Z (Qfloor t) < inject_Z N) by lra.
    rewrite <- Zlt_Qlt in H. lia.
Qed.

Lemma round_half_even_nonneg t : 0 <= t -> (0 <= round_half_even t)%Z.
Proof.
  intros Ht. unfold round_half_even.
  assert (Hf : (0 <= Qfloor t)%Z).
  { change 0%Z with (Qfloor 0). by apply Qfloor_resp_le. }
  destruct (Qcompare _ _); [destruct (Z.even _) | |]; lia.
Qed.

Lemma rnd_le q n :
  0 <= q -> q <= inject_Z n -> (n < 2 ^ 53)%Z ->
  exists r, rnd q = Fin r /\ 0 <= r /\ r <= inject_Z n.
Proof.
  intros Hq Hqn Hn. unfold rnd.
  destruct (Qnum q) eqn:Enum.
  - exists 0. split_and!; [done | lra | lra].
  - assert (Hpos : 0 < q).
    { unfold Qlt. simpl. rewrite Enum. lia. }
    cbv zeta.
    set (fl := floor_log2 q).
    assert (Hn53 : inject_Z n < pow2 53).
    { rewrite pow2_inject by lia. by rewrite <- Zlt_Qlt. }
    assert (Hfl : (fl <= 52)%Z).
    { destruct (Z.le_gt_cases fl 52) as [|Hgt]; [done|]. exfalso.
      pose proof (floor_log2_lower q Hpos) as H1.
      pose proof (pow2_le 53 fl ltac:(lia)) as H2. fold fl in H1. lra. }
    set (e := Z.max (fl - 52) (-1074)).
    assert (He : (e <= 0)%Z) by lia.
    set (K := (2 ^ (- e))%Z).
    assert (HK : (0 < K)%Z) by (apply Z.pow_pos_nonneg; lia).
    assert (HKq : 0 < inject_Z K).
    { change 0 with (inject_Z 0). by rewrite <- Zlt_Qlt. }
    assert (Hpe : pow2 e == / inject_Z K).
    { replace e with (- - e)%Z at 1 by lia. unfold pow2. rewrite Qpower_opp.
      fold (pow2 (- e)). by rewrite pow2_inject by lia. }
    set (t := q / pow2 e).
    assert (Ht : t == q * inject_Z K).
    { unfold t. rewrite Hpe. field. lra. }
    set (m := round_half_even t).
    assert (Hm1 : (m <= n * K)%Z).
    { apply round_half_even_le. rewrite Ht, inject_Z_mult.
      apply Qmult_le_compat_r; lra. }
    assert (Hm0 : (0 <= m)%Z).
    { apply round_half_even_nonneg. rewrite Ht. apply Qmult_le_0_compat; lra. }
    set (r := Qred (inject_Z m * pow2 e)).
    assert (Hr : r == inject_Z m / inject_Z K).
    { unfold r. by rewrite Qred_correct, Hpe. }
    assert (Hr1 : r <= inject_Z n).
    { rewrite Hr. apply Qle_shift_div_r; [done|].
      by rewrite <- inject_Z_mult, <- Zle_Qle. }
    assert (Hr0 : 0 <= r).
    { rewrite Hr. apply Qle_shift_div_l; [done|].
      rewrite Qmult_0_l. change 0 with (inject_Z 0). by rewrite <- Zle_Qle. }
    assert (Hov : Qle_bool (pow2 1024) r = false).
    { destruct (Qle_bool (pow2 1024) r) eqn:E; [|done].
      apply Qle_bool_iff in E. exfalso.
      pose proof (pow2_le 53 1024 ltac:(lia)). lra. }
    rewrite Hov. by exists r.
  - exfalso. unfold Qle in Hq. simpl in Hq. rewrite Enum in Hq. lia.
Qed.

Lemma maxWidth_value indent :
  indent = 0%Z \/ indent = 360%Z ->
  exists mw, maxWidth indent = Fin mw /\
    inject_Z (if Z.eqb indent 0 then 601 else 577) < mw /\
    mw < inject_Z (if Z.eqb indent 0 then 602 else 578).
Proof.
  intros [-> | ->]; eexists; (split; [vm_compute; reflexivity|]); split; reflexivity.
Qed.

Lemma is_zero_inject w : is_zero (inject_Z w) = Z.eqb w 0.
Proof.
  unfold is_zero, Qeq_bool, inject_Z. simpl. by rewrite Z.mul_1_r.
Qed.

(** The quotient of a positive double by a pixel count. *)
Lemma fdiv_bound a w c :
  0 < a -> a <= inject_Z c -> (c < 2 ^ 53)%Z -> (0 <= w)%Z ->
  (w = 0%Z /\ fdiv (Fin a) (of_Z w) = Inf) \/
  (exists s, fdiv (Fin a) (of_Z w) = Fin s /\ 0 <= s /\
             (a <= inject_Z w -> s <= 1)).
Proof.
  intros Ha Hac Hc Hw. unfold fdiv, of_Z. rewrite is_zero_inject.
  destruct (Z.eqb_spec w 0) as [->|Hw0].
  - left. split; [done|].
    destruct (is_zero a) eqn:E; [|done].
    apply Qeq_bool_iff in E. lra.
  - right.
    assert (Hwq : 1 <= inject_Z w).
    { change 1 with (inject_Z 1). rewrite <- Zle_Qle. lia. }
    assert (Hq0 : 0 <= a / inject_Z w).
    { apply Qle_shift_div_l; lra. }
    assert (Hqc : a / inject_Z w <= inject_Z c).
    { apply Qle_shift_div_r; [lra|].
      assert (0 <= inject_Z c) by lra. nra. }
    destruct (rnd_le _ _ Hq0 Hqc Hc) as (s & Hs & Hs0 & _).
    exists s. split_and!; [done | done |].
    intros Haw.
    assert (Hq1 : a / inject_Z w <= inject_Z 1).
    { apply Qle_shift_div_r; [lra|]. change (inject_Z 1) with 1. lra. }
    destruct (rnd_le _ 1 Hq0 Hq1 ltac:(lia)) as (s' & Hs' & _ & Hle).
    rewrite Hs in Hs'. injection Hs' as ->. done.
Qed.

Lemma fround_fmul_le w s :
  (0 <= w < 2 ^ 53)%Z -> 0 <= s -> s <= 1 ->
  exists w', fround (fmul (of_Z w) (Fin s)) = of_Z w' /\ (0 <= w' <= w)%Z.
Proof.
  intros [Hw0 Hw] Hs0 Hs1. unfold fmul, of_Z.
  assert (Hwq : 0 <= inject_Z w).
  { change 0 with (inject_Z 0). rewrite <- Zle_Qle. lia. }
  assert (Hq0 : 0 <= inject_Z w * s) by (apply Qmult_le_0_compat; lra).
  assert (Hq1 : inject_Z w * s <= inject_Z w) by nra.
  destruct (rnd_le _ _ Hq0 Hq1 Hw) as (r & -> & Hr0 & Hr1). simpl.
  exists (Qfloor (r + (1 # 2))). split; [done|].
  pose proof (Qfloor_le (r + (1 # 2))) as Hf.
  split.
  - change 0%Z with (Qfloor 0). apply Qfloor_resp_le. lra.
  - assert (inject_Z (Qfloor (r + (1 # 2))) < inject_Z (w + 1)).
    { rewrite inject_Z_plus. change (inject_Z 1) with 1. lra. }
    rewrite <- Zlt_Qlt in H. lia.
Qed.


Lemma scale_factor_le_1 indent w h :
  indent = 0%Z \/ indent = 360%Z -> (0 <= w)%Z -> (0 <= h)%Z ->
  fgt (of_Z w) (maxWidth indent) || fgt (of_Z h) maxHeight = true ->
  exists s,
    fmin (fdiv (maxWidth indent) (of_Z w)) (fdiv maxHeight (of_Z h)) = Fin s /\
    0 <= s /\ s <= 1.
Proof.
  intros Hi Hw Hh Hc.
  destruct (maxWidth_value indent Hi) as (mw & Emw & Hlo & Hhi).
  rewrite Emw in *.
  assert (Hmw602 : mw <= inject_Z 602).
  { destruct Hi as [-> | ->]; simpl in Hhi.
    - lra.
    - assert (inject_Z 578 <= inject_Z 602) by (rewrite <- Zle_Qle; lia). lra. }
  assert (Hmw0 : 0 < mw).
  { assert (0 <= inject_Z (if Z.eqb indent 0 then 601 else 577)).
    { change 0 with (inject_Z 0). rewrite <- Zle_Qle. destruct (Z.eqb indent 0); lia. }
    lra. }
  assert (HW : fgt (of_Z w) (Fin mw) = true -> mw <= inject_Z w).
  { unfold fgt, of_Z. rewrite negb_true_iff. intros E.
    destruct (Qlt_le_dec (inject_Z w) mw) as [Hlt|]; [|done].
    apply Qlt_le_weak, Qle_bool_iff in Hlt. congruence. }
  assert (HH : fgt (of_Z h) maxHeight = true -> inject_Z 600 <= inject_Z h).
  { unfold maxHeight, fgt, of_Z. rewrite negb_true_iff. intros E.
    destruct (Qlt_le_dec (inject_Z h) (inject_Z 600)) as [Hlt|]; [|done].
    apply Qlt_le_weak, Qle_bool_iff in Hlt. congruence. }
  assert (H600 : 0 < inject_Z 600) by reflexivity.
  destruct (fdiv_bound mw w 602 Hmw0 Hmw602 ltac:(lia) Hw)
    as [[-> Ew]|(sw & Ew & Hsw0 & Hsw1)];
  destruct (fdiv_bound (inject_Z 600) h 600 H600 ltac:(apply Qle_refl) ltac:(lia) Hh)
    as [[-> Eh]|(sh & Eh & Hsh0 & Hsh1)];
  change maxHeight with (Fin (inject_Z 600)) in *; rewrite ?Ew, ?Eh; simpl.
  - exfalso. apply orb_true_iff in Hc as [Hc|Hc]; [apply HW in Hc | apply HH in Hc].
    + change (inject_Z 0) with 0 in Hc. lra.
    + change (inject_Z 0) with 0 in Hc. lra.
  - exists sh. split; [done|]. split; [done|].
    apply orb_true_iff in Hc as [Hc|Hc]; [apply HW in Hc | apply HH in Hc].
    + change (inject_Z 0) with 0 in Hc. lra.
    + by apply Hsh1.
  - exists sw. split; [done|]. split; [done|].
    apply orb_true_iff in Hc as [Hc|Hc]; [apply HW in Hc | apply HH in Hc].
    + by apply Hsw1.
    + change (inject_Z 0) with 0 in Hc. lra.
  - destruct (Qle_bool sw sh) eqn:E.
    + exists sw. split; [done|]. split; [done|].
      apply Qle_bool_iff in E.
      apply orb_true_iff in Hc as [Hc|Hc]; [apply HW in Hc | apply HH in Hc].
      * by apply Hsw1.
      * specialize (Hsh1 Hc). lra.
    + exists sh. split; [done|]. split; [done|].
      assert (sh <= sw).
      { destruct (Qlt_le_dec sh sw) as [|Hle]; [lra|].
        apply Qle_bool_iff in Hle. congruence. }
      apply orb_true_iff in Hc as [Hc|Hc]; [apply HW in Hc | apply HH in Hc].
      * specialize (Hsw1 Hc). lra.
      * by apply Hsh1.
Qed.

(** The scaled dimensions are integers within the original ones. *)
Lemma scale_image_le indent w h :
  indent = 0%Z \/ indent = 360%Z ->
  (0 <= w < 2 ^ 53)%Z -> (0 <= h < 2 ^ 53)%Z ->
  exists w' h',
    scale_image indent (of_Z w) (of_Z h) = (of_Z w', of_Z h') /\
    (0 <= w' <= w)%Z /\ (0 <= h' <= h)%Z.
Proof.
  intros Hi Hw Hh. unfold scale_image.
  destruct (fgt (of_Z w) (maxWidth indent) || fgt (of_Z h) maxHeight) eqn:Hc.
  - destruct (scale_factor_le_1 indent w h Hi ltac:(lia) ltac:(lia) Hc)
      as (s & -> & Hs0 & Hs1).
    destruct (fround_fmul_le w s Hw Hs0 Hs1) as (w' & -> & Hw').
    destruct (fround_fmul_le h s Hh Hs0 Hs1) as (h' & -> & Hh').
    by exists w', h'.
  - exists w, h. split; [done|]. lia.
Qed.

(** The dimensions read from a PNG header are 32-bit. *)
Lemma be_fold_bound (l : list N) (acc : N) :
  Forall (fun b => (b < 256)%N) l ->
  (fold_left (fun acc b => 256 * acc + b) l acc
   < (acc + 1) * 256 ^ N.of_nat (length l))%N.
Proof.
  intros Hl; revert acc; induction Hl as [|b l Hb Hl IH]; intros acc.
  - simpl. lia.
  - cbn [fold_left length]. specialize (IH (256 * acc + b)%N).
    rewrite Nat2N.inj_succ, N.pow_succ_r'.
    assert (0 < 256 ^ N.of_nat (length l))%N by (apply N.neq_0_lt_0, N.pow_nonzero; lia).
    nia.
Qed.

Lemma readUInt32BE_range off buf :
  Forall (fun b => (b < 256)%N) buf ->
  (0 <= readUInt32BE off buf < 2 ^ 32)%Z.
Proof.
  intros Hbuf. unfold readUInt32BE.
  set (l := take 4 (drop off buf)).
  assert (Hl : Forall (fun b => (b < 256)%N) l)
    by (by apply Forall_take, Forall_drop).
  pose proof (be_fold_bound l 0%N Hl) as Hlt.
  assert (Hlen : (N.of_nat (length l) <= 4)%N).
  { unfold l. rewrite length_take. lia. }
  assert (Hpow : (256 ^ N.of_nat (length l) <= 256 ^ 4)%N)
    by (apply N.pow_le_mono_r; lia).
  split; [lia|].
  change (2 ^ 32)%Z with (Z.of_N (256 ^ 4)). lia.
Qed.

(** The image pushed for a rendered diagram is not larger than the
    dimensions of its PNG header, or than 600 by 360 when the data has no
    such header. *)
Lemma mermaid_image_never_upscales indent imageData :
  indent = 0%Z \/ indent = 360%Z ->
  Forall (fun b => (b < 256)%N) imageData ->
  exists w h w' h',
    (w, h) = default (600, 360)%Z (getPngDimensions imageData) /\
    mermaid_image indent imageData
    = Paragraph
        (Para None None (Some indent) None None None None true
           [ImageRun "png" imageData (of_Z w') (of_Z h')
              (Some (u "Mermaid Diagram"))]) /\
    (0 <= w' <= w)%Z /\ (0 <= h' <= h)%Z.
Proof.
  intros Hi Hbytes. unfold mermaid_image.
  destruct (getPngDimensions imageData) as [[w h]|] eqn:Edim.
  - assert (Hw : (0 <= w < 2 ^ 32)%Z /\ (0 <= h < 2 ^ 32)%Z).
    { unfold getPngDimensions in Edim. repeat case_match; try done.
      injection Edim as <- <-. split; by apply readUInt32BE_range. }
    destruct (scale_image_le indent w h Hi) as (w' & h' & -> & Hw' & Hh'); [lia..|].
    by exists w, h, w', h'.
  - change (fround (fmul (of_Z MERMAID_IMAGE_WIDTH) (rnd (6 # 10))))
      with (of_Z 360).
    change (of_Z MERMAID_IMAGE_WIDTH) with (of_Z 600).
    destruct (scale_image_le indent 600 360 Hi) as (w' & h' & -> & Hw' & Hh');
      [lia..|].
    by exists 600%Z, 360%Z, w', h'.
Qed.



Local Close Scope Q_scope.

(** ** The changelog extractor *)








(** * Further properties of the code *)

(** ** Termination of [parse] *)

Lemma rest_cursor ps line :
  lines ps !! pos ps = Some line ->
  rest ps = line :: drop (S (pos ps)) (lines ps).
Proof. intros H. unfold rest. by rewrite (drop_S _ _ _ H). Qed.

Lemma list_items_progress lt line rest' :
  is_blank line = false ->
  no_item lt line = false ->
  0 < (list_items lt (line :: rest')).2.
Proof.
  unfold no_item, test. intros Hb H. simpl.
  destruct (exec (topPattern lt) line) eqn:E1.
  - destruct (list_items lt rest'); simpl; lia.
  - destruct (exec re_nested line) eqn:E2; [|done].
    destruct (list_items lt rest'); simpl; lia.
Qed.

Lemma parse_line_lines ps line : lines (parse_line ps line) = lines ps.
Proof.
  unfold parse_line, parseCodeBlock, parseTable, parseList, parseBlockquote,
    parseParagraph.
  repeat case_match; simpl; try done.
Qed.

Lemma parse_line_pos ps line :
  lines ps !! pos ps = Some line ->
  pos ps <= pos (parse_line ps line).
Proof.
  intros Hl. unfold parse_line, parseCodeBlock, parseTable, parseList, parseBlockquote,
    parseParagraph.
  repeat case_match; simpl; try lia.
Qed.

Lemma quoteLines_of_cons line r :
  quoteLines_of (line :: r)
  = if startsWith (u ">") line
    then replace_empty re_quote_marker line :: quoteLines_of r else [].
Proof. reflexivity. Qed.

Lemma parse_line_progress ps line :
  lines ps !! pos ps = Some line ->
  stuck line = false \/ table_start ps line = true ->
  pos ps < pos (parse_line ps line).
Proof.
  intros Hl Hs. pose proof (rest_cursor _ _ Hl) as Hr.
  unfold parse_line.
  destruct (is_blank line) eqn:Hb; [simpl; lia|].
  destruct (startsWith fence line) eqn:Hf; [unfold parseCodeBlock; simpl; lia|].
  destruct (test re_pagebreak line) eqn:Hp; [simpl; lia|].
  unfold stuck, test in *. rewrite ?Hb, ?Hf in Hs. 
  destruct (exec re_pagebreak line) eqn:Hp'; [done|]. clear Hp.
  destruct (exec re_heading line) eqn:Hh; [simpl; lia|].
  destruct (exec re_image line) eqn:Hi; [simpl; lia|].
  destruct (exec imgPattern line) eqn:Hg; [simpl; lia|].
  destruct (table_start ps line) eqn:Ht; [unfold parseTable; simpl; lia|].
  destruct Hs as [Hs|]; [|done]. cbn [negb andb] in Hs.
  destruct (exec re_bullet line) eqn:Hbu.
  { unfold parseList. rewrite Hr.
    pose proof (list_items_progress bullet line (drop (S (pos ps)) (lines ps)) Hb Hs).
    destruct (list_items _ _); simpl in *; lia. }
  destruct (exec re_number line) eqn:Hnu.
  { unfold parseList. rewrite Hr.
    pose proof (list_items_progress number line (drop (S (pos ps)) (lines ps)) Hb Hs).
    destruct (list_items _ _); simpl in *; lia. }
  destruct (startsWith (u ">") line) eqn:Hq.
  { unfold parseBlockquote. rewrite Hr, quoteLines_of_cons, Hq. simpl. lia. }
  destruct (exec re_hr line) eqn:Hhr; [simpl; lia|].
  cbn [negb andb] in Hs. unfold parseParagraph. rewrite Hr, (paraLines_of_cons _ _ Hs).
  simpl. lia.
Qed.

Lemma parse_loop_terminates fuel ps :
  Forall (fun line => stuck line = false) (lines ps) ->
  length (lines ps) - pos ps <= fuel ->
  is_Some (parse_loop fuel ps).
Proof.
  revert ps; induction fuel as [|fuel IH]; intros ps Hall Hf.
  - simpl. destruct (Nat.ltb_spec (pos ps) (length (lines ps))); [lia | eauto].
  - simpl. destruct (Nat.ltb_spec (pos ps) (length (lines ps))) as [Hlt|]; [|eauto].
    destruct (lookup_lt_is_Some_2 _ _ Hlt) as [line Hl].
    unfold parse_step. rewrite Hl.
    assert (Hs : stuck line = false).
    { by apply (Forall_lookup_1 _ _ _ _ Hall Hl). }
    pose proof (parse_line_progress ps line Hl (or_introl Hs)).
    apply IH; rewrite parse_line_lines; [done | lia].
Qed.

(** Termination of [parse]: on a document none of whose lines is [stuck],
    every iteration of the loop moves the cursor forward, so [parse] returns
    within as many iterations as the document has lines. *)
Theorem parse_returns_without_stuck_line markdown fuel :
  Forall (fun line => stuck line = false) (split 10 markdown) ->
  length (split 10 markdown) <= fuel ->
  is_Some (parse fuel markdown).
Proof.
  intros Hall Hf. unfold parse.
  destruct (parse_loop_terminates fuel (new_parser markdown)) as [ps' E];
    [done | simpl; lia |].
  rewrite E. eauto.
Qed.

(** [parse_returns_without_stuck_line] on a document with a heading, a nested
    list, a paragraph and a fence that is not closed. *)
Lemma parse_returns_without_stuck_line_witness :
  let md := u "# Title" ++ [10%N] ++ u "- a" ++ [10%N] ++ u "  - b"
            ++ [10%N; 10%N] ++ u "some *text*" ++ [10%N] ++ u "```" in
  is_Some (parse 7 md).
Proof.
  intros md. apply parse_returns_without_stuck_line.
  - let l := eval vm_compute in (split 10%N md) in
    change (split 10%N md) with l.
    repeat (apply Forall_cons; split; [vm_compute; reflexivity|]).
    apply Forall_nil. done.
  - vm_compute. lia.
Defined.

Lemma list_items_stuck lt line rest' :
  is_blank line = false -> no_item lt line = true ->
  list_items lt (line :: rest') = ([], 0).
Proof.
  unfold no_item, test. intros Hb H. simpl.
  destruct (exec (topPattern lt) line); [done|].
  destruct (exec re_nested line); [done|]. by rewrite Hb.
Qed.

Lemma parse_line_stuck ps line :
  lines ps !! pos ps = Some line ->
  stuck line = true -> table_start ps line = false ->
  exists pushed,
    parse_line ps line = Parser (lines ps) (pos ps) (elements ps ++ pushed).
Proof.
  intros Hl Hs Ht. pose proof (rest_cursor _ _ Hl) as Hr.
  unfold stuck in Hs. unfold parse_line. unfold test in *.
  destruct (is_blank line) eqn:Hb; [done|].
  destruct (startsWith fence line) eqn:Hf; [done|].
  destruct (exec re_pagebreak line) eqn:Hp; [done|].
  destruct (exec re_heading line) eqn:Hh; [done|].
  destruct (exec re_image line) eqn:Hi; [done|].
  destruct (exec imgPattern line) eqn:Hg; [done|].
  rewrite Ht. cbn [negb andb] in Hs.
  destruct (exec re_bullet line) eqn:Hbu.
  { unfold parseList. rewrite Hr, (list_items_stuck _ _ _ Hb Hs).
    exists [list_ bullet []]. unfold push, advance; simpl. by rewrite Nat.add_0_r. }
  destruct (exec re_number line) eqn:Hnu.
  { unfold parseList. rewrite Hr, (list_items_stuck _ _ _ Hb Hs).
    exists [list_ number []]. unfold push, advance; simpl. by rewrite Nat.add_0_r. }
  destruct (startsWith (u ">") line) eqn:Hq; [done|].
  destruct (exec re_hr line) eqn:Hhr; [done|].
  cbn [negb andb] in Hs. unfold parseParagraph.
  rewrite Hr. simpl paraLines_of. rewrite Hs. simpl.
  exists []. unfold advance. destruct ps; simpl. by rewrite Nat.add_0_r, app_nil_r.
Qed.

Lemma parse_loop_stuck_line ps line :
  lines ps !! pos ps = Some line ->
  stuck line = true -> table_start ps line = false ->
  forall fuel, parse_loop fuel ps = None.
Proof.
  intros Hl Hs Ht fuel. destruct ps as [l p els]. simpl in *.
  apply parse_loop_stuck.
  - by eapply lookup_lt_Some.
  - intros els0. unfold parse_step. simpl. rewrite Hl.
    destruct (parse_line_stuck (Parser l p els0) line) as [pushed E]; simpl; try done.
    eauto.
Qed.

(** Non-termination of [parse]: when the cursor is on a [stuck] line at
    which no table starts, the iteration leaves the cursor on that line,
    and the loop returns for no number of iterations. *)
Theorem parse_never_returns_from_stuck_line ps line :
  lines ps !! pos ps = Some line ->
  stuck line = true -> table_start ps line = false ->
  forall fuel, parse_loop fuel ps = None.
Proof. apply parse_loop_stuck_line. Qed.

(** [parse_never_returns_from_stuck_line] on a line of seven hashes in the
    middle of a document. *)
Lemma parse_never_returns_from_stuck_line_witness :
  let ps := Parser [u "intro"; u "####### seven"; u "text"] 1
              [paragraph (u "intro")] in
  stuck (u "####### seven") = true /\
  forall fuel, parse_loop fuel ps = None.
Proof.
  intros ps. split; [vm_compute; reflexivity|].
  apply (parse_never_returns_from_stuck_line ps (u "####### seven"));
    vm_compute; reflexivity.
Defined.

Lemma drop_while_nil (p : cu -> bool) s :
  drop_while p s = [] <-> forallb p s = true.
Proof.
  induction s as [|c s IH]; simpl; [done|].
  destruct (p c); simpl; [done|]. split; discriminate.
Qed.

Lemma drop_while_forallb_false (p : cu -> bool) s :
  forallb p s = false -> forallb p (drop_while p s) = false.
Proof.
  induction s as [|c s IH]; simpl; [done|].
  destruct (p c) eqn:E; simpl; [done|]. by rewrite E.
Qed.

Lemma forallb_rev (p : cu -> bool) s : forallb p (rev s) = forallb p s.
Proof.
  induction s as [|c s IH]; simpl; [done|].
  rewrite forallb_app, IH. simpl. rewrite andb_true_r. apply andb_comm.
Qed.

Lemma is_blank_forallb s : is_blank s = forallb is_space s.
Proof.
  unfold is_blank, trim.
  destruct (forallb is_space s) eqn:E.
  - apply drop_while_nil in E. by rewrite E.
  - apply drop_while_forallb_false in E. rewrite <- forallb_rev in E.
    apply drop_while_forallb_false in E. rewrite <- forallb_rev in E.
    destruct (rev _); [done | done].
Qed.

Lemma search_bol_S r i s : search (Bol ·· r) (S i) s = None.
Proof. revert i; induction s as [|c s IH]; intros i; simpl; [done | apply IH]. Qed.

Lemma exec_bol r s : exec (Bol ·· r) s = match_at (Bol ·· r) 0 s.
Proof.
  unfold exec. destruct s as [|c s]; simpl.
  - by destruct (match_at _ _ _).
  - destruct (match_at _ _ _); [done|]. apply search_bol_S.
Qed.

Lemma includes_single c s :
  includes [c] s = existsb (N.eqb c) s.
Proof.
  induction s as [|b s IH]; simpl; [done|]. rewrite IH. unfold cueq.
  by rewrite andb_true_r.
Qed.

Lemma re_heading_last line m :
  exec re_heading line = Some m ->
  exists c, last line = Some c /\ is_dot c = true.
Proof.
  intros H. apply exec_bol_sound in H as (w & s' & c & -> & _ & M).
  unfold between, plus in *. inv_matches.
  match goal with H : Forall (fun c => is_dot c = true) ?w |- _ =>
    destruct (rev w) as [|x t] eqn:E end.
  { apply (f_equal (@rev _)) in E. rewrite rev_involutive in E. subst.
    simpl in *. lia. }
  apply (f_equal (@rev _)) in E. rewrite rev_involutive in E. simpl in E. subst.
  exists x. split.
  - rewrite !app_nil_r, !app_assoc. apply last_snoc.
  - match goal with H : Forall _ (_ ++ [x]) |- _ =>
      apply Forall_app in H as [_ H]; by inversion H end.
Qed.

Lemma canon_lt c : canon c = 60%N -> c = 60%N.
Proof.
  unfold canon. destruct (N.leb 97 c && N.leb c 122) eqn:E; [|done].
  apply andb_true_iff in E as [E1 E2].
  apply N.leb_le in E1, E2. lia.
Qed.

Lemma lit_match_head ci a l b s s' :
  lit_match ci (a :: l) (b :: s) = Some s' ->
  if ci then canon a = canon b else a = b.
Proof.
  simpl. unfold cueq. destruct ci.
  - destruct (N.eqb_spec (canon a) (canon b)); [done | discriminate].
  - destruct (N.eqb_spec a b); [done | discriminate].
Qed.

Lemma imgPattern_lt s m : exec imgPattern s = Some m -> 60%N ∈ s.
Proof.
  intros H. apply exec_sound in H as (pre & w & s' & c & -> & _ & M & _).
  unfold imgPattern in M. inversion M as [| | |? ? ? w1 w2 ? c1 c2 M1 M2| | |]; subst.
  inversion M1 as [? ? ? ? ? Hl Hlen| | | | | |]; subst.
  destruct w1 as [|b w1]; [vm_compute in Hlen; discriminate|].
  change (u "<img") with (60%N :: u "img") in Hl.
  apply lit_match_head in Hl. symmetry in Hl. apply canon_lt in Hl. subst.
  rewrite elem_of_app; right. simpl. left.
Qed.

Lemma hash_line_stuck body :
  Forall (fun c => c <> 60%N) body ->
  stuck (35%N :: body ++ [13%N]) = true.
Proof.
  intros Hb. set (line := 35%N :: body ++ [13%N]).
  assert (B : is_blank line = false) by (rewrite is_blank_forallb; reflexivity).
  assert (Hh : test re_heading line = false).
  { unfold test. destruct (exec re_heading line) eqn:E; [|done].
    apply re_heading_last in E as (c & Hc & Hd).
    unfold line in Hc. rewrite app_comm_cons, last_snoc in Hc.
    injection Hc as <-. done. }
  assert (Hi : test imgPattern line = false).
  { unfold test. destruct (exec imgPattern line) eqn:E; [|done].
    apply imgPattern_lt in E. unfold line in E.
    rewrite elem_of_cons, elem_of_app, list_elem_of_singleton in E.
    destruct E as [?|[E|?]]; try done.
    rewrite Forall_forall in Hb. by apply Hb in E. }
  unfold stuck, para_break. rewrite B, Hh, Hi.
  unfold test, re_pagebreak, re_image, re_bullet, re_number, re_hr.
  rewrite !exec_bol. reflexivity.
Qed.

(** Carriage returns: a line that starts with [#] and ends with a carriage
    return, as every heading of a file with CRLF line ends does, is no
    heading for [parse], since [.] does not match the carriage return; when
    it holds neither [<] nor [|], neither an image tag nor a table is found
    on it, [parseParagraph] breaks on it at once, and [parse] never
    returns. *)
Theorem hash_line_with_carriage_return_never_parses ps body :
  lines ps !! pos ps = Some (35%N :: body ++ [13%N]) ->
  Forall (fun c => c <> 60%N /\ c <> 124%N) body ->
  forall fuel, parse_loop fuel ps = None.
Proof.
  intros Hl Hb. eapply parse_loop_stuck_line; [done | |].
  - apply hash_line_stuck. eapply Forall_impl; [done|]. by intros ? [].
  - unfold table_start. change (u "|") with [124%N]. rewrite includes_single.
    replace (existsb _ _) with false; [done|].
    symmetry. apply not_true_is_false. intros E.
    apply existsb_exists in E as (x & Hx & E). apply N.eqb_eq in E. subst.
    apply list_elem_of_In in Hx.
    rewrite elem_of_cons, elem_of_app, list_elem_of_singleton in Hx.
    destruct Hx as [?|[E|?]]; try done.
    rewrite Forall_forall in Hb. by apply Hb in E as [].
Qed.

(** [hash_line_with_carriage_return_never_parses] on a document of two lines
    that end with CRLF. *)
Lemma hash_line_with_carriage_return_never_parses_witness :
  let ps := new_parser (u "# Title" ++ [13%N; 10%N] ++ u "text" ++ [13%N]) in
  lines ps !! pos ps = Some (u "# Title" ++ [13%N]) /\
  forall fuel, parse_loop fuel ps = None.
Proof.
  intros ps. split; [vm_compute; reflexivity|].
  apply (hash_line_with_carriage_return_never_parses ps (u " Title")).
  - vm_compute. reflexivity.
  - repeat (apply Forall_cons; split; [split; discriminate|]). apply Forall_nil.
    done.
Defined.

(** ** [split] and [join] *)

Lemma split_nonempty sep s : split sep s <> [].
Proof.
  induction s as [|c s IH]; simpl; [done|].
  destruct (cueq c sep); [done|]. by destruct (split sep s).
Qed.

Lemma join_cons sep x y l : join sep (x :: y :: l) = x ++ sep ++ join sep (y :: l).
Proof. reflexivity. Qed.

Lemma join_cons_nonempty sep x l :
  l <> [] -> join sep (x :: l) = x ++ sep ++ join sep l.
Proof. by destruct l. Qed.

Lemma join_split sep s : join [sep] (split sep s) = s.
Proof.
  induction s as [|c s IH]; simpl; [done|]. unfold cueq.
  pose proof (split_nonempty sep s) as Hn.
  destruct (N.eqb_spec c sep) as [->|Hne].
  - rewrite join_cons_nonempty by done. simpl. by rewrite IH.
  - destruct (split sep s) as [|h t] eqn:E; [done|].
    rewrite <- IH. by destruct t.
Qed.

Lemma split_free sep s : sep ∉ s -> split sep s = [s].
Proof.
  induction s as [|c s IH]; simpl; [done|].
  rewrite not_elem_of_cons. intros [Hc Hs]. unfold cueq.
  destruct (N.eqb_spec c sep); [congruence|]. by rewrite IH.
Qed.

Lemma split_app_sep sep x s :
  sep ∉ x -> split sep (x ++ sep :: s) = x :: split sep s.
Proof.
  induction x as [|c x IH]; simpl.
  - intros _. unfold cueq. by rewrite N.eqb_refl.
  - rewrite not_elem_of_cons. intros [Hc Hx]. unfold cueq.
    destruct (N.eqb_spec c sep); [congruence|]. by rewrite IH.
Qed.

Lemma split_join sep l :
  l <> [] -> Forall (fun x => sep ∉ x) l -> split sep (join [sep] l) = l.
Proof.
  induction l as [|x l IH]; [done|]. intros _ Hall.
  inversion Hall as [|? ? Hx Hl]; subst.
  destruct l as [|y l].
  - simpl. by apply split_free.
  - rewrite join_cons. change ([sep] ++ ?z) with (sep :: z).
    rewrite split_app_sep by done. f_equal. by apply IH.
Qed.

Lemma split_pieces sep s : Forall (fun x => sep ∉ x) (split sep s).
Proof.
  induction s as [|c s IH]; simpl.
  - constructor; [|constructor]. apply not_elem_of_nil.
  - unfold cueq. destruct (N.eqb_spec c sep) as [->|Hne].
    + constructor; [apply not_elem_of_nil | done].
    + pose proof (split_nonempty sep s) as Hn.
      destruct (split sep s) as [|h t]; [done|].
      inversion IH; subst. constructor; [|done].
      rewrite not_elem_of_cons. split; [congruence | done].
Qed.

(** ** Code blocks *)

Lemma codeLines_of_app body tail :
  Forall (fun l => startsWith fence l = false) body ->
  match tail with [] => True | closing :: _ => startsWith fence closing = true end ->
  codeLines_of (body ++ tail) = body.
Proof.
  intros Hb Ht. induction Hb as [|l body Hl Hb IH]; cbn [codeLines_of app].
  - destruct tail as [|closing tail]; [done|]. cbn [codeLines_of]. by rewrite Ht.
  - by rewrite Hl, IH.
Qed.

Lemma rest_lookup ps line tail :
  rest ps = line :: tail ->
  lines ps !! pos ps = Some line /\ rest (advance 1 ps) = tail.
Proof.
  unfold rest, advance; simpl. intros H. split.
  - rewrite <- (Nat.add_0_r (pos ps)), <- lookup_drop. by rewrite H.
  - rewrite <- drop_drop. by rewrite H.
Qed.

(** [parseCodeBlock] on an opening fence that is followed by the lines
    [body], none of them a fence, and then by a closing fence or by the end
    of the document: the element holds the language tag of the opening
    fence and the lines of [body], joined by line feeds as they stand, and
    the cursor is behind the closing fence.  When the block is not closed,
    it runs to the end of the document and the cursor ends up behind it. *)
Theorem parseCodeBlock_captures ps start body tail :
  rest ps = start :: body ++ tail ->
  Forall (fun l => startsWith fence l = false) body ->
  match tail with [] => True | closing :: _ => startsWith fence closing = true end ->
  parseCodeBlock ps
  = Parser (lines ps) (pos ps + length body + 2)
      (elements ps ++ [code (trim (drop 3 start)) (join [10%N] body)]).
Proof.
  intros Hr Hb Ht. apply rest_lookup in Hr as [Hl Hr].
  unfold parseCodeBlock. rewrite nth_lookup, Hl, Hr. simpl default.
  rewrite (codeLines_of_app _ _ Hb Ht).
  unfold push, advance; simpl. f_equal. lia.
Qed.

(** [parseCodeBlock_captures] on a block of three lines, one of them empty. *)
Lemma parseCodeBlock_captures_witness :
  let ps := new_parser (u "```js" ++ [10%N] ++ u "let a = 1;" ++ [10%N; 10%N]
                        ++ u "  a++;" ++ [10%N] ++ u "```" ++ [10%N] ++ u "end") in
  parseCodeBlock ps
  = Parser (lines ps) 5
      [code (u "js") (u "let a = 1;" ++ [10%N; 10%N] ++ u "  a++;")].
Proof.
  intros ps.
  apply (parseCodeBlock_captures ps (u "```js") [u "let a = 1;"; []; u "  a++;"]
           [u "```"; u "end"]).
  - vm_compute. reflexivity.
  - repeat (apply Forall_cons; split; [vm_compute; reflexivity|]). by apply Forall_nil.
  - vm_compute. reflexivity.
Defined.

(** A code block that is not a Mermaid diagram becomes one paragraph for
    each of its lines, in their order, with the line as its text or a space
    for an empty line; a block without lines becomes one paragraph that
    holds a space. *)
Theorem code_block_one_paragraph_per_line env inputDir m st lang body :
  eq_str lang (u "mermaid") = false ->
  Forall (fun l => 10%N ∉ l) body ->
  convert_element env inputDir m st (code lang (join [10%N] body))
  = (List.map (convert_code_line (currentSectionIndent st))
       (match body with [] => [[]] | _ => body end), st).
Proof.
  intros Hlang Hb. simpl. rewrite Hlang. f_equal.
  destruct body as [|l body]; [done|].
  by rewrite split_join.
Qed.

(** [code_block_one_paragraph_per_line] on the same three lines under a
    level-2 heading. *)
Lemma code_block_one_paragraph_per_line_witness :
  let env := NodeEnv (fun d p => d ++ p) (fun _ => false) (fun _ => None)
               (fun _ => []) in
  convert_element env (u "/doc") ∅ (ConvertState 0 360)
    (code (u "js") (join [10%N] [u "a"; []; u "b"]))
  = (List.map (convert_code_line 360) [u "a"; []; u "b"], ConvertState 0 360).
Proof.
  intros env.
  apply (code_block_one_paragraph_per_line env (u "/doc") ∅ (ConvertState 0 360)
           (u "js") [u "a"; []; u "b"]).
  - vm_compute. reflexivity.
  - repeat (apply Forall_cons; split;
            [rewrite list_elem_of_In; vm_compute; intuition discriminate|]).
    by apply Forall_nil.
Defined.

(** ** Table rows *)

Lemma parseTableRow_keep line :
  parseTableRow line
  = let arr := List.map trim (split 124%N line) in
    List.map snd (List.filter (keep_cell (length arr)) (imap pair arr)).
Proof.
  unfold parseTableRow. cbv zeta. f_equal. apply List.filter_ext. by intros [idx c].
Qed.

Lemma inner_cells_kept n k (mid : list (list N)) :
  0 < k -> k + length mid <= n - 1 ->
  List.map snd (List.filter (keep_cell n) (imap (fun i => pair (k + i)) mid)) = mid.
Proof.
  revert k; induction mid as [|x mid IH]; intros k Hk Hn; [done|].
  simpl in *. unfold keep_cell at 1. simpl.
  destruct (Nat.ltb_spec 0 (k + 0)); [|lia].
  destruct (Nat.ltb_spec (k + 0) (n - 1)); [|lia]. simpl. f_equal.
  rewrite <- (IH (S k)) at 2 by lia. do 2 f_equal.
  apply imap_ext. intros i y _. simpl. f_equal. lia.
Qed.

Lemma outer_cells_filtered a (mid : list (list N)) z :
  let arr := a :: mid ++ [z] in
  List.map snd (List.filter (keep_cell (length arr)) (imap pair arr))
  = (match a with [] => [] | _ => [a] end) ++ mid
    ++ (match z with [] => [] | _ => [z] end).
Proof.
  intros arr. unfold arr. rewrite imap_cons, imap_app.
  assert (Hlen : length (a :: mid ++ [z]) = length mid + 2)
    by (simpl; rewrite length_app; simpl; lia).
  rewrite Hlen. cbn [List.filter]. rewrite List.filter_app.
  assert (Hmid :
    List.map snd (List.filter (keep_cell (length mid + 2)) (imap (pair ∘ S) mid))
    = mid).
  { apply (inner_cells_kept (length mid + 2) 1 mid); lia. }
  assert (Hz :
    List.map snd
      (List.filter (keep_cell (length mid + 2))
         (imap (fun n => (pair ∘ S) (length mid + n)) [z]))
    = match z with [] => [] | _ => [z] end).
  { simpl. unfold keep_cell. simpl.
    destruct (Nat.ltb_spec (S (length mid + 0)) (length mid + 2 - 1)); [lia|].
    by destruct z. }
  assert (Ka : keep_cell (length mid + 2) (0, a)
               = match a with [] => false | _ => true end) by (by destruct a).
  rewrite Ka. destruct a; cbn [List.map snd]; by rewrite map_app, Hmid, Hz.
Qed.

Lemma is_blank_trim s : is_blank s = match trim s with [] => true | _ => false end.
Proof. reflexivity. Qed.

(** [parseTableRow] on a line with a cell separator at least, that is on
    the cells [a], [mid] and [z] joined by [|]: every cell is trimmed, the
    cells in between all stay, also the empty ones, and the first and the
    last cell are dropped when nothing but whitespace is in them. *)
Theorem parseTableRow_cells a mid z :
  Forall (fun c => 124%N ∉ c) (a :: mid ++ [z]) ->
  parseTableRow (join [124%N] (a :: mid ++ [z]))
  = (if is_blank a then [] else [trim a]) ++ List.map trim mid
    ++ (if is_blank z then [] else [trim z]).
Proof.
  intros Hfree. rewrite parseTableRow_keep. cbv zeta.
  rewrite split_join by done.
  replace (List.map trim (a :: mid ++ [z]))
    with (trim a :: List.map trim mid ++ [trim z])
    by (by rewrite map_cons, map_app).
  rewrite (outer_cells_filtered (trim a) (List.map trim mid) (trim z)).
  rewrite !is_blank_trim. by destruct (trim a), (trim z).
Qed.

(** [parseTableRow_cells] on a row with outer pipes and an empty cell in the
    middle. *)
Lemma parseTableRow_cells_witness :
  parseTableRow (u "| a || b |") = [u "a"; []; u "b"].
Proof.
  apply (parseTableRow_cells [] [u " a "; []; u " b "] []).
  repeat (apply Forall_cons; split;
          [rewrite list_elem_of_In; vm_compute; intuition discriminate|]).
  by apply Forall_nil.
Defined.

(** ** Headings *)

(** A greedy quantifier hands the longest run to its continuation first:
    the run that ends where the class stops or where the bound is
    reached. *)
Lemma rep_run_greedy_first {R} (p : cu -> bool) lo hi i w s
    (k : nat -> str -> option R) x :
  Forall (fun c => p c = true) w -> lo <= length w ->
  (forall h, hi = Some h -> length w <= h) ->
  match s with [] => True | c :: _ => p c = false \/ hi = Some (length w) end ->
  k (i + length w) s = Some x ->
  rep_run true p lo hi i (w ++ s) k = Some x.
Proof.
  intros Hw; revert lo hi i; induction Hw as [|a w Ha Hw IH];
    intros lo hi i Hlo Hhi Hs Hk.
  - simpl in *. rewrite Nat.add_0_r in Hk. destruct lo; [|lia].
    destruct s as [|c s]; simpl; [by rewrite Hk|].
    destruct Hs as [->| ->]; [by rewrite Hk|]. simpl.
    by rewrite andb_false_r, Hk.
  - simpl. rewrite Ha.
    assert (Hok : hi_ok hi = true).
    { destruct hi as [[|h]|]; try done. specialize (Hhi 0 eq_refl). simpl in Hhi. lia. }
    rewrite Hok. simpl.
    rewrite (IH (pred lo) (hi_pred hi) (S i)); [done | simpl in Hlo; lia | | |].
    + intros h Hh. destruct hi as [h'|]; [|done]. injection Hh as <-.
      specialize (Hhi h' eq_refl). simpl in Hhi. lia.
    + destruct s as [|c s]; [done|]. destruct Hs as [?| ->]; [by left|].
      right. simpl. done.
    + by replace (S i + length w) with (i + length (a :: w)) by (simpl; lia).
Qed.

Lemma hash_class c : one_of "#" c = true <-> c = 35%N.
Proof.
  unfold one_of; simpl. unfold cueq. rewrite orb_false_r. apply N.eqb_eq.
Qed.

Lemma exec_bol_match_at r s m :
  match_at (Bol ·· r) 0 s = Some m -> exec (Bol ·· r) s = Some m.
Proof. intros H. by rewrite exec_bol. Qed.

Lemma re_heading_exec n ws text :
  1 <= n <= 6 -> ws <> [] -> Forall (fun c => is_space c = true) ws ->
  Forall (fun c => is_dot c = true) text ->
  match text with [] => False | c :: _ => is_space c = false end ->
  exec re_heading (replicate n 35%N ++ ws ++ text)
  = Some (MatchResult 0 (replicate n 35%N ++ ws ++ text) [replicate n 35%N; text]).
Proof.
  intros Hn Hws Hsp Hdot Htext. apply exec_bol_match_at.
  unfold match_at, re_heading, between, plus. cbn [rmatch].
  erewrite (rep_run_greedy_first (one_of "#") 1 (Some 6) 0 (replicate n 35%N)).
  - reflexivity.
  - apply Forall_replicate. by apply hash_class.
  - rewrite length_replicate. lia.
  - intros h [= <-]. rewrite length_replicate. lia.
  - destruct ws as [|c ws']; [done|]. simpl. left.
    inversion Hsp; subst. destruct (one_of "#" c) eqn:E; [|done].
    apply hash_class in E. by subst.
  - rewrite length_replicate. simpl.
    erewrite (rep_run_greedy_first is_space 1 None n ws); [reflexivity|done| | | |].
    + destruct ws; [done | simpl; lia].
    + done.
    + destruct text as [|c t]; [done | by left].
    + rewrite <- (app_nil_r text) at 1.
      erewrite (rep_run_greedy_first is_dot 1 None (n + length ws) text);
        [reflexivity | done | | done | done |].
      * destruct text; [done | simpl; lia].
      * simpl. rewrite !Nat.sub_0_r.
        rewrite (take_ge (_ ++ _)) by (rewrite !length_app, length_replicate; lia).
        rewrite (take_app_length' (replicate n 35%N)) by (by rewrite length_replicate).
        by rewrite take_ge by lia.
Qed.

(** A heading line: [n] hashes, [n] between 1 and 6, then whitespace, then
    a text without line terminator that does not start with whitespace.
    [parse] makes of it the heading of level [n] whose text is that text,
    trailing whitespace included, and moves to the next line. *)
Theorem heading_line_parses ps n ws text :
  lines ps !! pos ps = Some (replicate n 35%N ++ ws ++ text) ->
  1 <= n <= 6 -> ws <> [] -> Forall (fun c => is_space c = true) ws ->
  Forall (fun c => is_dot c = true) text ->
  match text with [] => False | c :: _ => is_space c = false end ->
  parse_step ps
  = Parser (lines ps) (pos ps + 1) (elements ps ++ [heading n text]).
Proof.
  intros Hl Hn Hws Hsp Hdot Htext. unfold parse_step. rewrite Hl.
  pose proof (re_heading_exec n ws text Hn Hws Hsp Hdot Htext) as E.
  unfold parse_line. rewrite E.
  destruct n as [|n']; [lia|]. cbn [replicate app].
  rewrite is_blank_forallb.
  change (forallb is_space (35%N :: ?t)) with false. cbn iota.
  change (startsWith fence (35%N :: ?t)) with false. cbn iota.
  unfold test, re_pagebreak. rewrite exec_bol.
  change (match_at _ 0 (35%N :: ?t)) with (@None rmatch_result). cbn iota.
  unfold group, push, advance; simpl. by rewrite length_replicate.
Qed.

(** [heading_line_parses] on a level-3 heading with two spaces behind the
    hashes and one at the end. *)
Lemma heading_line_parses_witness :
  parse_step (new_parser (u "###  Set up " ++ [10%N] ++ u "text"))
  = Parser [u "###  Set up "; u "text"] 1 [heading 3 (u "Set up ")].
Proof.
  apply (heading_line_parses
           (new_parser (u "###  Set up " ++ [10%N] ++ u "text")) 3 (u "  ")
           (u "Set up ")); try (vm_compute; (reflexivity || lia)).
  - discriminate.
  - repeat (apply Forall_cons; split; [reflexivity|]). by apply Forall_nil.
  - repeat (apply Forall_cons; split; [reflexivity|]). by apply Forall_nil.
Defined.

(** ** The body of a rendering request *)

Lemma startsWith_app pat s : startsWith pat (pat ++ s) = true.
Proof.
  induction pat as [|a pat IH]; simpl; [done|]. unfold cueq.
  by rewrite N.eqb_refl.
Qed.

Lemma includes_prefix pat s : includes pat (pat ++ s) = true.
Proof.
  destruct (pat ++ s) as [|c t] eqn:E; simpl; rewrite <- E, startsWith_app; done.
Qed.

(** The theme directive is put in front of a diagram source once at most:
    the body made from a source holds a directive, its own or the one put
    in front of it, so that making a body from a body changes nothing. *)
Theorem postData_idempotent diagramSource mermaidTheme mermaidTheme' :
  includes (u "%%{init:") (postData diagramSource mermaidTheme) = true /\
  postData (postData diagramSource mermaidTheme) mermaidTheme'
  = postData diagramSource mermaidTheme.
Proof.
  assert (H : includes (u "%%{init:") (postData diagramSource mermaidTheme) = true).
  { unfold postData. destruct (includes _ diagramSource) eqn:E; simpl negb; cbn iota.
    - done.
    - change (u "%%{init: {'theme': '" ++ ?x)
        with (u "%%{init:" ++ (u " {'theme': '" ++ x)).
      apply includes_prefix. }
  split; [done|]. unfold postData at 1. by rewrite H.
Qed.

(** ** The numbering references *)

Lemma u_inj a b : u a = u b -> a = b.
Proof.
  unfold u. intros H.
  rewrite <- (string_of_list_ascii_of_string a), <- (string_of_list_ascii_of_string b).
  f_equal. revert H. generalize (list_ascii_of_string a) (list_ascii_of_string b).
  intros l1; induction l1 as [|x l1 IH]; intros [|y l2]; simpl; try done.
  intros [= Hxy Hl]. f_equal; [|by apply IH].
  by rewrite <- (ascii_N_embedding x), <- (ascii_N_embedding y), Hxy.
Qed.

Lemma dec_inj z1 z2 : dec z1 = dec z2 -> z1 = z2.
Proof.
  unfold dec. intros H. apply u_inj in H.
  apply DecimalZ.to_int_inj.
  pose proof (NilEmpty.isi (Z.to_int z1)) as H1.
  pose proof (NilEmpty.isi (Z.to_int z2)) as H2.
  rewrite H in H1. rewrite H1 in H2. by injection H2.
Qed.

Lemma string_of_uint_digits d :
  Forall (fun c => is_digit c = true) (u (NilEmpty.string_of_uint d)).
Proof. induction d; simpl; by constructor. Qed.

Lemma dec_digits z : (0 <= z)%Z -> Forall (fun c => is_digit c = true) (dec z).
Proof.
  intros Hz. unfold dec. destruct z as [|p|p]; [| |lia].
  - apply (string_of_uint_digits Decimal.zero).
  - apply (string_of_uint_digits (Pos.to_uint p)).
Qed.

Lemma digits_delimited (c : N) w1 w2 r1 r2 :
  is_digit c = false ->
  Forall (fun c => is_digit c = true) w1 ->
  Forall (fun c => is_digit c = true) w2 ->
  w1 ++ c :: r1 = w2 ++ c :: r2 -> w1 = w2.
Proof.
  intros Hc Hw1; revert w2; induction Hw1 as [|a w1 Ha Hw1 IH];
    intros w2 Hw2 E; destruct Hw2 as [|b w2 Hb Hw2]; simpl in *.
  - done.
  - injection E as -> _. congruence.
  - injection E as -> _. congruence.
  - injection E as -> E. f_equal. by apply (IH w2).
Qed.

Lemma listRef_of_inj k1 v1 k2 v2 :
  (0 <= k1)%Z -> (0 <= k2)%Z ->
  listRef_of k1 v1 = listRef_of k2 v2 -> k1 = k2.
Proof.
  intros H1 H2. unfold listRef_of. intros E. apply app_inv_head in E.
  change (u "-indent" ++ ?x) with (45%N :: (u "indent" ++ x)) in E.
  apply digits_delimited in E; [by apply dec_inj | done | by apply dec_digits..].
Qed.

Lemma numberConfigs_from_counts listCount currentIndent els :
  (0 <= listCount)%Z ->
  Forall (fun nc => exists k v, (listCount < k)%Z /\ nc_reference nc = listRef_of k v)
    (numberConfigs_from listCount currentIndent els).
Proof.
  revert listCount currentIndent; induction els as [|el els IH];
    intros listCount currentIndent Hc; simpl; [constructor|].
  destruct el as [| | | |[|] items| | | |]; try (apply IH; lia).
  constructor.
  - simpl. eexists _, _. split; [|reflexivity]. lia.
  - eapply Forall_impl; [apply IH; lia|]. simpl.
    intros nc (k & v & Hk & E). exists k, v. split; [lia | done].
Qed.

Lemma numberConfigs_from_NoDup listCount currentIndent els :
  (0 <= listCount)%Z ->
  NoDup (nc_reference <$> numberConfigs_from listCount currentIndent els).
Proof.
  revert listCount currentIndent; induction els as [|el els IH];
    intros listCount currentIndent Hc; simpl; [constructor|].
  destruct el as [| | | |[|] items| | | |]; try (apply IH; lia).
  rewrite fmap_cons. constructor; [|apply IH; lia]. simpl.
  intros Hin. apply list_elem_of_fmap in Hin as (nc & E & Hin).
  pose proof (numberConfigs_from_counts (listCount + 1) currentIndent els
                ltac:(lia)) as Hall.
  rewrite Forall_forall in Hall. apply Hall in Hin as (k & v & Hk & E').
  rewrite E' in E. apply listRef_of_inj in E; lia.
Qed.

Lemma numberConfigs_from_length listCount currentIndent els :
  length (numberConfigs_from listCount currentIndent els)
  = length (List.filter is_numbered els).
Proof.
  revert listCount currentIndent; induction els as [|el els IH];
    intros listCount currentIndent; simpl; [done|].
  destruct el as [| | | |[|] items| | | |]; simpl; by rewrite IH.
Qed.

(** [main] declares one numbering for each numbered list of the document,
    and no two of them under the same reference: every numbered list counts
    its items from 1. *)
Theorem numbering_references_distinct els :
  length (numberConfigs els) = length (List.filter is_numbered els) /\
  NoDup (nc_reference <$> numberConfigs els).
Proof.
  split; [apply numberConfigs_from_length|].
  by apply numberConfigs_from_NoDup.
Qed.

(** ** Text without markup *)

Lemma exec_lit_head ci a l r' s m :
  exec (Lit ci (a :: l) ·· r') s = Some m ->
  exists c, c ∈ s /\ if ci then canon a = canon c else a = c.
Proof.
  intros H. apply exec_sound in H as (pre & w & s' & c & -> & _ & M & _).
  inversion M as [| | |? ? ? w1 w2 ? c1 c2 M1 M2| | |]; subst.
  inversion M1 as [? ? ? ? ? Hl Hlen| | | | | |]; subst.
  destruct w1 as [|b w1]; [discriminate|].
  apply lit_match_head in Hl. exists b. split; [|done].
  rewrite elem_of_app; right. simpl. left.
Qed.

Lemma canon_ascii_symbol a c :
  (a < 65)%N \/ (90 < a < 97)%N \/ (122 < a)%N -> canon a = canon c -> c = a.
Proof.
  unfold canon.
  destruct (N.leb 97 a && N.leb a 122) eqn:Ea;
    destruct (N.leb 97 c && N.leb c 122) eqn:Ec;
    rewrite ?andb_true_iff, ?andb_false_iff, ?N.leb_le, ?N.leb_gt in *; lia.
Qed.

Lemma plain_text_no_match remaining n t :
  Forall (fun c => one_of "<*_~`" c = false) remaining ->
  inline_tests remaining !! n = Some t -> exec t.1 remaining = None.
Proof.
  intros Hplain Hn. destruct (exec t.1 remaining) as [m|] eqn:E; [|done].
  exfalso. rewrite Forall_forall in Hplain.
  assert (Hc : exists c, c ∈ remaining /\ one_of "<*_~`" c = true).
  { do 2 (destruct n as [|n]; [injection Hn as <-; simpl in E;
          apply exec_lit_head in E as (c & Hin & Hc); cbn iota in Hc;
          apply canon_ascii_symbol in Hc; [|by left]; subst c;
          eexists; split; [exact Hin | reflexivity]|]).
    do 7 (destruct n as [|n]; [injection Hn as <-; simpl in E;
          apply exec_lit_head in E as (c & Hin & Hc); cbn iota in Hc;
          subst c; eexists; split; [exact Hin | reflexivity]|]).
    done. }
  destruct Hc as (c & Hin & Hc). apply Hplain in Hin. congruence.
Qed.

(** A text that holds none of the characters [<], [*], [_], [~] and the
    backquote comes back as one run, with the text as it stands and the
    default style. *)
Theorem plain_text_is_one_run env text inputDir :
  Forall (fun c => one_of "<*_~`" c = false) text ->
  parseInlineMarkup env text inputDir = [plainRun text].
Proof.
  intros Hplain. unfold parseInlineMarkup.
  destruct text as [|c text]; [done|].
  cbn [length inline_loop Nat.ltb Nat.leb]. unfold inline_step.
  rewrite find_earliest_none by (intros n t; by apply plain_text_no_match).
  cbn [earliest_init e_index]. rewrite Nat.ltb_irrefl.
  reflexivity.
Qed.

(** [plain_text_is_one_run] on a text with punctuation that is no markup. *)
Lemma plain_text_is_one_run_witness :
  let env := NodeEnv (fun d p => d ++ p) (fun _ => false) (fun _ => None)
               (fun _ => []) in
  parseInlineMarkup env (u "2 > 1, a-b") (Some (u "/doc"))
  = [plainRun (u "2 > 1, a-b")].
Proof.
  intros env. apply (plain_text_is_one_run env (u "2 > 1, a-b") (Some (u "/doc"))).
  repeat (apply Forall_cons; split; [reflexivity|]). by apply Forall_nil.
Defined.

(** ** The changelog block in [main] *)

Section related.

Context {R1 R2 : Type} (Q : R1 -> R2 -> Prop).

Lemma rep_run_related g p lo hi i s
    (k1 : nat -> str -> option R1) (k2 : nat -> str -> option R2) :
  (forall w s', s = w ++ s' ->
     option_Forall2 Q (k1 (i + length w) s') (k2 (i + length w) s')) ->
  option_Forall2 Q (rep_run g p lo hi i s k1) (rep_run g p lo hi i s k2).
Proof.
  revert lo hi i; induction s as [|c s IH]; intros lo hi i Hk.
  - simpl. pose proof (Hk [] [] eq_refl) as H0. simpl in H0.
    rewrite Nat.add_0_r in H0.
    destruct lo; destruct g; simpl; try constructor; by destruct H0; constructor.
  - pose proof (Hk [] (c :: s) eq_refl) as H0. simpl in H0.
    rewrite Nat.add_0_r in H0.
    assert (Hmore : option_Forall2 Q
              (if p c && hi_ok hi
               then rep_run g p (pred lo) (hi_pred hi) (S i) s k1 else None)
              (if p c && hi_ok hi
               then rep_run g p (pred lo) (hi_pred hi) (S i) s k2 else None)).
    { destruct (p c && hi_ok hi); [|constructor]. apply IH.
      intros w s' ->. specialize (Hk (c :: w) s' eq_refl). simpl in Hk.
      by replace (S i + length w) with (i + S (length w)) by lia. }
    simpl. destruct g.
    + destruct Hmore; [by constructor|]. destruct lo; [done | constructor].
    + destruct lo; [|done]. destruct H0; [by constructor | done].
Qed.

Lemma rmatch_related r i s c1 c2
    (k1 : nat -> str -> list str -> option R1)
    (k2 : nat -> str -> list str -> option R2) :
  (forall w s' c1' c2', s = w ++ s' ->
     option_Forall2 Q (k1 (i + length w) s' c1') (k2 (i + length w) s' c2')) ->
  option_Forall2 Q (rmatch r i s c1 k1) (rmatch (ungroup r) i s c2 k2).
Proof.
  revert i s c1 c2 k1 k2;
    induction r as [ci l|p|g lo hi p|r1 IH1 r2 IH2|r IH| |];
    intros i s c1 c2 k1 k2 Hk; simpl.
  - destruct (lit_match ci l s) as [s'|] eqn:E; [|constructor].
    apply lit_match_length in E as [E Hlen].
    assert (Hw : length (take (length l) s) = length l)
      by (rewrite length_take; lia).
    rewrite <- Hw. by apply Hk.
  - destruct s as [|c s]; [constructor|]. destruct (p c); [|constructor].
    rewrite <- Nat.add_1_r. by apply (Hk [c]).
  - apply rep_run_related. intros w s' ->. by apply Hk.
  - apply IH1. intros w s' c1' c2' ->. apply IH2.
    intros w' s'' c1'' c2'' ->. rewrite <- Nat.add_assoc, <- length_app.
    apply Hk. by rewrite app_assoc.
  - apply IH. intros w s' c1' c2' ->. by apply Hk.
  - destruct i; [|constructor]. by apply (Hk []).
  - destruct s; [|constructor]. pose proof (Hk [] [] c1 c2 eq_refl) as H0.
    simpl in H0. by rewrite Nat.add_0_r in H0.
Qed.

End related.

Lemma take_drop_while (p : cu -> bool) s : take_while p s ++ drop_while p s = s.
Proof. induction s as [|c s IH]; simpl; [done|]. destruct (p c); simpl; by rewrite ?IH. Qed.

Lemma take_while_all (p : cu -> bool) s : Forall (fun c => p c = true) (take_while p s).
Proof.
  induction s as [|c s IH]; simpl; [constructor|].
  destruct (p c) eqn:E; by constructor.
Qed.

Lemma drop_while_head (p : cu -> bool) s :
  match drop_while p s with [] => True | c :: _ => p c = false end.
Proof. induction s as [|c s IH]; simpl; [done|]. by destruct (p c) eqn:E. Qed.

Lemma drop_take_while (p : cu -> bool) s :
  drop (length (take_while p s)) s = drop_while p s.
Proof.
  rewrite <- (take_drop_while p s) at 2. by rewrite drop_app_length.
Qed.

Lemma match_at_changelog_block i s :
  option_Forall2 (extends_over_space i s)
    (match_at re_changelog i s) (match_at re_changelog_block i s).
Proof.
  change (match_at re_changelog_block i s)
    with (rmatch (ungroup re_changelog) i s []
            (fun i' s' c' =>
               rmatch (star is_space) i' s' c'
                 (fun e _ caps => Some (MatchResult i (take (e - i) s) caps)))).
  unfold match_at. apply rmatch_related. intros w s' c1 c2 ->.
  unfold star. cbn [rmatch].
  pose proof (rep_run_greedy_max is_space 0 (i + length w)
    (take_while is_space s') (drop_while is_space s')
    (fun i' _ => Some (MatchResult i (take (i' - i) (w ++ s')) c2)) _
    (take_while_all _ _) ltac:(lia) (drop_while_head _ _) eq_refl) as Hrep.
  rewrite take_drop_while in Hrep. rewrite Hrep.
  constructor. unfold extends_over_space. cbn [m_index m_0].
  replace (i + length w - i) with (length w) by lia.
  replace (i + length w + length (take_while is_space s') - i)
    with (length w + length (take_while is_space s')) by lia.
  rewrite Nat.sub_diag, take_app_length. cbn [Nat.add].
  rewrite drop_app_length. split_and!; [done | done |].
  rewrite take_app_add. f_equal.
  rewrite <- (take_drop_while is_space s') at 2.
  by rewrite take_app_length.
Qed.

Lemma search_changelog_block i s :
  option_Forall2 (extends_over_space i s)
    (search re_changelog i s) (search re_changelog_block i s).
Proof.
  revert i; induction s as [|c s IH]; intros i; simpl.
  - destruct (match_at_changelog_block i []); by constructor.
  - destruct (match_at_changelog_block i (c :: s)); [by constructor|].
    destruct (IH (S i)) as [m1 m2 (E1 & Hi & E2)|]; constructor.
    split_and!; [done | lia |]. rewrite E2. do 2 f_equal.
    replace (m_index m1 - i + length (m_0 m1))
      with (S (m_index m1 - S i + length (m_0 m1))) by lia. done.
Qed.

(** The block that [main] cuts out of the file is the one that
    [extractChangelog] reads, together with the whitespace that follows
    it: a file without a changelog block is parsed as it stands, and
    otherwise what is parsed is the text before the match of
    [extractChangelog] and the text behind it without its leading
    whitespace. *)
Theorem main_cuts_the_changelog_block markdownRaw :
  match exec re_changelog markdownRaw with
  | None => main_markdown markdownRaw = markdownRaw
  | Some changelogMatch =>
      let i := m_index changelogMatch in
      let n := length (m_0 changelogMatch) in
      main_markdown markdownRaw
      = take i markdownRaw ++ drop_while is_space (drop (i + n) markdownRaw)
  end.
Proof.
  unfold main_markdown, replace_empty, exec.
  destruct (search_changelog_block 0 markdownRaw) as [m1 m2 (E1 & _ & E2)|];
    [|done].
  cbv zeta. rewrite E1, E2, length_app, Nat.sub_0_r. f_equal.
  by rewrite Nat.add_assoc, <- drop_drop, drop_take_while.
Qed.

(** ** The command line *)

Lemma options_inv_default today : options_inv today (default_options today).
Proof.
  split; [done|].
  repeat (apply Forall_cons; split; [eexists; vm_compute; reflexivity|]).
  by apply Forall_nil.
Qed.

Lemma options_inv_insert today options key value :
  is_Some (options !! key) ->
  options_inv today options ->
  options_inv today (<[key := Some value]> options).
Proof.
  intros Hk [Hdom Hstr]. split.
  - rewrite dom_insert_lookup_L; done.
  - eapply Forall_impl; [exact Hstr|]. intros k [s Hs].
    destruct (decide (key = k)) as [->|Hne].
    + rewrite lookup_insert_eq. eauto.
    + rewrite lookup_insert_ne by done. eauto.
Qed.

Lemma options_inv_is_Some today options key :
  options_inv today options ->
  key ∈ [u "input"; u "output"; u "theme"] -> is_Some (options !! key).
Proof.
  intros [Hdom _] Hin. apply elem_of_dom. rewrite Hdom.
  apply elem_of_dom.
  repeat (apply elem_of_cons in Hin as [->|Hin];
          [eexists; vm_compute; reflexivity|]).
  by apply elem_of_nil in Hin.
Qed.

Lemma parseArgs_loop_inv today args options :
  options_inv today options ->
  options_inv today (parseArgs_loop args options).
Proof.
  revert options.
  induction args as [args IH] using (induction_ltof1 _ (@length _)).
  unfold ltof in IH. intros options Hinv.
  destruct args as [|arg rest]; [done|]. cbn [parseArgs_loop]. cbv zeta.
  destruct (startsWith (u "--") arg).
  - destruct (options !! drop 2 arg) as [v|] eqn:E.
    + destruct rest as [|value rest']; [exact Hinv|].
      apply IH; [simpl; lia|]. apply options_inv_insert; [by rewrite E | done].
    + apply IH; [simpl; lia | done].
  - destruct (falsy (options !! u "input")).
    + apply IH; [simpl; lia|]. apply options_inv_insert; [|done].
      eapply options_inv_is_Some; [done|].
      repeat first [apply list_elem_of_here | apply list_elem_of_further].
    + destruct (falsy (options !! u "output")).
      * apply IH; [simpl; lia|]. apply options_inv_insert; [|done].
        eapply options_inv_is_Some; [done|].
      repeat first [apply list_elem_of_here | apply list_elem_of_further].
      * apply IH; [simpl; lia | done].
Qed.

Lemma lit_match_exact l s s' : lit_match false l s = Some s' -> s = l ++ s'.
Proof.
  revert s; induction l as [|a l IH]; intros [|b s]; simpl; try done.
  - by intros [= <-].
  - by intros [= <-].
  - unfold cueq. destruct (N.eqb_spec a b) as [->|]; [|done].
    intros H. by rewrite (IH _ H).
Qed.

Lemma exec_re_md input m :
  exec re_md input = Some m ->
  input = take (m_index m) input ++ u ".md" /\ m_0 m = u ".md".
Proof.
  intros H. apply exec_sound in H as (pre & w & s' & c & -> & -> & M & _).
  unfold re_md, lit in M. inv_matches.
  match goal with H : lit_match _ _ _ = _ |- _ => apply lit_match_exact in H end.
  rewrite !app_nil_r in *. subst. simpl. by rewrite take_app_length.
Qed.

Lemma replace_md_suffix stem :
  replace_with re_md (u ".docx") (stem ++ u ".md") = stem ++ u ".docx".
Proof.
  unfold replace_with.
  destruct (exec re_md (stem ++ u ".md")) as [m|] eqn:E.
  - apply exec_re_md in E as [E1 E2].
    apply app_inv_tail in E1.
    assert (Hi : m_index m = length stem).
    { apply (f_equal (@length _)) in E1. rewrite length_take, length_app in E1.
      simpl in E1. lia. }
    rewrite E2, Hi, take_app_length.
    rewrite drop_ge by (rewrite length_app; simpl; lia). by rewrite app_nil_r.
  - assert (H : is_Some (exec re_md (stem ++ u ".md"))).
    { apply (exec_complete re_md stem (u ".md") [] []).
      unfold re_md, lit.
      apply (M_cat (Lit false (u ".md")) Eol (length stem) (u ".md") [] [] [] []);
        [by apply M_lit | apply M_eol]. }
    rewrite E in H. by destruct H.
Qed.

Lemma replace_md_other input :
  (forall stem, input <> stem ++ u ".md") ->
  replace_with re_md (u ".docx") input = input.
Proof.
  intros Hno. unfold replace_with.
  destruct (exec re_md input) as [m|] eqn:E; [|done].
  apply exec_re_md in E as [E _]. by apply Hno in E.
Qed.

Lemma replace_with_nonempty r c newSubstr s :
  s <> [] -> replace_with r (c :: newSubstr) s <> [].
Proof.
  intros Hs. unfold replace_with. destruct (exec r s); [|done].
  intros H. apply app_eq_nil in H as [_ H]. done.
Qed.

Lemma get_not_undefined (on_prototype : str -> bool) {A} (o : gmap str A)
    (key : str) :
  get on_prototype o key <> undefined ->
  is_Some (o !! key) \/ on_prototype key = true.
Proof.
  unfold get. destruct (o !! key); [by left; eexists|].
  destruct (on_prototype key); [by right | done].
Qed.

(** The state of the options at the end of [parseArgs]. *)
Lemma parseArgs_returns on_prototype today args options :
  parseArgs on_prototype today args = Some options ->
  dom options = dom (default_options today) /\
  Forall (fun key => exists s, options !! key = Some (Some s)) string_keys /\
  (exists input, options !! u "input" = Some (Some input) /\ input <> []) /\
  (exists output, options !! u "output" = Some (Some output) /\ output <> []) /\
  (exists theme, options !! u "theme" = Some (Some theme) /\
     (is_Some (THEME_COLORS !! theme) \/ on_prototype theme = true)).
Proof.
  unfold parseArgs.
  pose proof (parseArgs_loop_inv today args _ (options_inv_default today)) as Hinv.
  set (o0 := parseArgs_loop args (default_options today)) in *.
  destruct (o0 !! u "input") as [[[|c input']|]|] eqn:Ein; try discriminate.
  cbv zeta.
  set (o1 := match get on_prototype THEME_COLORS (to_key (o0 !! u "theme")) with
             | undefined => <[u "theme" := Some (u "blue")]> o0
             | _ => o0
             end).
  assert (Hinv1 : options_inv today o1).
  { unfold o1. destruct (get _ _ _); try done.
    apply options_inv_insert; [|done].
    eapply options_inv_is_Some; [done|].
      repeat first [apply list_elem_of_here | apply list_elem_of_further]. }
  assert (Hth : exists theme, o1 !! u "theme" = Some (Some theme) /\
     (is_Some (THEME_COLORS !! theme) \/ on_prototype theme = true)).
  { destruct Hinv as [_ Hstr]. rewrite Forall_forall in Hstr.
    destruct (Hstr (u "theme")) as [t Ht];
      [repeat first [apply list_elem_of_here | apply list_elem_of_further]|].
    unfold o1. rewrite Ht. simpl to_key.
    destruct (get on_prototype THEME_COLORS t) eqn:G.
    - exists t. split; [done|]. apply get_not_undefined. by rewrite G.
    - exists t. split; [done|]. apply get_not_undefined. by rewrite G.
    - exists (u "blue"). rewrite lookup_insert_eq. split; [done|]. left.
      by eexists. }
  assert (Hin1 : o1 !! u "input" = Some (Some (c :: input'))).
  { unfold o1. destruct (get _ _ _); try done.
    rewrite lookup_insert_ne; [done|]. intros H. vm_compute in H. discriminate. }
  intros [= <-].
  destruct (falsy (o1 !! u "output")) eqn:Eout.
  - assert (Hinv2 : options_inv today
              (<[u "output" := Some (replace_with re_md (u ".docx") (c :: input'))]> o1)).
    { apply options_inv_insert; [|done].
      eapply options_inv_is_Some; [done|].
      repeat first [apply list_elem_of_here | apply list_elem_of_further]. }
    destruct Hinv2 as [Hd Hs]. split_and!; [done | done | | |].
    + exists (c :: input'). split; [|done].
      rewrite lookup_insert_ne; [done|]. intros H. vm_compute in H. discriminate.
    + eexists. rewrite lookup_insert_eq. split; [done|].
      by apply replace_with_nonempty.
    + destruct Hth as (t & Ht & Hc). exists t. split; [|done].
      rewrite lookup_insert_ne; [done|]. intros H. vm_compute in H. discriminate.
  - destruct Hinv1 as [Hd Hs]. split_and!; [done | done | | | done].
    + by exists (c :: input').
    + destruct (o1 !! u "output") as [[[|c' out]|]|]; try discriminate.
      by exists (c' :: out).
Qed.

(** What [parseArgs] returns, when it returns: the options have the keys of
    the defaults and no other; every option that is a string by default is
    a string; the input and the output path are strings that are not empty;
    and the theme is the name of a property of [THEME_COLORS], of its own
    or inherited from [Object.prototype]. *)
Theorem parseArgs_postconditions on_prototype today args options :
  parseArgs on_prototype today args = Some options ->
  dom options = dom (default_options today) /\
  Forall (fun key => exists s, options !! key = Some (Some s)) string_keys /\
  (exists input, options !! u "input" = Some (Some input) /\ input <> []) /\
  (exists output, options !! u "output" = Some (Some output) /\ output <> []) /\
  (exists theme, options !! u "theme" = Some (Some theme) /\
     (is_Some (THEME_COLORS !! theme) \/ on_prototype theme = true)).
Proof. apply parseArgs_returns. Qed.

(** [parseArgs_postconditions] on a command line with a theme, an input path
    and an option without value. *)
Lemma parseArgs_postconditions_witness :
  let on_prototype := fun key => eq_str key (u "constructor") in
  let args := [u "--theme"; u "green"; u "a.md"; u "--title"] in
  exists options, parseArgs on_prototype (u "2024") args = Some options /\
    exists output, options !! u "output" = Some (Some output) /\ output <> [].
Proof.
  intros on_prototype args.
  assert (H : is_Some (parseArgs on_prototype (u "2024") args))
    by (vm_compute; eexists; reflexivity).
  destruct H as [options E]. exists options. split; [exact E|].
  apply (parseArgs_postconditions _ _ _ _ E).
Defined.

(** The output path that [parseArgs] gives when the command line holds the
    input path and nothing else: the input path with [.docx] in the place
    of a final [.md], and the input path itself when it does not end with
    [.md], so that the document is then written over the input file. *)
Theorem parseArgs_default_output on_prototype today input :
  startsWith (u "--") input = false -> input <> [] ->
  exists options,
    parseArgs on_prototype today [input] = Some options /\
    options !! u "input" = Some (Some input) /\
    (forall stem, input = stem ++ u ".md" ->
       options !! u "output" = Some (Some (stem ++ u ".docx"))) /\
    ((forall stem, input <> stem ++ u ".md") ->
       options !! u "output" = Some (Some input)).
Proof.
  intros Hdash Hne. unfold parseArgs. cbn [parseArgs_loop]. rewrite Hdash.
  change (falsy (default_options today !! u "input")) with true. cbn iota.
  rewrite lookup_insert_eq. destruct input as [|c input']; [done|].
  rewrite lookup_insert_ne by (intros H; vm_compute in H; discriminate).
  change (default_options today !! u "theme") with (Some (Some (u "blue"))).
  change (get on_prototype THEME_COLORS (to_key (Some (Some (u "blue")))))
    with (own blue_colors). cbv zeta. cbn iota.
  rewrite lookup_insert_ne by (intros H; vm_compute in H; discriminate).
  change (default_options today !! u "output") with (Some (@None (list N))).
  cbn [falsy].
  eexists. split; [reflexivity|]. rewrite lookup_insert_eq.
  rewrite lookup_insert_ne by (intros H; vm_compute in H; discriminate).
  rewrite lookup_insert_eq. split_and!; [done | |].
  - intros stem ->. by rewrite replace_md_suffix.
  - intros Hno. by rewrite replace_md_other.
Qed.

(** [parseArgs_default_output] on an input path that does not end with
    [.md]. *)
Lemma parseArgs_default_output_witness :
  let on_prototype := fun key => eq_str key (u "constructor") in
  exists options,
    parseArgs on_prototype (u "2024-01-01") [u "notes.markdown"] = Some options /\
    options !! u "output" = Some (Some (u "notes.markdown")).
Proof.
  intros on_prototype.
  destruct (parseArgs_default_output on_prototype (u "2024-01-01")
              (u "notes.markdown")) as (options & E & _ & _ & Hother);
    [reflexivity | discriminate |].
  exists options. split; [done|]. apply Hother.
  intros stem H. apply (f_equal (@rev _)) in H. rewrite rev_app_distr in H.
  vm_compute in H. discriminate.
Defined.

(** ** The width of the columns of a table *)

Local Open Scope Q_scope.

Lemma round_half_even_ge t N :
  inject_Z N <= t -> (N <= round_half_even t)%Z.
Proof.
  intros Ht. unfold round_half_even.
  assert (Hle : (N <= Qfloor t)%Z).
  { rewrite <- (Qfloor_Z N). by apply Qfloor_resp_le. }
  destruct (Qcompare _ _); [destruct (Z.even _) | |]; lia.
Qed.

Lemma round_half_even_lt t N :
  t < inject_Z N - (1 # 2) -> (round_half_even t < N)%Z.
Proof.
  intros Ht. unfold round_half_even.
  pose proof (Qfloor_le t) as Hf. pose proof (Qlt_floor t) as Hf'.
  assert (Hlt : inject_Z (Qfloor t) < inject_Z N) by lra.
  rewrite <- Zlt_Qlt in Hlt.
  destruct (Qcompare_spec (t - inject_Z (Qfloor t)) (1 # 2)) as [He|Hl|Hg].
  - assert (Qfloor t + 1 < N)%Z; [|destruct (Z.even _); lia].
    rewrite Zlt_Qlt, inject_Z_plus. change (inject_Z 1) with 1. lra.
  - done.
  - rewrite Zlt_Qlt, inject_Z_plus. change (inject_Z 1) with 1. lra.
Qed.

(** The quotient of two integers below [2^53], rounded to a double and
    then down to an integer, is the integer quotient. *)
Lemma ffloor_fdiv_exact a n :
  (0 <= a < 2 ^ 53)%Z -> (1 <= n < 2 ^ 53)%Z ->
  ffloor (fdiv (of_Z a) (of_Z n)) = of_Z (a / n).
Proof.
  intros [Ha0 Ha] [Hn1 Hn]. unfold fdiv, of_Z. rewrite is_zero_inject.
  destruct (Z.eqb_spec n 0) as [|_]; [lia|].
  set (k := (a / n)%Z).
  assert (Hnq : 1 <= inject_Z n).
  { change 1 with (inject_Z 1). rewrite <- Zle_Qle. lia. }
  remember (inject_Z a / inject_Z n) as q eqn:Eq.
  assert (Hk0 : (0 <= k)%Z) by (apply Z.div_pos; lia).
  assert (Hmod : (a = n * k + a mod n)%Z) by (apply Z.div_mod; lia).
  pose proof (Z.mod_pos_bound a n ltac:(lia)) as Hrem.
  assert (Hqn : q * inject_Z n == inject_Z a) by (rewrite Eq; field; lra).
  assert (Hkq : inject_Z k <= q).
  { rewrite Eq. apply Qle_shift_div_l; [lra|].
    rewrite <- inject_Z_mult, <- Zle_Qle. lia. }
  assert (Hqk : q * inject_Z n <= (inject_Z k + 1) * inject_Z n - 1).
  { assert (Hz : (a <= (k + 1) * n + -1)%Z) by lia.
    rewrite Zle_Qle, inject_Z_plus, inject_Z_mult, inject_Z_plus in Hz.
    change (inject_Z (-1)) with (-1) in Hz. change (inject_Z 1) with 1 in Hz.
    rewrite Hqn. lra. }
  unfold rnd. destruct (Qnum q) eqn:Enum.
  - simpl. f_equal. f_equal. change (Qfloor 0) with 0%Z.
    assert (Hq0 : q == 0) by (unfold Qeq; rewrite Enum; reflexivity).
    assert (inject_Z k <= 0) by lra.
    change 0 with (inject_Z 0) in H. rewrite <- Zle_Qle in H.
    change (0 / 1)%Z with 0%Z. clear -H Hk0. lia.
  - assert (Hpos : 0 < q).
    { unfold Qlt. simpl. rewrite Enum. lia. }
    cbv zeta.
    set (fl := floor_log2 q).
    pose proof (floor_log2_lower q Hpos) as Hlow. fold fl in Hlow.
    assert (Ha53 : inject_Z a < pow2 53).
    { rewrite pow2_inject by lia. by rewrite <- Zlt_Qlt. }
    assert (Hqa : q <= inject_Z a).
    { rewrite Eq. apply Qle_shift_div_r; [lra|].
      assert (0 <= inject_Z a) by (change 0 with (inject_Z 0); rewrite <- Zle_Qle; lia).
      nra. }
    assert (Hfl : (fl <= 52)%Z).
    { destruct (Z.le_gt_cases fl 52) as [|Hgt]; [done|]. exfalso.
      pose proof (pow2_le 53 fl ltac:(lia)) as H2. lra. }
    set (e := Z.max (fl - 52) (-1074)).
    assert (He : (e <= 0)%Z) by lia.
    set (K := (2 ^ (- e))%Z).
    assert (HK : (0 < K)%Z) by (apply Z.pow_pos_nonneg; lia).
    assert (HKq : 0 < inject_Z K).
    { change 0 with (inject_Z 0). by rewrite <- Zlt_Qlt. }
    assert (Hpe : pow2 e == / inject_Z K).
    { replace e with (- - e)%Z at 1 by lia. unfold pow2. rewrite Qpower_opp.
      fold (pow2 (- e)). by rewrite pow2_inject by lia. }
    assert (HnK : inject_Z n < 2 * inject_Z K).
    { destruct (Z.max_spec (fl - 52) (-1074)) as [[_ Hmax]|[_ Hmax]]; fold e in Hmax.
      - assert (2 ^ 53 <= 2 * K)%Z.
        { unfold K. rewrite Hmax. change (2 * 2 ^ (- -1074))%Z with (2 ^ 1075)%Z.
          apply Z.pow_le_mono_r; lia. }
        change 2 with (inject_Z 2). rewrite <- inject_Z_mult, <- Zlt_Qlt. lia.
      - assert (HK2 : 2 * inject_Z K == pow2 (53 - fl)).
        { unfold K. rewrite Hmax. rewrite <- pow2_inject by lia.
          replace (53 - fl)%Z with (1 + - (fl - 52))%Z by lia.
          unfold pow2. rewrite Qpower_plus by discriminate. done. }
        rewrite HK2.
        assert (Hsplit : pow2 (53 - fl) * pow2 fl == pow2 53).
        { unfold pow2. rewrite <- Qpower_plus by discriminate.
          by replace (53 - fl + fl)%Z with 53%Z by lia. }
        pose proof (pow2_pos fl) as Hpf. pose proof (pow2_pos (53 - fl)) as Hpf'.
        assert (inject_Z n * pow2 fl < pow2 (53 - fl) * pow2 fl); [|nra].
        rewrite Hsplit. nra. }
    set (t := q / pow2 e).
    assert (Ht : t == q * inject_Z K).
    { unfold t. rewrite Hpe. field. lra. }
    set (m := round_half_even t).
    assert (Hm0 : (k * K <= m)%Z).
    { apply round_half_even_ge. rewrite Ht, inject_Z_mult. nra. }
    assert (Hm1 : (m < (k + 1) * K)%Z).
    { apply round_half_even_lt. rewrite Ht, inject_Z_mult, inject_Z_plus.
      change (inject_Z 1) with 1.
      assert (q * inject_Z K * inject_Z n
              < ((inject_Z k + 1) * inject_Z K - (1 # 2)) * inject_Z n); [|nra].
      nra. }
    set (r := Qred (inject_Z m * pow2 e)).
    assert (Hr : r == inject_Z m / inject_Z K).
    { unfold r. by rewrite Qred_correct, Hpe. }
    assert (Hr0 : inject_Z k <= r).
    { rewrite Hr. apply Qle_shift_div_l; [done|].
      by rewrite <- inject_Z_mult, <- Zle_Qle. }
    assert (Hr1 : r < inject_Z (k + 1)).
    { rewrite Hr. apply Qlt_shift_div_r; [done|].
      by rewrite <- inject_Z_mult, <- Zlt_Qlt. }
    assert (Hov : Qle_bool (pow2 1024) r = false).
    { destruct (Qle_bool (pow2 1024) r) eqn:E; [|done].
      apply Qle_bool_iff in E. exfalso.
      pose proof (pow2_le 53 1024 ltac:(lia)).
      assert (inject_Z (k + 1) <= inject_Z a + 1).
      { rewrite inject_Z_plus. change (inject_Z 1) with 1. lra. }
      assert (pow2 53 == inject_Z (2 ^ 53)) by (by apply pow2_inject).
      assert (inject_Z a + 1 <= inject_Z (2 ^ 53)).
      { change 1 with (inject_Z 1). rewrite <- inject_Z_plus, <- Zle_Qle. lia. }
      lra. }
    rewrite Hov. simpl. do 2 f_equal.
    pose proof (Qfloor_le r). pose proof (Qlt_floor r).
    assert (inject_Z (Qfloor r) < inject_Z (k + 1)) by lra.
    assert (inject_Z k < inject_Z (Qfloor r + 1)) by lra.
    rewrite <- Zlt_Qlt in *. lia.
  - exfalso.
    assert (0 <= q).
    { rewrite Eq. apply Qle_shift_div_l; [lra|]. rewrite Qmult_0_l.
      change 0 with (inject_Z 0). rewrite <- Zle_Qle. lia. }
    unfold Qle in H. simpl in H. rewrite Enum in H. lia.
Qed.

Local Close Scope Q_scope.

(** The columns of a table: [Math.floor(tableWidth / colCount)], computed on
    doubles, is the integer quotient of the two, the number of the cells of
    a row being below [2^32] as the length of an array is.  Every column and
    every cell has this width, so that the columns that [columnWidths]
    declares never add up to more than the width of the table. *)
Theorem table_columns_fit env inputDir indent rows :
  (0 <= indent <= CONTENT_WIDTH)%Z ->
  (Z.of_nat (colCount_of rows) < 2 ^ 32)%Z ->
  let tableWidth := (CONTENT_WIDTH - indent)%Z in
  let colWidth := (tableWidth / Z.of_nat (colCount_of rows))%Z in
  match convert_table env inputDir indent rows with
  | Table columnWidths tableRows width _ =>
      width = tableWidth /\
      columnWidths = replicate (colCount_of rows) (of_Z colWidth) /\
      Forall (fun tr => Forall (fun c => c_width c = of_Z colWidth) (tr_cells tr))
        tableRows /\
      (Z.of_nat (colCount_of rows) * colWidth <= tableWidth)%Z
  | Paragraph _ => False
  end.
Proof.
  intros Hind Hcount tableWidth colWidth. unfold convert_table.
  fold (colCount_of rows). fold tableWidth.
  assert (Hc1 : (1 <= Z.of_nat (colCount_of rows))%Z).
  { unfold colCount_of. destruct rows as [|row0 rows']; [lia|].
    destruct (length row0); lia. }
  rewrite (ffloor_fdiv_exact tableWidth (Z.of_nat (colCount_of rows))).
  - fold colWidth. split_and!; [done | done | |].
    + apply Forall_forall. intros tr Htr.
      apply list_elem_of_lookup in Htr as [i Hi].
      rewrite list_lookup_imap in Hi.
      destruct (rows !! i) as [row|]; [|done]. injection Hi as <-. simpl.
      apply Forall_forall. intros c Hc. apply list_elem_of_In, in_map_iff in Hc.
      by destruct Hc as (x & <- & _).
    + unfold colWidth. apply Z.mul_div_le. lia.
  - unfold tableWidth, CONTENT_WIDTH, PAGE_WIDTH, MARGIN in *. lia.
  - lia.
Qed.

(** [table_columns_fit] on a table of three columns under a level-2
    heading: 8666 by 3 is 2888. *)
Lemma table_columns_fit_witness :
  let env := NodeEnv (fun d p => d ++ p) (fun _ => false) (fun _ => None)
               (fun _ => []) in
  match convert_table env (u "/doc") 360 [[u "a"; u "b"; u "c"]; [u "d"]] with
  | Table columnWidths _ width _ =>
      columnWidths = replicate 3 (of_Z 2888) /\ (3 * 2888 <= width)%Z
  | Paragraph _ => False
  end.
Proof.
  intros env.
  pose proof (table_columns_fit env (u "/doc") 360 [[u "a"; u "b"; u "c"]; [u "d"]]
                ltac:(vm_compute; split; discriminate) ltac:(vm_compute; reflexivity))
    as H.
  cbv zeta in H. destruct (convert_table _ _ _ _); [done|].
  destruct H as (-> & -> & _ & H). split; [reflexivity | exact H].
Defined.

(** ** Trimmed cells *)

Lemma drop_while_fixed (p : cu -> bool) s :
  match s with [] => True | c :: _ => p c = false end -> drop_while p s = s.
Proof. destruct s as [|c s]; simpl; [done|]. by intros ->. Qed.

Lemma drop_while_suffix (p : cu -> bool) s : exists w, s = w ++ drop_while p s.
Proof. exists (take_while p s). by rewrite take_drop_while. Qed.

Lemma trim_idemp s : trim (trim s) = trim s.
Proof.
  unfold trim.
  set (t := drop_while is_space s).
  set (r := drop_while is_space (rev t)).
  assert (Hr : match r with [] => True | c :: _ => is_space c = false end)
    by apply drop_while_head.
  assert (Ht : match t with [] => True | c :: _ => is_space c = false end)
    by apply drop_while_head.
  assert (Hrev : match rev r with [] => True | c :: _ => is_space c = false end).
  { destruct (drop_while_suffix is_space (rev t)) as [w Hw]. fold r in Hw.
    apply (f_equal (@rev _)) in Hw. rewrite rev_involutive, rev_app_distr in Hw.
    destruct (rev r) as [|c x] eqn:E; [done|].
    rewrite Hw in Ht. done. }
  rewrite (drop_while_fixed _ (rev r) Hrev), rev_involutive.
  by rewrite (drop_while_fixed _ r Hr).
Qed.

Lemma drop_while_sublist (p : cu -> bool) s x : x ∈ drop_while p s -> x ∈ s.
Proof.
  destruct (drop_while_suffix p s) as [w Hw]. rewrite Hw at 2.
  rewrite elem_of_app. by right.
Qed.

Lemma trim_sublist s x : x ∈ trim s -> x ∈ s.
Proof.
  unfold trim. rewrite list_elem_of_In, <- in_rev, <- list_elem_of_In. intros H.
  apply drop_while_sublist in H.
  rewrite list_elem_of_In, <- in_rev, <- list_elem_of_In in H.
  by apply drop_while_sublist in H.
Qed.

Lemma parseTableRow_clean line : Forall clean_cell (parseTableRow line).
Proof.
  unfold parseTableRow. cbv zeta. apply Forall_forall. intros c Hc.
  apply list_elem_of_In, in_map_iff in Hc as ([i c'] & <- & Hc).
  apply filter_In in Hc as [Hc _].
  apply list_elem_of_In, list_elem_of_lookup in Hc as [j Hj].
  rewrite list_lookup_imap in Hj.
  destruct (List.map trim (split 124%N line) !! j) as [x|] eqn:E; [|done].
  injection Hj as _ <-. simpl.
  apply list_elem_of_lookup_2, list_elem_of_In, in_map_iff in E as (y & <- & Hy).
  split; [apply trim_idemp|].
  intros Hin. apply trim_sublist in Hin.
  pose proof (split_pieces 124%N line) as Hp. rewrite Forall_forall in Hp.
  by apply (Hp y); [apply list_elem_of_In|].
Qed.

Lemma dataRows_of_clean rest : Forall (Forall clean_cell) (dataRows_of rest).
Proof.
  induction rest as [|line rest IH]; simpl; [constructor|].
  destruct (includes _ line); constructor; [apply parseTableRow_clean | done].
Qed.

Lemma changelog_row_clean i line r :
  changelog_row i line = Some r ->
  clean_cell (version r) /\ clean_cell (date r) /\ clean_cell (description r).
Proof.
  unfold changelog_row. cbv zeta. repeat case_match; try discriminate.
  intros [= <-]. simpl.
  pose proof (parseTableRow_clean (trim line)) as Hc.
  match goal with H : Nat.leb 3 _ = true |- _ => apply Nat.leb_le in H end.
  rewrite Forall_forall in Hc.
  split_and!; apply Hc, list_elem_of_In, nth_In; lia.
Qed.

(** What [extractChangelog] returns, when it is not [null]: a list that is
    not empty, of records whose version, date and description hold no
    whitespace at their ends and no cell separator. *)
Theorem extractChangelog_records markdown dataRows :
  extractChangelog markdown = Some dataRows ->
  dataRows <> [] /\
  Forall (fun r => clean_cell (version r) /\ clean_cell (date r) /\
                   clean_cell (description r)) dataRows.
Proof.
  unfold extractChangelog. destruct (exec re_changelog markdown) as [m|]; [|done].
  cbv zeta. destruct (Nat.ltb_spec 0 (length (changelog_rows (group 1 m))));
    [|done].
  intros [= <-]. split; [by destruct (changelog_rows _); simpl in *; [lia|]|].
  unfold changelog_rows. cbv zeta. apply Forall_forall. intros r Hr.
  apply list_elem_of_omap in Hr as (o & Ho & Hr). simpl in Hr. subst o.
  apply list_elem_of_lookup in Ho as [i Hi]. rewrite list_lookup_imap in Hi.
  destruct (_ !! i) as [line|]; [|done]. injection Hi as Hi.
  by eapply changelog_row_clean.
Qed.

(** [extractChangelog_records] on a changelog of one row. *)
Lemma extractChangelog_records_witness :
  let markdown :=
    u "<!-- CHANGELOG -->" ++ [10%N] ++ u "| 1.0 |  2025-01-01 | first  |"
    ++ [10%N] ++ u "<!-- /CHANGELOG -->" in
  extractChangelog markdown
  = Some [ChangelogRecord (u "1.0") (u "2025-01-01") (u "first")] /\
  clean_cell (u "2025-01-01").
Proof.
  intros markdown.
  assert (E : extractChangelog markdown
              = Some [ChangelogRecord (u "1.0") (u "2025-01-01") (u "first")])
    by (vm_compute; reflexivity).
  split; [exact E|].
  destruct (extractChangelog_records markdown _ E) as [_ H].
  apply Forall_cons in H as [(_ & H & _) _]. exact H.
Defined.

(** ** The elements that [parse] returns *)

Lemma nonempty_length {A} (l : list A) : 1 <= length l -> l <> [].
Proof. destruct l; simpl; [lia | done]. Qed.

Lemma re_heading_groups line m :
  exec re_heading line = Some m ->
  1 <= length (group 1 m) <= 6 /\ group 2 m <> [].
Proof.
  unfold re_heading. intros H.
  apply exec_bol_sound in H as (w & s' & c & -> & -> & M).
  unfold between, plus in M. inv_matches. unfold group; simpl.
  split; [split; [done | eauto] | by apply nonempty_length].
Qed.

Lemma re_image_groups line m :
  exec re_image line = Some m -> group 2 m <> [].
Proof.
  unfold re_image. intros H.
  apply exec_bol_sound in H as (w & s' & c & -> & -> & M).
  unfold star, plus, lit in M. inv_matches. unfold group; simpl.
  by apply nonempty_length.
Qed.

Lemma imgPattern_groups line m :
  exec imgPattern line = Some m -> group 1 m <> [].
Proof.
  unfold imgPattern. intros H.
  apply exec_sound in H as (pre & w & s' & c & -> & -> & M & _).
  unfold star, plus, lit, lit_i in M. inv_matches. unfold group; simpl.
  by apply nonempty_length.
Qed.

Lemma topPattern_groups lt line m :
  exec (topPattern lt) line = Some m -> group 1 m <> [].
Proof.
  destruct lt; unfold topPattern; intros H;
    apply exec_bol_sound in H as (w & s' & c & -> & -> & M);
    unfold plus, lit in M; inv_matches; unfold group; simpl;
    by apply nonempty_length.
Qed.

Lemma re_nested_groups line m :
  exec re_nested line = Some m -> group 2 m <> [].
Proof.
  unfold re_nested; intros H.
  apply exec_bol_sound in H as (w & s' & c & -> & -> & M).
  unfold plus in M; inv_matches. unfold group; simpl.
  by apply nonempty_length.
Qed.

Lemma list_items_well_formed lt rest :
  Forall (fun it => item_level it <= 3 /\ item_text it <> [])
    (list_items lt rest).1.
Proof.
  induction rest as [|line rest IH]; simpl; [constructor|].
  destruct (exec (topPattern lt) line) eqn:E1.
  { destruct (list_items lt rest); simpl in *. constructor; [|done].
    simpl. split; [lia | by eapply topPattern_groups]. }
  destruct (exec re_nested line) eqn:E2.
  { destruct (list_items lt rest); simpl in *. constructor; [|done].
    simpl. split; [lia | by eapply re_nested_groups]. }
  destruct (is_blank line); constructor.
Qed.

Lemma list_items_nonempty lt line rest' :
  is_blank line = false -> no_item lt line = false ->
  (list_items lt (line :: rest')).1 <> [].
Proof.
  unfold no_item, test. intros Hb H. simpl.
  destruct (exec (topPattern lt) line) eqn:E1.
  - by destruct (list_items lt rest').
  - destruct (exec re_nested line) eqn:E2; [|done].
    by destruct (list_items lt rest').
Qed.

Lemma join_nonempty sep x l : x <> [] -> join sep (x :: l) <> [].
Proof. destruct x; [done|]. by destruct l. Qed.

Lemma para_break_nonempty line : para_break line = false -> line <> [].
Proof. by destruct line. Qed.

Lemma Forall_snoc_1 {A} (P : A -> Prop) l x :
  Forall P l -> P x -> Forall P (l ++ [x]).
Proof. intros. apply Forall_app; split; [done | by constructor]. Qed.

Lemma parse_line_well_formed ps line :
  lines ps !! pos ps = Some line ->
  stuck line = false \/ table_start ps line = true ->
  Forall well_formed (elements ps) ->
  Forall well_formed (elements (parse_line ps line)).
Proof.
  intros Hl Hs Hwf. pose proof (rest_cursor _ _ Hl) as Hr.
  unfold parse_line.
  destruct (is_blank line) eqn:Hb; [done|].
  destruct (startsWith fence line) eqn:Hf.
  { unfold parseCodeBlock; simpl. by apply Forall_snoc_1. }
  unfold stuck, test in *. rewrite ?Hb, ?Hf in Hs.
  destruct (exec re_pagebreak line) eqn:Hp.
  { simpl. by apply Forall_snoc_1. }
  destruct (exec re_heading line) eqn:Hh.
  { simpl. apply Forall_snoc_1; [done|]. by apply re_heading_groups in Hh. }
  destruct (exec re_image line) eqn:Hi.
  { simpl. apply Forall_snoc_1; [done|]. simpl. by eapply re_image_groups. }
  destruct (exec imgPattern line) eqn:Hg.
  { simpl. apply Forall_snoc_1; [done|]. simpl. by eapply imgPattern_groups. }
  destruct (table_start ps line) eqn:Ht.
  { unfold parseTable; simpl. apply Forall_snoc_1; [done|]. split; [done|].
    constructor; [apply parseTableRow_clean | apply dataRows_of_clean]. }
  destruct Hs as [Hs|]; [|done]. cbn [negb andb] in Hs.
  destruct (exec re_bullet line) eqn:Hbu.
  { unfold parseList. rewrite Hr.
    pose proof (list_items_nonempty bullet line (drop (S (pos ps)) (lines ps)) Hb Hs).
    pose proof (list_items_well_formed bullet (line :: drop (S (pos ps)) (lines ps))).
    destruct (list_items _ _); simpl in *. by apply Forall_snoc_1. }
  destruct (exec re_number line) eqn:Hnu.
  { unfold parseList. rewrite Hr.
    pose proof (list_items_nonempty number line (drop (S (pos ps)) (lines ps)) Hb Hs).
    pose proof (list_items_well_formed number (line :: drop (S (pos ps)) (lines ps))).
    destruct (list_items _ _); simpl in *. by apply Forall_snoc_1. }
  destruct (startsWith (u ">") line) eqn:Hq.
  { unfold parseBlockquote. simpl. by apply Forall_snoc_1. }
  destruct (exec re_hr line) eqn:Hhr.
  { simpl. by apply Forall_snoc_1. }
  cbn [negb andb] in Hs. unfold parseParagraph.
  rewrite Hr, (paraLines_of_cons _ _ Hs). cbn -[join u].
  apply Forall_snoc_1; [done|]. cbn -[join u].
  apply join_nonempty. by apply para_break_nonempty.
Qed.

Lemma parse_loop_well_formed fuel ps ps' :
  parse_loop fuel ps = Some ps' ->
  Forall well_formed (elements ps) -> Forall well_formed (elements ps').
Proof.
  revert ps; induction fuel as [|fuel IH]; intros ps; simpl;
    destruct (Nat.ltb_spec (pos ps) (length (lines ps))) as [Hlt|];
    try discriminate; try (by intros [= <-]).
  intros H Hwf. apply (IH _ H). unfold parse_step in *.
  destruct (lookup_lt_is_Some_2 _ _ Hlt) as [line Hl]. rewrite Hl in *.
  destruct (stuck line) eqn:Hs; [|by apply parse_line_well_formed; auto].
  destruct (table_start ps line) eqn:Ht; [by apply parse_line_well_formed; auto|].
  destruct (parse_line_stuck ps line Hl Hs Ht) as [pushed E].
  rewrite (parse_loop_stuck_line (parse_line ps line) line) in H; [done | | done |].
  - by rewrite E.
  - rewrite E. unfold table_start in *. by simpl.
Qed.

(** The elements that [parse] returns: a heading has a level between 1 and
    6 and a text that is not empty, a list has an item at least, every item
    a level between 0 and 3 and a text that is not empty, a table has a row
    at least and its cells hold no whitespace at their ends and no cell
    separator, and neither the source of an image nor the text of a
    paragraph is empty. *)
Theorem parse_output_well_formed fuel markdown els :
  parse fuel markdown = Some els -> Forall well_formed els.
Proof.
  unfold parse. intros H.
  destruct (parse_loop fuel (new_parser markdown)) as [ps'|] eqn:E; [|done].
  injection H as <-. eapply parse_loop_well_formed; [done|]. constructor.
Qed.

(** [parse_output_well_formed] on a document with a heading, a numbered list
    with a nested item and a table. *)
Lemma parse_output_well_formed_witness :
  let md := u "## Title" ++ [10%N] ++ u "1. a" ++ [10%N] ++ u "      - b"
            ++ [10%N; 10%N] ++ u "a | b" ++ [10%N] ++ u "--|--" in
  exists els, parse 6 md = Some els /\ Forall well_formed els.
Proof.
  intros md. eexists. split; [vm_compute; reflexivity|].
  apply (parse_output_well_formed 6 md). vm_compute. reflexivity.
Defined.

(** ** Block quotes *)

Lemma rep_run_exhausted {R} g (p : cu -> bool) i s (k : nat -> str -> option R) :
  rep_run g p 0 (Some 0) i s k = k i s.
Proof.
  destruct s as [|c s]; simpl.
  - destruct g; [done | by destruct (k i [])].
  - rewrite andb_false_r. destruct g; [done | by destruct (k i (c :: s))].
Qed.

Lemma replace_quote_marker body :
  replace_empty re_quote_marker (62%N :: body) = unquote body.
Proof.
  unfold replace_empty, re_quote_marker. rewrite exec_bol.
  destruct body as [|c body]; [reflexivity|].
  unfold match_at, lit, opt. cbn [rmatch]. 
  change (lit_match false (u ">") (62%N :: c :: body)) with (Some (c :: body)).
  cbn iota. cbn [rep_run]. unfold unquote.
  destruct (is_space c); [|reflexivity].
  change (true && hi_ok (Some 1)) with true. cbn iota.
  change (hi_pred (Some 1)) with (Some 0). rewrite rep_run_exhausted.
  reflexivity.
Qed.

Lemma quoteLines_of_app bodies tail :
  match tail with [] => True | l :: _ => startsWith (u ">") l = false end ->
  quoteLines_of (List.map (cons 62%N) bodies ++ tail) = List.map unquote bodies.
Proof.
  intros Ht. induction bodies as [|b bodies IH].
  - destruct tail as [|l tail]; [done|]. cbn [List.map app].
    by rewrite quoteLines_of_cons, Ht.
  - cbn [List.map app]. rewrite quoteLines_of_cons.
    change (startsWith (u ">") (62%N :: b)) with true. cbn iota.
    by rewrite replace_quote_marker, IH.
Qed.

(** [parseBlockquote] on a run of lines that start with [>], up to a line
    that does not or to the end of the document: every line loses its
    marker and the one whitespace that may follow it, and nothing else; the
    lines are joined by line feeds into one element, and the cursor is
    behind the run. *)
Theorem parseBlockquote_strips_the_marker ps bodies tail :
  rest ps = List.map (cons 62%N) bodies ++ tail ->
  match tail with [] => True | l :: _ => startsWith (u ">") l = false end ->
  parseBlockquote ps
  = Parser (lines ps) (pos ps + length bodies)
      (elements ps ++ [blockquote (join [10%N] (List.map unquote bodies))]).
Proof.
  intros Hr Ht. unfold parseBlockquote. cbv zeta.
  rewrite Hr, (quoteLines_of_app _ _ Ht), length_map. reflexivity.
Qed.

(** [parseBlockquote_strips_the_marker] on a quote of two lines, the second
    one a nested quote. *)
Lemma parseBlockquote_strips_the_marker_witness :
  let ps := new_parser (u ">  two" ++ [10%N] ++ u ">> nested" ++ [10%N]
                        ++ u "text") in
  parseBlockquote ps
  = Parser (lines ps) 2 [blockquote (u " two" ++ [10%N] ++ u "> nested")].
Proof.
  intros ps.
  apply (parseBlockquote_strips_the_marker ps [u "  two"; u "> nested"] [u "text"]);
    vm_compute; reflexivity.
Defined.

(** ** The numberings that the content uses *)

Lemma convert_item_numbering env inputDir lt listRef indent it ref :
  numbering_of (convert_item env inputDir lt listRef indent it) = Some ref ->
  lt = number /\ ref = listRef.
Proof.
  unfold convert_item. cbv zeta.
  destruct lt; destruct (item_level it); simpl; try discriminate.
  by intros [= <-].
Qed.

Lemma convert_element_numbering env inputDir m st el b ref :
  b ∈ (convert_element env inputDir m st el).1 ->
  numbering_of b = Some ref ->
  exists items, el = list_ number items /\
    ref = listRef_of (numberListRef st + 1) (currentSectionIndent st).
Proof.
  intros Hb Hn.
  destruct el as [|level text|alt src w h|rows|lt items|text| |text|language content];
    simpl in Hb.
  - apply list_elem_of_singleton in Hb as ->. discriminate.
  - apply list_elem_of_singleton in Hb as ->. discriminate.
  - apply list_elem_of_singleton in Hb as ->. unfold convert_image in Hn.
    by repeat case_match.
  - apply list_elem_of_singleton in Hb as ->. discriminate.
  - apply list_elem_of_In, in_map_iff in Hb as (it & <- & _).
    apply convert_item_numbering in Hn as [-> ->]. by exists items.
  - apply list_elem_of_singleton in Hb as ->. discriminate.
  - apply list_elem_of_singleton in Hb as ->. discriminate.
  - apply list_elem_of_singleton in Hb as ->. discriminate.
  - destruct (eq_str language (u "mermaid")).
    + destruct (m !! content) as [[imageData|]|]; simpl in Hb;
        apply list_elem_of_singleton in Hb as ->; try discriminate.
      unfold mermaid_image in Hn. cbv zeta in Hn.
      by destruct (scale_image _ _ _).
    + simpl in Hb. apply list_elem_of_In, in_map_iff in Hb as (l & <- & _).
      discriminate.
Qed.

Lemma convert_from_numbering env inputDir m st els b ref :
  b ∈ convert_from env inputDir m st els ->
  numbering_of b = Some ref ->
  ref ∈ (nc_reference <$>
           numberConfigs_from (numberListRef st) (currentSectionIndent st) els).
Proof.
  revert st; induction els as [|el els IH]; intros st Hb Hn; simpl in Hb.
  { by apply elem_of_nil in Hb. }
  pose proof (convert_element_indent env inputDir m st el) as Hind.
  destruct (convert_element env inputDir m st el) as [blocks st'] eqn:E.
  apply elem_of_app in Hb as [Hb|Hb].
  - destruct (convert_element_numbering env inputDir m st el b ref) as (items & -> & ->);
      [by rewrite E | done |].
    simpl. left.
  - specialize (IH st' Hb Hn). simpl in Hind.
    assert (Hst : numberListRef st'
                  = match el with
                    | list_ number _ => (numberListRef st + 1)%Z
                    | _ => numberListRef st
                    end).
    { destruct el as [| | | |[|] items| | | |]; simpl in E;
        try (by injection E as _ <-).
      destruct (eq_str _ _); [destruct (m !! _) as [[?|]|]|]; by injection E as _ <-. }
    rewrite Hst, Hind in IH. simpl.
    destruct el as [|level text| | |[|] items| | | |]; try done.
    simpl. by right.
Qed.

(** Every numbering that a paragraph of the content refers to is one of
    those that [main] declares: the loop of [main] over the elements and
    the loop of [convertElements] count the numbered lists and follow the
    headings in the same way. *)
Theorem numbering_references_declared env inputDir m els b ref :
  b ∈ convertElements env inputDir m els ->
  numbering_of b = Some ref ->
  ref ∈ (nc_reference <$> numberConfigs els).
Proof. apply convert_from_numbering. Qed.

(** [numbering_references_declared] on the second of two numbered lists
    under a level-2 heading. *)
Lemma numbering_references_declared_witness :
  let env := NodeEnv (fun d s => d ++ s) (fun _ => false) (fun _ => None)
               (fun _ => []) in
  let els := [heading 2 (u "h"); list_ number [Item (u "a") 0];
              list_ number [Item (u "b") 0]] in
  u "number-2-indent360" ∈ (nc_reference <$> numberConfigs els).
Proof.
  intros env els.
  apply (numbering_references_declared env (u "dir") ∅ els
           (Paragraph (Para None None None None (Some (u "number-2-indent360", 0%Z))
                         None None false [plainRun (u "b")]))).
  - vm_compute. do 2 right. left.
  - reflexivity.
Defined.

(** ** The size of a scaled diagram *)

Local Open Scope Q_scope.

Lemma round_half_even_upper t :
  inject_Z (round_half_even t) <= t + (1 # 2).
Proof.
  unfold round_half_even.
  pose proof (Qfloor_le t) as Hf.
  destruct (Qcompare_spec (t - inject_Z (Qfloor t)) (1 # 2)) as [He|Hl|Hg].
  - destruct (Z.even _); [lra|].
    rewrite inject_Z_plus. change (inject_Z 1) with 1. lra.
  - lra.
  - rewrite inject_Z_plus. change (inject_Z 1) with 1. lra.
Qed.

(** The error of a rounding upwards: half a unit in the last place, which
    is at most the fraction [2^-53] of the number, or [2^-1075] for the
    smallest numbers. *)
Lemma rnd_upper q :
  0 <= q -> q <= pow2 1000 ->
  exists r, rnd q = Fin r /\ 0 <= r /\
            r <= q + q * pow2 (-53) + pow2 (-1075).
Proof.
  intros Hq Hq1000. unfold rnd.
  pose proof (pow2_pos (-53)) as HU. pose proof (pow2_pos (-1075)) as HT.
  destruct (Qnum q) eqn:Enum.
  - exists 0. split_and!; [done | lra | nra].
  - assert (Hpos : 0 < q).
    { unfold Qlt. simpl. rewrite Enum. lia. }
    cbv zeta.
    set (fl := floor_log2 q).
    pose proof (floor_log2_lower q Hpos) as Hlow. fold fl in Hlow.
    set (e := Z.max (fl - 52) (-1074)).
    pose proof (pow2_pos e) as Hpe.
    set (t := q / pow2 e).
    assert (Ht : t * pow2 e == q) by (unfold t; field; lra).
    set (m := round_half_even t).
    pose proof (round_half_even_upper t) as Hm. fold m in Hm.
    assert (Hm0 : (0 <= m)%Z).
    { apply round_half_even_nonneg. unfold t. apply Qle_shift_div_l; lra. }
    assert (Hm0q : 0 <= inject_Z m).
    { change 0 with (inject_Z 0). by rewrite <- Zle_Qle. }
    set (r := Qred (inject_Z m * pow2 e)).
    assert (Hr : r == inject_Z m * pow2 e) by (unfold r; apply Qred_correct).
    assert (Hhalf : pow2 e * (1 # 2) <= q * pow2 (-53) + pow2 (-1075)).
    { destruct (Z.max_spec (fl - 52) (-1074)) as [[_ Hmax]|[_ Hmax]]; fold e in Hmax.
      - rewrite Hmax.
        assert (pow2 (-1074) * (1 # 2) == pow2 (-1075)).
        { unfold pow2. change (1 # 2) with (2 ^ (-1)).
          by rewrite <- Qpower_plus by discriminate. }
        nra.
      - rewrite Hmax.
        assert (pow2 (fl - 52) * (1 # 2) == pow2 fl * pow2 (-53)).
        { unfold pow2. change (1 # 2) with (2 ^ (-1)).
          rewrite <- !Qpower_plus by discriminate.
          by replace (fl - 52 + -1)%Z with (fl + -53)%Z by lia. }
        nra. }
    assert (Hr1 : r <= q + q * pow2 (-53) + pow2 (-1075)).
    { rewrite Hr. nra. }
    assert (Hr0 : 0 <= r) by (rewrite Hr; nra).
    assert (Hov : Qle_bool (pow2 1024) r = false).
    { destruct (Qle_bool (pow2 1024) r) eqn:E; [|done].
      apply Qle_bool_iff in E. exfalso.
      assert (pow2 (-53) <= 1) by (apply (pow2_le (-53) 0); lia).
      assert (pow2 (-1075) <= 1) by (apply (pow2_le (-1075) 0); lia).
      assert (1 <= pow2 1000) by (apply (pow2_le 0 1000); lia).
      assert (pow2 1000 * 4 <= pow2 1024).
      { change 4 with (pow2 2). unfold pow2.
        rewrite <- Qpower_plus by discriminate. apply (pow2_le 1002 1024). lia. }
      nra. }
    rewrite Hov. by exists r.
  - exfalso. unfold Qle in Hq. simpl in Hq. rewrite Enum in Hq. lia.
Qed.

Lemma pow2_m53 : pow2 (-53) == 1 # 9007199254740992.
Proof. reflexivity. Qed.

Lemma quotient_times a w :
  0 < a -> a <= 602 -> (1 <= w < 2 ^ 53)%Z ->
  exists s, fdiv (Fin a) (of_Z w) = Fin s /\ 0 <= s /\
            s * inject_Z w <= a + (a + 1) * pow2 (-53).
Proof.
  intros Ha0 Ha [Hw1 Hw]. unfold fdiv, of_Z. rewrite is_zero_inject.
  destruct (Z.eqb_spec w 0) as [|_]; [lia|].
  assert (Hwq : 1 <= inject_Z w).
  { change 1 with (inject_Z 1). rewrite <- Zle_Qle. lia. }
  assert (Hw53 : inject_Z w <= pow2 53).
  { rewrite pow2_inject by lia. rewrite <- Zle_Qle. lia. }
  assert (Hq0 : 0 <= a / inject_Z w) by (apply Qle_shift_div_l; lra).
  assert (Hqa : a / inject_Z w <= a) by (apply Qle_shift_div_r; nra).
  assert (H1000 : 602 <= pow2 1000).
  { assert (pow2 10 <= pow2 1000) by (apply pow2_le; lia).
    assert (602 <= pow2 10) by (vm_compute; discriminate). lra. }
  destruct (rnd_upper (a / inject_Z w) Hq0 ltac:(lra)) as (s & Es & Hs0 & Hs1).
  exists s. split_and!; [done | done |].
  assert (Hqw : a / inject_Z w * inject_Z w == a) by (field; lra).
  pose proof (pow2_pos (-53)) as HU. pose proof (pow2_pos (-1075)) as HT.
  assert (HwT : inject_Z w * pow2 (-1075) <= pow2 (-53)).
  { assert (pow2 53 * pow2 (-1075) == pow2 (-1022)).
    { unfold pow2. by rewrite <- Qpower_plus by discriminate. }
    assert (pow2 (-1022) <= pow2 (-53)) by (apply pow2_le; lia).
    nra. }
  assert (s * inject_Z w
          <= (a / inject_Z w + a / inject_Z w * pow2 (-53) + pow2 (-1075))
             * inject_Z w) by nra.
  assert ((a / inject_Z w + a / inject_Z w * pow2 (-53) + pow2 (-1075))
          * inject_Z w
          == a + a * pow2 (-53) + inject_Z w * pow2 (-1075)).
  { transitivity (a / inject_Z w * inject_Z w
                  + a / inject_Z w * inject_Z w * pow2 (-53)
                  + inject_Z w * pow2 (-1075)); [ring|].
    by rewrite Hqw. }
  lra.
Qed.

Lemma product_rounded w s B N :
  (0 <= w)%Z -> 0 <= s -> s * inject_Z w <= B + (B + 1) * pow2 (-53) ->
  0 <= B -> B <= inject_Z N + (1 # 4) -> (N <= 1000)%Z ->
  exists w', fround (fmul (of_Z w) (Fin s)) = of_Z w' /\ (0 <= w' <= N)%Z.
Proof.
  intros Hw Hs Hprod HB0 HBN HN. unfold fmul, of_Z.
  assert (Hwq : 0 <= inject_Z w).
  { change 0 with (inject_Z 0). rewrite <- Zle_Qle. lia. }
  assert (HNq : inject_Z N <= 1000).
  { change 1000 with (inject_Z 1000). rewrite <- Zle_Qle. lia. }
  pose proof pow2_m53 as HU. pose proof (pow2_pos (-53)) as HU0.
  assert (HT : pow2 (-1075) <= pow2 (-53)) by (apply pow2_le; lia).
  assert (Hx0 : 0 <= inject_Z w * s) by nra.
  assert (HBU : B * pow2 (-53) <= 1001 * pow2 (-53)) by nra.
  assert (Hx1 : inject_Z w * s <= B + 1002 * pow2 (-53)) by nra.
  assert (H1000 : 1002 <= pow2 1000).
  { assert (pow2 10 <= pow2 1000) by (apply pow2_le; lia).
    assert (1002 <= pow2 10) by (vm_compute; discriminate). lra. }
  destruct (rnd_upper (inject_Z w * s) Hx0 ltac:(lra)) as (r & -> & Hr0 & Hr1).
  simpl. exists (Qfloor (r + (1 # 2))). split; [done|].
  pose proof (Qfloor_le (r + (1 # 2))) as Hf.
  split.
  - change 0%Z with (Qfloor 0). apply Qfloor_resp_le. lra.
  - assert (HxU : inject_Z w * s * pow2 (-53) <= 1002 * pow2 (-53)) by nra.
    assert (Hlt : inject_Z (Qfloor (r + (1 # 2))) < inject_Z N + 1).
    { rewrite HU in *. lra. }
    change 1 with (inject_Z 1) in Hlt.
    rewrite <- inject_Z_plus, <- Zlt_Qlt in Hlt. lia.
Qed.

Lemma scale_image_fits indent w h :
  indent = 0%Z \/ indent = 360%Z ->
  (0 <= w < 2 ^ 53)%Z -> (0 <= h < 2 ^ 53)%Z ->
  exists w' h',
    scale_image indent (of_Z w) (of_Z h) = (of_Z w', of_Z h') /\
    (0 <= w' <= widest indent)%Z /\ (0 <= h' <= 600)%Z.
Proof.
  intros Hi Hw Hh. unfold scale_image.
  destruct (maxWidth_value indent Hi) as (mw & Emw & Hlo & Hhi).
  rewrite Emw. cbv zeta.
  assert (Hwide : inject_Z (widest indent - 1) < mw /\ mw < inject_Z (widest indent)).
  { unfold widest. destruct Hi as [-> | ->]; simpl in *; split; done. }
  assert (Hwd : (578 <= widest indent <= 602)%Z).
  { unfold widest. destruct (Z.eqb indent 0); lia. }
  destruct Hwide as [Hwlo Hwhi].
  assert (Hwd1 : inject_Z 577 <= inject_Z (widest indent - 1))
    by (rewrite <- Zle_Qle; lia).
  assert (Hwd2 : inject_Z (widest indent) <= inject_Z 602)
    by (rewrite <- Zle_Qle; lia).
  change (inject_Z 577) with 577 in Hwd1. change (inject_Z 602) with 602 in Hwd2.
  destruct (fgt (of_Z w) (Fin mw) || fgt (of_Z h) maxHeight) eqn:Hc.
  - pose proof (pow2_pos (-53)) as HU0.
    assert (Hs : exists s,
      fmin (fdiv (Fin mw) (of_Z w)) (fdiv maxHeight (of_Z h)) = Fin s /\ 0 <= s /\
      s * inject_Z w <= mw + (mw + 1) * pow2 (-53) /\
      s * inject_Z h <= 600 + (600 + 1) * pow2 (-53)).
    { change maxHeight with (Fin 600).
      destruct (Z.eq_dec w 0%Z) as [->|Hw0]; destruct (Z.eq_dec h 0%Z) as [->|Hh0].
      - exfalso.
        assert (HW : fgt (of_Z 0%Z) (Fin mw) = false).
        { unfold fgt, of_Z. rewrite negb_false_iff. apply Qle_bool_iff.
          change (inject_Z 0) with 0. lra. }
        rewrite HW in Hc. discriminate Hc.
      - destruct (quotient_times 600 h ltac:(lra) ltac:(lra) ltac:(lia))
          as (sh & Eh & Hsh0 & Hsh1).
        exists sh. rewrite Eh.
        assert (E : fdiv (Fin mw) (of_Z 0%Z) = Inf).
        { unfold fdiv, of_Z. rewrite is_zero_inject. simpl.
          destruct (is_zero mw) eqn:Ez; [|done].
          apply Qeq_bool_iff in Ez. lra. }
        rewrite E. cbn [fmin]. split_and!; [done | done | | done].
        change (inject_Z 0) with 0. rewrite Qmult_0_r. nra.
      - destruct (quotient_times mw w ltac:(lra) ltac:(lra) ltac:(lia))
          as (sw & Ew & Hsw0 & Hsw1).
        exists sw. rewrite Ew.
        assert (E : fdiv (Fin 600) (of_Z 0%Z) = Inf) by reflexivity.
        rewrite E. cbn [fmin]. split_and!; [done | done | done |].
        change (inject_Z 0) with 0. rewrite Qmult_0_r. nra.
      - destruct (quotient_times mw w ltac:(lra) ltac:(lra) ltac:(lia))
          as (sw & Ew & Hsw0 & Hsw1).
        destruct (quotient_times 600 h ltac:(lra) ltac:(lra) ltac:(lia))
          as (sh & Eh & Hsh0 & Hsh1).
        rewrite Ew, Eh. cbn [fmin].
        assert (Hwq : 0 <= inject_Z w).
        { change 0 with (inject_Z 0). rewrite <- Zle_Qle. lia. }
        assert (Hhq : 0 <= inject_Z h).
        { change 0 with (inject_Z 0). rewrite <- Zle_Qle. lia. }
        destruct (Qle_bool sw sh) eqn:E.
        + apply Qle_bool_iff in E. exists sw. split_and!; [done | done | done |].
          nra.
        + assert (sh <= sw).
          { destruct (Qlt_le_dec sh sw) as [|Hle]; [lra|].
            apply Qle_bool_iff in Hle. congruence. }
          exists sh. split_and!; [done | done | | done]. nra. }
    destruct Hs as (s & -> & Hs0 & Hsw & Hsh).
    destruct (product_rounded w s mw (widest indent)) as (w' & -> & Hw');
      [lia | done | done | lra | lra | lia |].
    destruct (product_rounded h s 600 600%Z) as (h' & -> & Hh');
      [lia | done | done | lra | | lia |].
    { change (inject_Z 600) with 600. lra. }
    by exists w', h'.
  - apply orb_false_iff in Hc as [Hcw Hch].
    exists w, h. split; [done|].
    unfold maxHeight, of_Z, fgt in Hcw, Hch. rewrite negb_false_iff in Hcw, Hch.
    apply Qle_bool_iff in Hcw, Hch.
    assert (inject_Z w < inject_Z (widest indent)) by lra.
    rewrite <- Zlt_Qlt in *. rewrite <- Zle_Qle in Hch. lia.
Qed.

(** The diagram that [convertElements] embeds fits the page: whatever the
    PNG header of the rendered data says, the image is at most 602 pixels
    wide under a level-1 heading and 578 pixels under a deeper one (the
    usable width, rounded), and at most 600 pixels high. *)
Theorem mermaid_image_fits indent imageData :
  indent = 0%Z \/ indent = 360%Z ->
  Forall (fun b => (b < 256)%N) imageData ->
  exists w' h',
    mermaid_image indent imageData
    = Paragraph
        (Para None None (Some indent) None None None None true
           [ImageRun "png" imageData (of_Z w') (of_Z h')
              (Some (u "Mermaid Diagram"))]) /\
    (0 <= w' <= widest indent)%Z /\ (0 <= h' <= 600)%Z.
Proof.
  intros Hi Hbytes. unfold mermaid_image.
  destruct (getPngDimensions imageData) as [[w h]|] eqn:Edim.
  - assert (Hw : (0 <= w < 2 ^ 32)%Z /\ (0 <= h < 2 ^ 32)%Z).
    { unfold getPngDimensions in Edim. repeat case_match; try done.
      injection Edim as <- <-. split; by apply readUInt32BE_range. }
    destruct (scale_image_fits indent w h Hi) as (w' & h' & -> & Hw' & Hh'); [lia..|].
    by exists w', h'.
  - change (fround (fmul (of_Z MERMAID_IMAGE_WIDTH) (rnd (6 # 10))))
      with (of_Z 360%Z).
    change (of_Z MERMAID_IMAGE_WIDTH) with (of_Z 600%Z).
    destruct (scale_image_fits indent 600%Z 360%Z Hi) as (w' & h' & -> & Hw' & Hh');
      [lia..|].
    by exists w', h'.
Qed.

Local Close Scope Q_scope.

(** [mermaid_image_fits] on a PNG header of 1204 by 300 pixels. *)
Lemma mermaid_image_fits_witness :
  let imageData :=
    [137; 80; 78; 71; 13; 10; 26; 10; 0; 0; 0; 13; 73; 72; 68; 82;
     0; 0; 4; 180; 0; 0; 1; 44]%N in
  exists w' h',
    mermaid_image 0 imageData
    = Paragraph
        (Para None None (Some 0%Z) None None None None true
           [ImageRun "png" imageData (of_Z w') (of_Z h')
              (Some (u "Mermaid Diagram"))]) /\
    (0 <= w' <= widest 0)%Z /\ (0 <= h' <= 600)%Z.
Proof.
  intros imageData. apply (mermaid_image_fits 0 imageData); [by left|].
  repeat (apply Forall_cons; split; [reflexivity|]). by apply Forall_nil.
Defined.

(** ** A rendering that succeeds *)

Lemma fold_handle_data chunks r :
  r_promise r = pending -> r_listening r = true ->
  fold_left handle (List.map ev_data chunks) r
  = Request pending (r_chunks r ++ chunks) true (r_destroyed r).
Proof.
  revert r; induction chunks as [|c chunks IH]; intros [p cs l d] Hp Hl;
    simpl in *; subst.
  - by rewrite app_nil_r.
  - rewrite IH by done. simpl. by rewrite <- app_assoc.
Qed.

(** A request that is answered with status 200, then with the chunks of
    the body and the end of the response, resolves with the chunks put
    together in their order, whatever the request delivers afterwards: a
    late error or timeout does not undo it. *)
Theorem render_success_concatenates deliver diagramSource mermaidTheme
    chunks later :
  deliver (postData diagramSource mermaidTheme)
  = ev_response 200 :: List.map ev_data chunks ++ ev_end :: later ->
  renderMermaidToPng deliver diagramSource mermaidTheme
  = resolved (Some (concat chunks)).
Proof.
  intros Hd. unfold renderMermaidToPng, settle, request_after. rewrite Hd.
  cbn [fold_left handle]. change (negb (200 =? 200)%Z) with false. cbn iota.
  rewrite fold_left_app, fold_handle_data by done.
  cbn [fold_left handle r_listening r_chunks r_promise r_destroyed resolve app].
  by apply fold_handle_settled.
Qed.

(** [render_success_concatenates] on a response of two chunks that a
    timeout follows. *)
Lemma render_success_concatenates_witness :
  let deliver : str -> list http_event :=
    fun _ => [ev_response 200; ev_data [1; 2]%N; ev_data [3]%N; ev_end;
              ev_timeout] in
  renderMermaidToPng deliver (u "graph TD; A-->B") (u "forest")
  = resolved (Some [1; 2; 3]%N).
Proof.
  intros deliver.
  apply (render_success_concatenates deliver (u "graph TD; A-->B") (u "forest")
           [[1; 2]; [3]]%N [ev_timeout]).
  reflexivity.
Defined.

(** ** Tables *)

Lemma dataRows_of_app data tail :
  Forall (fun l => includes (u "|") l = true) data ->
  match tail with [] => True | l :: _ => includes (u "|") l = false end ->
  dataRows_of (data ++ tail) = List.map parseTableRow data.
Proof.
  intros Hd Ht. induction Hd as [|l data Hl Hd IH]; cbn [dataRows_of app List.map].
  - destruct tail as [|l tail]; [done|]. cbn [dataRows_of]. by rewrite Ht.
  - by rewrite Hl, IH.
Qed.

(** [parseTable] on a header line, the line behind it and the run of lines
    with a cell separator that follows, up to a line without one or to the
    end of the document: the rows of the table are the header line and the
    lines of the run, each split by [parseTableRow]; the line behind the
    header is passed over unread; and the cursor is behind the run. *)
Theorem parseTable_captures ps headerLine separator data tail :
  rest ps = headerLine :: separator :: data ++ tail ->
  Forall (fun l => includes (u "|") l = true) data ->
  match tail with [] => True | l :: _ => includes (u "|") l = false end ->
  parseTable ps
  = Parser (lines ps) (pos ps + length data + 2)
      (elements ps ++ [table (List.map parseTableRow (headerLine :: data))]).
Proof.
  intros Hr Hd Ht. apply rest_lookup in Hr as [Hl Hr].
  apply rest_lookup in Hr as [_ Hr].
  unfold parseTable. rewrite nth_lookup, Hl, Hr. simpl default.
  rewrite (dataRows_of_app _ _ Hd Ht), length_map.
  unfold push, advance; simpl. f_equal. lia.
Qed.

(** [parseTable_captures] on a table of two data rows, the second one a
    line that looks like a list item. *)
Lemma parseTable_captures_witness :
  let ps := new_parser (u "a | b" ++ [10%N] ++ u "---|---" ++ [10%N]
                        ++ u "| 1 | 2 |" ++ [10%N] ++ u "- x | y" ++ [10%N]
                        ++ [10%N] ++ u "end") in
  parseTable ps
  = Parser (lines ps) 4
      [table [[u "a"; u "b"]; [u "1"; u "2"]; [u "- x"; u "y"]]].
Proof.
  intros ps.
  apply (parseTable_captures ps (u "a | b") (u "---|---")
           [u "| 1 | 2 |"; u "- x | y"] [[]; u "end"]).
  - vm_compute. reflexivity.
  - repeat (apply Forall_cons; split; [vm_compute; reflexivity|]). by apply Forall_nil.
  - vm_compute. reflexivity.
Defined.

(** ** The colours of a run *)

Lemma THEME_COLORS_lookup theme c :
  THEME_COLORS !! theme = Some c ->
  c ∈ [blue_colors; orange_colors; green_colors].
Proof.
  unfold THEME_COLORS. rewrite !lookup_insert_Some, lookup_empty.
  intros [[_ <-]|[_ [[_ <-]|[_ [[_ <-]|[_ ?]]]]]]; try done.
  - left.
  - right; left.
  - do 2 right; left.
Qed.

(** The colours that [createHeader], [createHistorySection] and [main] take
    from the options that [parseArgs] returns are those of one of the three
    themes, so that the theme of the diagrams is [default], [neutral] or
    [forest] -- unless the theme of the command line names a property that
    [THEME_COLORS] inherits from [Object.prototype]: then [getThemeColors]
    returns that property, which is no set of colours. *)
Theorem colours_of_the_options on_prototype today args options :
  parseArgs on_prototype today args = Some options ->
  exists theme, options !! u "theme" = Some (Some theme) /\
    match getThemeColors on_prototype theme with
    | own colors =>
        colors ∈ [blue_colors; orange_colors; green_colors] /\
        mermaid colors ∈ [u "default"; u "neutral"; u "forest"]
    | inherited => on_prototype theme = true
    | undefined => False
    end.
Proof.
  intros H. apply parseArgs_returns in H as (_ & _ & _ & _ & theme & Ht & Hc).
  exists theme. split; [done|]. unfold getThemeColors, get.
  destruct (THEME_COLORS !! theme) as [c|] eqn:E.
  - pose proof (THEME_COLORS_lookup _ _ E) as Hin. split; [done|].
    rewrite !elem_of_cons in Hin. destruct Hin as [->|[->|[->|Hin]]].
    + left.
    + right; left.
    + do 2 right; left.
    + by apply elem_of_nil in Hin.
  - destruct Hc as [[? ?]|Hc]; [done|]. by rewrite Hc.
Qed.

(** [colours_of_the_options] on a command line that asks for the green
    theme. *)
Lemma colours_of_the_options_witness :
  let on_prototype := fun key => eq_str key (u "constructor") in
  exists options,
    parseArgs on_prototype (u "2024") [u "a.md"; u "--theme"; u "green"]
    = Some options /\
    exists theme, options !! u "theme" = Some (Some theme) /\
      match getThemeColors on_prototype theme with
      | own colors =>
          colors ∈ [blue_colors; orange_colors; green_colors] /\
          mermaid colors ∈ [u "default"; u "neutral"; u "forest"]
      | inherited => on_prototype theme = true
      | undefined => False
      end.
Proof.
  intros on_prototype.
  assert (H : is_Some (parseArgs on_prototype (u "2024")
                         [u "a.md"; u "--theme"; u "green"]))
    by (vm_compute; eexists; reflexivity).
  destruct H as [options E]. exists options. split; [exact E|].
  apply (colours_of_the_options _ _ _ _ E).
Defined.

(** ** Nothing is dropped *)

(** Every element that [parse] returns shows in the content:
    [convertElements] pushes a block at least for an element that is well
    formed, the blocks of the elements follow one another in the order of
    the elements, and so the content of a document has as many blocks as
    it has elements at least. *)
Theorem every_element_shows env inputDir m fuel markdown els :
  parse fuel markdown = Some els ->
  (forall st el, el ∈ els ->
     (convert_element env inputDir m st el).1 <> []) /\
  length els <= length (convertElements env inputDir m els).
Proof.
  intros Hp. unfold parse in Hp.
  destruct (parse_loop fuel (new_parser markdown)) as [ps'|] eqn:E; [|done].
  injection Hp as <-.
  assert (Hwf : Forall well_formed (elements ps')).
  { eapply parse_loop_well_formed; [done|]. constructor. }
  assert (Hone : forall st el, well_formed el ->
            (convert_element env inputDir m st el).1 <> []).
  { intros st el Hel.
    destruct el as [|level text|alt src w h|rows|lt items|text| |text|language content];
      simpl; try done.
    - destruct Hel as [Hne _]. by destruct items.
    - destruct (eq_str language (u "mermaid")).
      + by destruct (m !! content) as [[?|]|].
      + simpl. pose proof (split_nonempty 10%N content) as Hs.
        by destruct (split 10%N content). }
  split.
  - intros st el Hel. apply Hone. rewrite Forall_forall in Hwf. by apply Hwf.
  - unfold convertElements. generalize (ConvertState 0 0).
    induction Hwf as [|el els Hel Hwf IH]; intros st; simpl; [lia|].
    specialize (Hone st el Hel).
    destruct (convert_element env inputDir m st el) as [blocks st'].
    simpl in Hone. rewrite length_app. specialize (IH st').
    destruct blocks; [done|]. simpl. lia.
Qed.

(** [every_element_shows] on a document with a heading, a list and a
    horizontal rule. *)
Lemma every_element_shows_witness :
  let env := NodeEnv (fun d s => d ++ s) (fun _ => false) (fun _ => None)
               (fun _ => []) in
  let md := u "# T" ++ [10%N] ++ u "- a" ++ [10%N] ++ u "- b" ++ [10%N; 10%N]
            ++ u "---" in
  exists els, parse 5 md = Some els /\
    length els <= length (convertElements env (u "dir") ∅ els).
Proof.
  intros env md. eexists. split; [vm_compute; reflexivity|].
  eapply (every_element_shows env (u "dir") ∅ 5 md). vm_compute. reflexivity.
Defined.

(** ** Blocks that an empty line separates *)

Lemma parse_loop_mono fuel k ps r :
  parse_loop fuel ps = Some r -> parse_loop (fuel + k) ps = Some r.
Proof.
  revert ps; induction fuel as [|fuel IH]; intros ps; simpl.
  - destruct (Nat.ltb _ _) eqn:E; [done|]. intros [= <-].
    destruct k; simpl; by rewrite E.
  - destruct (Nat.ltb _ _) eqn:E; [apply IH | done].
Qed.

Lemma parse_step_lines ps : lines (parse_step ps) = lines ps.
Proof.
  unfold parse_step. destruct (lines ps !! pos ps); [|done].
  apply parse_line_pushes.
Qed.

Lemma parse_step_pos ps : pos ps <= pos (parse_step ps).
Proof.
  unfold parse_step. destruct (lines ps !! pos ps) eqn:E; [|done].
  by apply parse_line_pos.
Qed.

(** *** The position of a parser in its document does not matter *)

Section lift.

Variables (pre : list str) (e0 : list element).

Lemma lift_push el ps : lift pre e0 (push el ps) = push el (lift pre e0 ps).
Proof. unfold lift, push; simpl. by rewrite app_assoc. Qed.

Lemma lift_advance n ps : lift pre e0 (advance n ps) = advance n (lift pre e0 ps).
Proof. unfold lift, advance; simpl. by rewrite Nat.add_assoc. Qed.

Lemma lift_rest ps : rest (lift pre e0 ps) = rest ps.
Proof. unfold rest, lift; simpl. by rewrite drop_app_add. Qed.

Lemma lift_nth ps n :
  nth (pos (lift pre e0 ps) + n) (lines (lift pre e0 ps)) []
  = nth (pos ps + n) (lines ps) [].
Proof.
  unfold lift; simpl. rewrite !nth_lookup, <- Nat.add_assoc.
  by rewrite lookup_app_r, Nat.add_comm, Nat.add_sub by lia.
Qed.

Lemma lift_parse_line ps line :
  parse_line (lift pre e0 ps) line = lift pre e0 (parse_line ps line).
Proof.
  pose proof (lift_nth ps 0) as Hn0. rewrite !Nat.add_0_r in Hn0.
  unfold parse_line.
  assert (Ht : table_start (lift pre e0 ps) line = table_start ps line).
  { unfold table_start. rewrite lift_nth. do 2 f_equal.
    unfold lift; simpl. rewrite length_app.
    destruct (Nat.ltb_spec (pos ps + 1) (length (lines ps)));
      destruct (Nat.ltb_spec (length pre + pos ps + 1)
                  (length pre + length (lines ps))); (done || lia). }
  rewrite Ht.
  unfold parseCodeBlock, parseTable, parseList, parseBlockquote, parseParagraph.
  cbv zeta.
  rewrite <- !lift_advance, !lift_rest, Hn0.
  repeat case_match;
    repeat (rewrite lift_push || rewrite lift_advance); try done; congruence.
Qed.

Lemma lift_parse_step ps :
  parse_step (lift pre e0 ps) = lift pre e0 (parse_step ps).
Proof.
  unfold parse_step. unfold lift at 1 2; simpl.
  rewrite lookup_app_r, Nat.add_comm, Nat.add_sub by lia.
  destruct (lines ps !! pos ps) as [line|]; [|done].
  apply lift_parse_line.
Qed.

Lemma lift_parse_loop fuel ps :
  parse_loop fuel (lift pre e0 ps) = lift pre e0 <$> parse_loop fuel ps.
Proof.
  revert ps; induction fuel as [|fuel IH]; intros ps; simpl;
    rewrite length_app;
    destruct (Nat.ltb_spec (pos ps) (length (lines ps)));
    destruct (Nat.ltb_spec (length pre + pos ps) (length pre + length (lines ps)));
    try lia; try done.
  rewrite lift_parse_step. apply IH.
Qed.

End lift.

(** *** What follows an empty line does not matter *)

Section extend.

Variable more : list str.

Lemma codeLines_of_closed R X :
  length (codeLines_of R) < length R ->
  codeLines_of (R ++ X) = codeLines_of R.
Proof.
  induction R as [|l R IH]; cbn [codeLines_of app length]; [lia|].
  destruct (startsWith fence l); [done|]. cbn [length]. intros H.
  rewrite IH; [done | lia].
Qed.

Lemma codeLines_of_length R : length (codeLines_of R) <= length R.
Proof.
  induction R as [|l R IH]; cbn [codeLines_of length]; [lia|].
  destruct (startsWith fence l); cbn [length]; lia.
Qed.

Lemma dataRows_of_extend R : dataRows_of (R ++ [] :: more) = dataRows_of R.
Proof.
  induction R as [|l R IH]; [reflexivity|]. cbn [app dataRows_of].
  by rewrite IH.
Qed.

Lemma quoteLines_of_extend R : quoteLines_of (R ++ [] :: more) = quoteLines_of R.
Proof.
  induction R as [|l R IH]; [reflexivity|].
  cbn [app]. rewrite !quoteLines_of_cons. by rewrite IH.
Qed.

Lemma paraLines_of_extend R : paraLines_of (R ++ [] :: more) = paraLines_of R.
Proof.
  induction R as [|l R IH]; [reflexivity|]. cbn [app paraLines_of].
  by rewrite IH.
Qed.

Lemma list_items_length lt R : (list_items lt R).2 <= length R.
Proof.
  induction R as [|l R IH]; simpl; [lia|].
  destruct (exec (topPattern lt) l).
  { destruct (list_items lt R); simpl in *; lia. }
  destruct (exec re_nested l).
  { destruct (list_items lt R); simpl in *; lia. }
  destruct (is_blank l); simpl; lia.
Qed.

Lemma list_items_extend lt R :
  exists d, d <= 1 /\
    list_items lt (R ++ [] :: more)
    = ((list_items lt R).1, (list_items lt R).2 + d) /\
    (d = 1 -> (list_items lt R).2 = length R).
Proof.
  induction R as [|l R (d & Hd & IH & Hlen)].
  - exists 1. split; [lia|]. split; [|done]. destruct lt; reflexivity.
  - cbn [app list_items].
    destruct (exec (topPattern lt) l).
    { exists d. rewrite IH. destruct (list_items lt R); simpl in *.
      split_and!; [done | done | intros ?; f_equal; auto]. }
    destruct (exec re_nested l).
    { exists d. rewrite IH. destruct (list_items lt R); simpl in *.
      split_and!; [done | done | intros ?; f_equal; auto]. }
    exists 0. destruct (is_blank l); simpl; split_and!; (done || lia).
Qed.

Lemma extend_0 ps : extend more 0 ps = Parser (lines ps ++ [] :: more) (pos ps) (elements ps).
Proof. unfold extend. by rewrite Nat.add_0_r. Qed.

Lemma extend_push d el ps : extend more d (push el ps) = push el (extend more d ps).
Proof. done. Qed.

Lemma extend_advance d n ps :
  extend more d (advance n ps) = advance n (extend more d ps).
Proof. unfold extend, advance; simpl. f_equal. lia. Qed.

Lemma extend_rest n ps :
  pos ps + n <= length (lines ps) ->
  rest (advance n (extend more 0 ps)) = rest (advance n ps) ++ [] :: more.
Proof.
  intros Hn. unfold rest, advance, extend; simpl.
  rewrite Nat.add_0_r. by rewrite drop_app_le.
Qed.

Lemma extend_nth n ps :
  pos ps + n < length (lines ps) ->
  nth (pos (extend more 0 ps) + n) (lines (extend more 0 ps)) []
  = nth (pos ps + n) (lines ps) [].
Proof.
  intros Hn. unfold extend; simpl. rewrite Nat.add_0_r.
  by rewrite app_nth1.
Qed.

Lemma extend_table_start ps line :
  pos ps < length (lines ps) ->
  table_start (extend more 0 ps) line = table_start ps line.
Proof.
  intros Hp. unfold table_start.
  assert (Hlen : length (lines (extend more 0 ps))
                 = length (lines ps) + S (length more))
    by (unfold extend; simpl; by rewrite length_app).
  assert (Hpos : pos (extend more 0 ps) = pos ps)
    by (unfold extend; simpl; lia).
  destruct (Nat.ltb_spec (pos ps + 1) (length (lines ps))) as [Hlt|Hge].
  - rewrite (extend_nth 1) by done. rewrite Hlen, Hpos.
    destruct (Nat.ltb_spec (pos ps + 1) (length (lines ps) + S (length more)));
      [done | lia].
  - assert (E : nth (pos (extend more 0 ps) + 1) (lines (extend more 0 ps)) [] = []).
    { unfold extend; simpl. rewrite Nat.add_0_r, app_nth2 by lia.
      replace (pos ps + 1 - length (lines ps)) with 0 by lia. done. }
    rewrite E. change (test re_separator []) with false.
    by rewrite !andb_false_r.
Qed.

Lemma extend_parse_line ps line :
  lines ps !! pos ps = Some line ->
  pos (parse_line ps line) <= length (lines ps) ->
  exists d, d <= 1 /\
    parse_line (extend more 0 ps) line = extend more d (parse_line ps line) /\
    (d = 1 -> pos (parse_line ps line) = length (lines ps)).
Proof.
  intros Hl Hnext.
  assert (Hp : pos ps < length (lines ps)) by (by eapply lookup_lt_Some).
  pose proof (extend_nth 0 ps) as Hn0.
  rewrite !Nat.add_0_r in Hn0. specialize (Hn0 Hp).
  pose proof (extend_rest 0 ps ltac:(lia)) as Hr0.
  assert (A0 : forall q, advance 0 q = q)
    by (intros [? ? ?]; unfold advance; simpl; by rewrite Nat.add_0_r).
  rewrite !A0 in Hr0.
  unfold parse_line in *. rewrite (extend_table_start ps line Hp).
  destruct (is_blank line).
  { exists 0. rewrite extend_advance. split_and!; [lia | done | done]. }
  destruct (startsWith fence line).
  { exists 0. split; [lia|]. split; [|done].
    unfold parseCodeBlock in *. cbv zeta in *. simpl in Hnext.
    pose proof (codeLines_of_length (rest (advance 1 ps))) as Hlen.
    assert (Hr1 : length (rest (advance 1 ps)) = length (lines ps) - (pos ps + 1))
      by (unfold rest, advance; simpl; by rewrite length_drop).
    rewrite Hn0, (extend_rest 1) by lia.
    rewrite codeLines_of_closed by lia.
    by rewrite extend_push, !extend_advance. }
  destruct (test re_pagebreak line).
  { exists 0. rewrite extend_advance, extend_push. split_and!; [lia | done | done]. }
  destruct (exec re_heading line).
  { exists 0. rewrite extend_advance, extend_push. split_and!; [lia | done | done]. }
  destruct (exec re_image line).
  { exists 0. rewrite extend_advance, extend_push. split_and!; [lia | done | done]. }
  destruct (exec imgPattern line).
  { exists 0. rewrite extend_advance, extend_push. split_and!; [lia | done | done]. }
  destruct (table_start ps line) eqn:Ht.
  { exists 0. split; [lia|]. split; [|done].
    apply table_start_spec in Ht as (_ & next & Hnext' & _).
    apply lookup_lt_Some in Hnext'.
    unfold parseTable. cbv zeta.
    assert (A2 : forall q, advance 1 (advance 1 q) = advance 2 q)
      by (intros [? ? ?]; unfold advance; simpl; f_equal; lia).
    rewrite !A2, Hn0, (extend_rest 2) by lia.
    rewrite dataRows_of_extend.
    by rewrite extend_push, !extend_advance. }
  assert (HL : forall lt,
    pos (parseList lt ps) <= length (lines ps) ->
    exists d, d <= 1 /\
      parseList lt (extend more 0 ps) = extend more d (parseList lt ps) /\
      (d = 1 -> pos (parseList lt ps) = length (lines ps))).
  { intros lt Hle. unfold parseList in *. rewrite Hr0.
    destruct (list_items_extend lt (rest ps)) as (d & Hd & -> & Hlen).
    exists d. destruct (list_items lt (rest ps)) as [items n]. simpl in *.
    split; [done|]. split.
    - unfold extend, push, advance; simpl. f_equal. lia.
    - intros ->. rewrite (Hlen eq_refl). unfold rest. rewrite length_drop. lia. }
  destruct (test re_bullet line); [by apply HL|].
  destruct (test re_number line); [by apply HL|].
  destruct (startsWith (u ">") line).
  { exists 0. split; [lia|]. split; [|done].
    unfold parseBlockquote. cbv zeta. rewrite Hr0, quoteLines_of_extend.
    by rewrite extend_push, extend_advance. }
  destruct (test re_hr line).
  { exists 0. rewrite extend_advance, extend_push. split_and!; [lia | done | done]. }
  exists 0. split; [lia|]. split; [|done].
  unfold parseParagraph. cbv zeta. rewrite Hr0, paraLines_of_extend.
  destruct (Nat.ltb 0 _); by rewrite ?extend_push, extend_advance.
Qed.

Lemma extend_parse_step ps :
  pos ps < length (lines ps) ->
  pos (parse_step ps) <= length (lines ps) ->
  exists d, d <= 1 /\
    parse_step (extend more 0 ps) = extend more d (parse_step ps) /\
    (d = 1 -> pos (parse_step ps) = length (lines ps)).
Proof.
  intros Hp Hnext.
  destruct (lookup_lt_is_Some_2 _ _ Hp) as [line Hl].
  unfold parse_step in *. rewrite Hl in *.
  assert (Hl' : lines (extend more 0 ps) !! pos (extend more 0 ps) = Some line).
  { unfold extend; simpl. by rewrite Nat.add_0_r, lookup_app_l. }
  rewrite Hl'. by apply extend_parse_line.
Qed.

End extend.

Lemma parse_loop_lines fuel ps ps' :
  parse_loop fuel ps = Some ps' -> lines ps' = lines ps.
Proof.
  revert ps; induction fuel as [|fuel IH]; intros ps; simpl;
    destruct (Nat.ltb _ _); try discriminate; try (by intros [= <-]).
  intros H. rewrite (IH _ H). apply parse_step_lines.
Qed.

Lemma split_app_cons sep a y :
  split sep (a ++ sep :: y) = split sep a ++ split sep y.
Proof.
  induction a as [|c a IH]; simpl.
  - unfold cueq. by rewrite N.eqb_refl.
  - unfold cueq in *. destruct (N.eqb c sep); [by rewrite IH|].
    rewrite IH. pose proof (split_nonempty sep a) as Hn.
    by destruct (split sep a).
Qed.

Lemma extend_skip more ps :
  pos ps = length (lines ps) ->
  parse_step (extend more 0 ps) = extend more 1 ps.
Proof.
  intros Hp. unfold parse_step, extend. cbn [lines pos elements].
  rewrite Nat.add_0_r, Hp, list_lookup_middle by done.
  unfold parse_line. change (is_blank []) with true. cbn iota.
  unfold advance. cbn [lines pos elements]. rewrite ?Nat.add_0_r. done.
Qed.

Lemma parse_loop_extend more fuelA ps psa d fuelB r :
  parse_loop fuelA ps = Some psa ->
  pos psa = length (lines ps) -> pos ps <= length (lines ps) ->
  d <= 1 -> (d = 1 -> pos ps = length (lines ps)) ->
  parse_loop fuelB (extend more 1 psa) = Some r ->
  parse_loop (fuelA + 1 + fuelB) (extend more d ps) = Some r.
Proof.
  revert ps d; induction fuelA as [|fuelA IH]; intros ps d Ha Hend Hle Hd Hd1 Hb.
  - simpl in Ha. destruct (Nat.ltb_spec (pos ps) (length (lines ps))); [done|].
    injection Ha as <-.
    destruct d as [|[|d]]; [| |lia].
    + change (0 + 1 + fuelB) with (S fuelB). cbn [parse_loop].
      assert (Hc : Nat.ltb (pos (extend more 0 ps)) (length (lines (extend more 0 ps)))
                   = true).
      { apply Nat.ltb_lt. unfold extend; simpl. rewrite length_app; simpl. lia. }
      rewrite Hc, extend_skip by lia. done.
    + rewrite Nat.add_comm. by apply parse_loop_mono.
  - simpl in Ha. destruct (Nat.ltb_spec (pos ps) (length (lines ps))) as [Hlt|Hge].
    + assert (d = 0) as -> by (destruct d as [|[|d]]; [done | specialize (Hd1 eq_refl); lia | lia]).
      pose proof (parse_step_lines ps) as Hlines.
      assert (Hnext : pos (parse_step ps) <= length (lines ps)).
      { destruct (Nat.le_gt_cases (pos (parse_step ps)) (length (lines ps)))
          as [|Hgt]; [done|]. exfalso.
        destruct fuelA; simpl in Ha; rewrite Hlines in Ha;
          destruct (Nat.ltb_spec (pos (parse_step ps)) (length (lines ps)));
          try lia; injection Ha as <-; lia. }
      destruct (extend_parse_step more ps Hlt Hnext) as (d' & Hd' & E & Hd1').
      change (S fuelA + 1 + fuelB) with (S (fuelA + 1 + fuelB)). cbn [parse_loop].
      assert (Hc : Nat.ltb (pos (extend more 0 ps)) (length (lines (extend more 0 ps)))
                   = true).
      { apply Nat.ltb_lt. unfold extend; simpl. rewrite length_app; simpl. lia. }
      rewrite Hc, E. apply IH; rewrite ?Hlines; try done.
    + injection Ha as <-.
      destruct d as [|[|d]]; [| |lia].
      * change (S fuelA + 1 + fuelB) with (S (fuelA + 1 + fuelB)). cbn [parse_loop].
        assert (Hc : Nat.ltb (pos (extend more 0 ps))
                       (length (lines (extend more 0 ps))) = true).
        { apply Nat.ltb_lt. unfold extend; simpl. rewrite length_app; simpl. lia. }
        rewrite Hc, extend_skip by lia.
        replace (fuelA + 1 + fuelB) with (fuelB + (fuelA + 1)) by lia.
        by apply parse_loop_mono.
      * replace (S fuelA + 1 + fuelB) with (fuelB + (S fuelA + 1)) by lia.
        by apply parse_loop_mono.
Qed.

(** Two documents put together with an empty line between them: when
    [parse] ends on the first one at its last line (and not behind it, as
    it does in a code block that is not closed) and returns on the second
    one, it returns on the whole the elements of the first one followed by
    those of the second.  What stands behind an empty line has no effect on
    the blocks before it, and the place of a block in the document none on
    the block. *)
Theorem empty_line_separates a b fuelA fuelB psa eb :
  parse_loop fuelA (new_parser a) = Some psa ->
  pos psa = length (lines psa) ->
  parse fuelB b = Some eb ->
  parse (fuelA + 1 + fuelB) (a ++ [10%N; 10%N] ++ b)
  = Some (elements psa ++ eb).
Proof.
  intros Ha Hend Hb. unfold parse in *.
  destruct (parse_loop fuelB (new_parser b)) as [psb|] eqn:Eb; [|done].
  injection Hb as <-.
  pose proof (parse_loop_lines _ _ _ Ha) as Hlines.
  assert (Hnew : new_parser (a ++ [10%N; 10%N] ++ b)
                 = extend (split 10%N b) 0 (new_parser a)).
  { unfold new_parser, extend; simpl.
    by rewrite split_app_cons. }
  assert (Hlift : extend (split 10%N b) 1 psa
                  = lift (lines psa ++ [[]]) (elements psa) (new_parser b)).
  { unfold extend, lift, new_parser; simpl.
    rewrite <- app_assoc, app_nil_r, length_app, Hend. simpl. f_equal. lia. }
  rewrite Hnew.
  rewrite (parse_loop_extend (split 10%N b) fuelA (new_parser a) psa 0 fuelB
             (lift (lines psa ++ [[]]) (elements psa) psb));
    [done | done | by rewrite <- Hlines | simpl; lia | lia | done |].
  by rewrite Hlift, lift_parse_loop, Eb.
Qed.

(** [empty_line_separates] on a heading with a list and a paragraph. *)
Lemma empty_line_separates_witness :
  let a := u "# T" ++ [10%N] ++ u "- x" in
  let b := u "some text" in
  parse 4 (a ++ [10%N; 10%N] ++ b)
  = Some [heading 1 (u "T"); list_ bullet [Item (u "x") 0];
          paragraph (u "some text")].
Proof.
  intros a b.
  apply (empty_line_separates a b 2 1
           (Parser [u "# T"; u "- x"] 2
              [heading 1 (u "T"); list_ bullet [Item (u "x") 0]])
           [paragraph (u "some text")]); vm_compute; reflexivity.
Defined.
